(** * lemur: the Azure archive/remove core and the noop mover

    A shallow embedding of
      - cmd/lhsm-plugin-az-core/archive.go  ([Archive]),
      - cmd/lhsm-plugin-az-core (the file holding [Remove]),
      - cmd/lhsm-plugin-noop/main.go        ([Mover]),
    together with the parts of Go's standard library the code calls
    ([strings.Split], [path.Clean], [path.Join], [fmt.Sprintf] with the verbs
    [%d] and [%o], [Time.Format]; [url.Parse] on the strings it takes as
    they are). *)

From Stdlib Require Import ZArith Ascii.
From stdpp Require Import base list strings gmap.

Local Open Scope Z_scope.

(** ** Strings

    A Go [string] is a sequence of bytes; it is modelled by [string], whose
    characters are the 256 byte values. *)

(** [os.PathSeparator] on the platform the code is written for (it reads
    [syscall.Stat_t]). *)
Definition os_PathSeparator : ascii := "/"%char.

(** [has_sep s]: the byte ['/'] occurs in [s]. *)
Fixpoint has_sep (s : string) : bool :=
  match s with
  | EmptyString => false
  | String c s' => if decide (c = os_PathSeparator) then true else has_sep s'
  end.

(** [strings.Count(s, "/")]. *)
Fixpoint strings_Count (s : string) : nat :=
  match s with
  | EmptyString => O
  | String c s' =>
      if decide (c = os_PathSeparator) then S (strings_Count s') else strings_Count s'
  end.

(** [strings.Split(s, "/")]: the substrings between the separators, in order;
    a string with [k] separators gives [k+1] substrings ([""] gives [[""]]). *)
Fixpoint strings_Split (s : string) : list string :=
  match s with
  | EmptyString => [""]
  | String c s' =>
      if decide (c = os_PathSeparator) then "" :: strings_Split s'
      else match strings_Split s' with
           | h :: t => String c h :: t
           | [] => [String c ""]
           end
  end.

(** [strings.Join(elems, "/")]. *)
Fixpoint strings_Join (elems : list string) : string :=
  match elems with
  | [] => ""
  | [e] => e
  | e :: rest => e +:+ "/" +:+ strings_Join rest
  end.

(** ** Package [path] of the Go standard library *)

Definition rooted (p : string) : bool :=
  match p with
  | String c _ => if decide (c = "/"%char) then true else false
  | EmptyString => false
  end.

(** What one round of the loop of [path.Clean] does with the path element
    [e] that starts at the read index, when the output buffer is seen as the
    stack [out] of the elements written so far, last written first.  The
    buffer can be backtracked ([out.w > dotdot]) when its last element is not
    [".."]. *)
Definition clean_elem (rt : bool) (out : list string) (e : string) : list string :=
  if decide (e = "") then out                       (* empty path element *)
  else if decide (e = ".") then out                 (* . element *)
  else if decide (e = "..") then                    (* .. element *)
    match out with
    | top :: rest =>
        if decide (top = "..") then (if rt then out else e :: out)
        else rest                                    (* can backtrack *)
    | [] => if rt then out else e :: out
    end
  else e :: out.                                     (* real path element *)

(** The string held by the output buffer when the loop ends. *)
Definition render (rt : bool) (out : list string) : string :=
  if rt then "/" +:+ strings_Join (rev out)
  else match out with
       | [] => "."                                   (* turn empty string into "." *)
       | _ => strings_Join (rev out)
       end.

Definition clean_stack (p : string) : list string :=
  fold_left (clean_elem (rooted p)) (strings_Split p) [].

(** [path.Clean], read element by element: the elements between the
    slashes go through [clean_elem] in order. *)
Definition Clean_elements (p : string) : string :=
  if decide (p = "") then "." else render (rooted p) (clean_stack p).

(** [path.Clean] as the library writes it, byte by byte.

    The output buffer [out] holds the bytes written so far, the last one
    first; [out.w] is its length. ([lazybuf] shares the bytes of the input
    as long as the output repeats them; this changes no result.) *)

(** [r+k == n || path[r+k] == '/'], for the rest [p] of the path from [r+k]. *)
Definition end_or_slash (p : string) : bool :=
  match p with
  | EmptyString => true
  | String c _ => bool_decide (c = "/"%char)
  end.

Definition starts_with_dot (p : string) : bool :=
  match p with
  | EmptyString => false
  | String c _ => bool_decide (c = "."%char)
  end.

Definition tail (p : string) : string :=
  match p with
  | EmptyString => EmptyString
  | String _ p' => p'
  end.

(** [for out.w > dotdot && out.index(out.w) != '/' { out.w-- }], where
    [popped] is the byte at [out.w], the last one taken off. *)
Fixpoint unwind (popped : ascii) (out : list ascii) (dotdot : nat) : list ascii :=
  match out with
  | [] => []
  | b :: out' =>
      if (dotdot <? length out)%nat && negb (bool_decide (popped = "/"%char))
      then unwind b out' dotdot
      else out
  end.

(** [out.w--] and the loop above: remove to the last slash. *)
Definition backtrack (out : list ascii) (dotdot : nat) : list ascii :=
  match out with
  | [] => []
  | b :: out' => unwind b out' dotdot
  end.

(** [for ; r < n && path[r] != '/'; r++ { out.append(path[r]) }]: the rest of
    the path after the element, and the buffer. *)
Fixpoint copy_element (p : string) (out : list ascii) : string * list ascii :=
  match p with
  | EmptyString => (p, out)
  | String c p' =>
      if decide (c = "/"%char) then (p, out) else copy_element p' (c :: out)
  end.

(** The loop [for r < n { switch ... }] on the rest [p] of the path from
    [r], for at most [fuel] rounds. *)
Fixpoint clean_loop (fuel : nat) (rt : bool) (p : string) (out : list ascii) (dotdot : nat)
    : list ascii :=
  match fuel, p with
  | O, _ => out
  | _, EmptyString => out
  | S fuel', String c p1 =>
      if decide (c = "/"%char) then
        (* empty path element *)
        clean_loop fuel' rt p1 out dotdot
      else if bool_decide (c = "."%char) && end_or_slash p1 then
        (* . element *)
        clean_loop fuel' rt p1 out dotdot
      else if bool_decide (c = "."%char) && starts_with_dot p1 && end_or_slash (tail p1) then
        (* .. element: remove to last / *)
        let p2 := tail p1 in
        if (dotdot <? length out)%nat then
          (* can backtrack *)
          clean_loop fuel' rt p2 (backtrack out dotdot) dotdot
        else if negb rt then
          (* cannot backtrack, but not rooted, so append .. element *)
          let out := if (0 <? length out)%nat then "/"%char :: out else out in
          let out := "."%char :: "."%char :: out in
          clean_loop fuel' rt p2 out (length out)
        else clean_loop fuel' rt p2 out dotdot
      else
        (* real path element; add slash if needed *)
        let out :=
          if (rt && negb (length out =? 1)%nat) || (negb rt && negb (length out =? 0)%nat)
          then "/"%char :: out else out in
        (* copy element *)
        let '(p', out) := copy_element p out in
        clean_loop fuel' rt p' out dotdot
  end.

(** [path.Clean]. *)
Definition path_Clean (p : string) : string :=
  if decide (p = "") then "."
  else
    let rt := rooted p in
    let out :=
      if rt then clean_loop (String.length p) rt (tail p) ["/"%char] 1
      else clean_loop (String.length p) rt p [] 0 in
    (* Turn empty string into "." *)
    if (length out =? 0)%nat then "." else String.string_of_list_ascii (rev out).

Fixpoint drop_empty (elem : list string) : list string :=
  match elem with
  | e :: rest => if decide (e = "") then drop_empty rest else elem
  | [] => []
  end.

(** [path.Join]: the elements from the first non-empty one on are joined with
    slashes and the result is cleaned; no non-empty element gives [""]
    ([for i, e := range elem { if e != "" { return Clean(strings.Join(elem[i:], "/")) } }
    return ""]). *)
Definition path_Join (elem : list string) : string :=
  match drop_empty elem with
  | [] => ""
  | es => path_Clean (strings_Join es)
  end.


(** ** [fmt] and [time] *)

Definition digit (d : Z) : ascii := ascii_of_nat (48 + Z.to_nat d).

(** The digit loop of [fmt]'s integer formatting,
    [for u >= base { buf[i] = digit(u % base); u /= base }; buf[i] = digit(u)],
    run for at most [fuel] rounds. *)
Fixpoint digits (fuel : nat) (base u : Z) (buf : string) : string :=
  match fuel with
  | O => String (digit u) buf
  | S fuel' =>
      if decide (base ≤ u) then digits fuel' base (u / base) (String (digit (u mod base)) buf)
      else String (digit u) buf
  end.

Definition fmt_uint (base u : Z) : string := digits (Z.to_nat (Z.log2 u)) base u "".

(** [fmt.Sprintf("%d", u)] and [fmt.Sprintf("%o", u)] for an unsigned [u]. *)
Definition Sprintf_d (u : Z) : string := fmt_uint 10 u.
Definition Sprintf_o (u : Z) : string := fmt_uint 8 u.

Fixpoint zeros (n : nat) : string :=
  match n with O => "" | S n' => String "0"%char (zeros n') end.

(** [appendInt(b, x, width)] of package [time]: [x] in decimal, padded with
    zeros to [width] digits, behind a minus sign when [x] is negative. *)
Definition appendInt (x : Z) (width : nat) : string :=
  let ds := fmt_uint 10 (Z.abs x) in
  (if decide (x < 0) then "-" else "") +:+ zeros (width - String.length ds) +:+ ds.

(** A [time.Time] as [Format] reads it: the civil date and clock in the
    time's location, and the offset of that location in seconds east of UTC. *)
Record Time := {
  Year : Z; Month : Z; Day : Z;
  Hour : Z; Minute : Z; Second : Z;
  ZoneOffset : Z }.

(** [t.Format("2006-01-02 15:04:05 -0700")]. *)
Definition Time_Format (t : Time) : string :=
  let zone := Z.quot (ZoneOffset t) 60 in
  appendInt (Year t) 4 +:+ "-" +:+ appendInt (Month t) 2 +:+ "-" +:+ appendInt (Day t) 2
  +:+ " " +:+ appendInt (Hour t) 2 +:+ ":" +:+ appendInt (Minute t) 2
  +:+ ":" +:+ appendInt (Second t) 2 +:+ " "
  +:+ (if decide (zone < 0) then "-" else "+")
  +:+ appendInt (Z.quot (Z.abs zone) 60) 2 +:+ appendInt (Z.rem (Z.abs zone) 60) 2.

(** ** Errors, files, URLs: what the calls of the code exchange *)

(** A Go [error] value: one that implements [azblob.StorageError] and carries
    a service code, or any other. *)
Inductive error :=
  | StorageError (ServiceCode : string) (msg : string)
  | OtherError (msg : string).

(** [err.Error()]. *)
Definition Error (e : error) : string :=
  match e with StorageError _ msg => msg | OtherError msg => msg end.

(** [os.ErrInvalid]. *)
Definition os_ErrInvalid : error := OtherError "invalid argument".

Definition ServiceCodeBlobNotFound : string := "BlobNotFound".

(** A Go pair [(value, err)] of which one side is set. *)
Inductive result (A : Type) :=
  | Ok (a : A)
  | Err (e : error).
Arguments Ok {A} a.
Arguments Err {A} e.

(** The [err] of the pair, [nil] as [None]. *)
Definition err_of {A} (r : result A) : option error :=
  match r with Ok _ => None | Err e => Some e end.

(** The value of the pair, [nil] as [None]. *)
Definition val_of {A} (r : result A) : option A :=
  match r with Ok a => Some a | Err _ => None end.

(** An open [*os.File]. *)
Record File := { Name : string; Fd : Z }.

(** An [os.FileInfo] with the fields of its [*syscall.Stat_t] that the code
    reads. *)
Record FileInfo := {
  Size : Z;
  Mode : Z;
  ModTime : Time;
  Uid : Z;
  Gid : Z }.

(** The fields of a [url.URL] that the code and the store use: scheme,
    host, path, and the query with its question mark. *)
Record URL := { Scheme : string; Host : string; Path : string; Query : string }.

(** The string that the code formats for a URL, from the host, the path
    behind the first slash and the access token: with the formats
    ["https://%s.blob.core.windows.net/%s%s"] and
    ["https://%s.dfs.core.windows.net/%s/%s%s"] the host is the account with
    the name of the service behind it. *)
Definition Sprintf_url (host p sas : string) : string :=
  "https://" +:+ host +:+ "/" +:+ p +:+ sas.

(** The bytes that [net/url] neither gives a meaning nor escapes: letters,
    digits and [-], [.], [_], [~]. *)
Definition unreserved (c : ascii) : bool :=
  let n := nat_of_ascii c in
  ((48 <=? n) && (n <=? 57) || (65 <=? n) && (n <=? 90) || (97 <=? n) && (n <=? 122))%nat
  || bool_decide (c ∈ ["-"; "."; "_"; "~"]%char).

Fixpoint all_bytes (P : ascii → bool) (s : string) : bool :=
  match s with
  | EmptyString => true
  | String c s' => P c && all_bytes P s'
  end.

Definition path_byte (c : ascii) : bool := unreserved c || bool_decide (c = "/"%char).

Definition query_byte (c : ascii) : bool :=
  unreserved c || bool_decide (c ∈ ["="; "&"; "%"]%char).

(** The parts of a URL string that [url.Parse] takes as they are.  A plain
    host has no byte that ends the authority or is refused in it; a plain
    path has neither ['?'] nor ['#'], which would cut it, nor ['%'], which
    would be decoded or refused, nor a control byte, nor a byte that
    [String()] would escape; a plain query is empty, or a ['?'] and behind
    it neither ['#'] nor a control byte. *)
Definition plain_host (s : string) : bool := all_bytes unreserved s.

Definition plain_path (s : string) : bool := all_bytes path_byte s.

Definition plain_query (s : string) : bool :=
  match s with
  | EmptyString => true
  | String c s' => bool_decide (c = "?"%char) && all_bytes query_byte s'
  end.

(** [mkURL host p sas] is what [url.Parse] gives for
    [Sprintf_url host p sas] when the three parts are plain: nothing is cut,
    decoded or refused then.  On other strings [url.Parse] cuts the path at
    the first ['?'] or ['#'], decodes the escapes [%XX], and returns [nil]
    with an error for a ['%'] that two hex digits do not follow or for a
    control byte. *)
Definition mkURL (host p sas : string) : URL :=
  {| Scheme := "https"; Host := host; Path := "/" +:+ p; Query := sas |}.

(** What [url.Parse] returns for a string it accepts: the URL, and the text
    that [String()] gives for it (which depends on more of the [url.URL]
    than the four fields). *)
Record Parsed := { the_URL : URL; as_String : string }.

(** A [url.Parse], [nil] as [None], that takes plain strings as they are,
    and prints the result as it was given. *)
Definition takes_plain (url_Parse : string → option Parsed) : Prop :=
  ∀ host p sas,
    plain_host host = true → plain_path p = true → plain_query sas = true →
    url_Parse (Sprintf_url host p sas)
    = Some {| the_URL := mkURL host p sas; as_String := Sprintf_url host p sas |}.

Definition flat_host (account : string) : string := account +:+ ".blob.core.windows.net".
Definition dfs_host (account : string) : string := account +:+ ".dfs.core.windows.net".

Fixpoint last_byte (s : string) : option ascii :=
  match s with
  | EmptyString => None
  | String c EmptyString => Some c
  | String _ s' => last_byte s'
  end.

(** [appendToURLPath] of the blob SDK, behind [ContainerURL.NewBlockBlobURL]:
    a slash is added unless the path already ends in one, then the name. *)
Definition appendToURLPath (u : URL) (name : string) : URL :=
  let p := if decide (last_byte (Path u) = Some "/"%char) then Path u else Path u +:+ "/" in
  {| Scheme := Scheme u; Host := Host u; Path := p +:+ name; Query := Query u |}.

(** [azblob.Metadata] is a [map[string]string]. *)
Abbreviation Metadata := (gmap string string).

Record UploadToBlockBlobOptions := {
  opt_BlockSize : Z;
  opt_Parallelism : Z;
  opt_Metadata : Metadata }.

Inductive DeleteSnapshotsOptionType :=
  | DeleteSnapshotsOptionNone
  | DeleteSnapshotsOptionInclude
  | DeleteSnapshotsOptionOnly.

Inductive LogLevel := LogError | LogInfo.

(** ** Observable behaviour

    Every call that leaves the process is recorded with its arguments and
    its answer, tagged with the part of the code that issued it. *)
Inductive Site :=
  | Parents       (* archive.go, "1. Upload and perserve permissions and acl for parents" *)
  | TheFile       (* archive.go, "2. Upload the file" *)
  | TheBlob.      (* Remove *)

Inductive Call :=
  | OpenCall (name : string) (r : result File)
  | StatCall (f : File) (r : result FileInfo)
  | GetAccessControlCall (u : URL) (r : result string)
  | UploadCall (u : URL) (body : string) (meta : Metadata) (err : option error)
  | SetAccessControlCall (u : URL) (acl : string) (err : option error)
  | UploadFileCall (f : option File) (u : URL) (o : UploadToBlockBlobOptions) (err : option error)
  | DeleteCall (u : URL) (opt : DeleteSnapshotsOptionType) (err : option error).

Inductive Event :=
  | Log (level : LogLevel) (msg : string)
  | Do (s : Site) (c : Call).

(** The error a call answered with, if any. *)
Definition call_error (c : Call) : option error :=
  match c with
  | OpenCall _ r => err_of r
  | StatCall _ r => err_of r
  | GetAccessControlCall _ r => err_of r
  | UploadCall _ _ _ err => err
  | SetAccessControlCall _ _ err => err
  | UploadFileCall _ _ _ err => err
  | DeleteCall _ _ err => err
  end.

(** The error of a call of directory replication, if the event is one. *)
Definition parents_failure (ev : Event) : option error :=
  match ev with
  | Do Parents c => call_error c
  | _ => None
  end.

Definition is_file_event (ev : Event) : bool :=
  match ev with Do TheFile _ => true | _ => false end.

(** The error of the open or the stat of the source file, if the event is
    one of the two. *)
Definition source_failure (ev : Event) : option error :=
  match ev with
  | Do TheFile (OpenCall _ r) => err_of r
  | Do TheFile (StatCall _ r) => err_of r
  | _ => None
  end.

(** The event is a call that reads or writes an ACL, or a delete. *)
Definition is_acl_call (ev : Event) : bool :=
  match ev with
  | Do _ (GetAccessControlCall _ _) | Do _ (SetAccessControlCall _ _ _) => true
  | _ => false
  end.

Definition is_delete (ev : Event) : bool :=
  match ev with Do _ (DeleteCall _ _ _) => true | _ => false end.

Definition is_parents_event (ev : Event) : bool :=
  match ev with Do Parents _ => true | _ => false end.

(** The URL paths of the placeholder uploads of a trace, in order. *)
Definition placeholder_paths (tr : list (URL * gmap string string)) : list string :=
  map (λ x, Path x.1) tr.

(** The placeholder uploads of a trace, in order. *)
Fixpoint placeholder_uploads (tr : list Event) : list (URL * Metadata) :=
  match tr with
  | [] => []
  | Do Parents (UploadCall u _ meta _) :: tr' => (u, meta) :: placeholder_uploads tr'
  | _ :: tr' => placeholder_uploads tr'
  end.

(** [p] is a proper prefix of [q]. *)
Definition strict_prefix (p q : string) : Prop := ∃ s, s ≠ "" ∧ q = p +:+ s.

(** Every string of [l] is a proper prefix of the next one. *)
Fixpoint prefix_chain (l : list string) : Prop :=
  match l with
  | p :: (q :: _) as l' => strict_prefix p q ∧ prefix_chain l'
  | _ => True
  end.

(** A path element that [path.Clean] keeps as it is: not empty, neither
    ["."] nor [".."]. *)
Definition proper_name (e : string) : Prop := e ≠ "" ∧ e ≠ "." ∧ e ≠ "..".

(** ** The world outside: the filesystem and the object store

    Each operation answers from the state [W] of the world and may change
    it.  The pipeline that [Archive] and [Remove] build from the credential
    and the pacer is part of the store they talk to. *)
Record Backend (W : Type) := {
  os_Open : string → W → result File * W;
  File_Stat : File → W → result FileInfo * W;
  GetAccessControl : URL → W → result string * W;
  Upload : URL → string → Metadata → W → option error * W;
  SetAccessControl : URL → string → W → option error * W;
  UploadFileToBlockBlob : option File → URL → UploadToBlockBlobOptions → W → option error * W;
  Delete : URL → DeleteSnapshotsOptionType → W → option error * W }.
Arguments os_Open {W} _ _ _.
Arguments File_Stat {W} _ _ _.
Arguments GetAccessControl {W} _ _ _.
Arguments Upload {W} _ _ _ _ _.
Arguments SetAccessControl {W} _ _ _ _.
Arguments UploadFileToBlockBlob {W} _ _ _ _ _.
Arguments Delete {W} _ _ _ _.

(** ** A monad for a Go function body

    A computation runs in a world, emits events, and either goes on with a
    value, or leaves the function with [return total, err], or panics. *)
Inductive Res (A : Type) :=
  | Next (a : A)
  | Return (total : Z) (err : option error)
  | Panic (msg : string).
Arguments Next {A} a.
Arguments Return {A} total err.
Arguments Panic {A} msg.

Definition M (W A : Type) : Type := W → Res A * W * list Event.

Definition ret {W A} (a : A) : M W A := λ w, (Next a, w, []).

Definition bind {W A B} (m : M W A) (k : A → M W B) : M W B :=
  λ w, match m w with
       | (Next a, w1, t1) => let '(r, w2, t2) := k a w1 in (r, w2, t1 ++ t2)
       | (Return n e, w1, t1) => (Return n e, w1, t1)
       | (Panic s, w1, t1) => (Panic s, w1, t1)
       end.

Definition return_ {W A} (total : Z) (err : option error) : M W A :=
  λ w, (Return total err, w, []).

Definition panic {W A} (msg : string) : M W A := λ w, (Panic msg, w, []).

(** [util.Log(level, msg)]. *)
Definition util_Log {W} (level : LogLevel) (msg : string) : M W unit :=
  λ w, (Next tt, w, [Log level msg]).

(** A call of the backend, recorded. *)
Definition call {W A} (s : Site) (op : W → A * W) (ev : A → Call) : M W A :=
  λ w, let '(a, w1) := op w in (Next a, w1, [Do s (ev a)]).

Declare Scope go_scope.
Delimit Scope go_scope with go.
Notation "x ← y ; z" := (bind y (λ x : _, z))
  (at level 20, y at level 100, z at level 200, only parsing) : go_scope.
Notation "x ;; z" := (bind x (λ _, z))
  (at level 100, z at level 200, only parsing, right associativity) : go_scope.

(** What a Go function call ends with. *)
Inductive Outcome :=
  | Returned (total : Z) (err : option error)
  | Panicked (msg : string).

(** [err.(azblob.StorageError)]: the service code of the error and [ok]. *)
Definition as_StorageError (err : option error) : option string * bool :=
  match err with
  | Some (StorageError code _) => (Some code, true)
  | _ => (None, false)
  end.

(** A function body that cannot fall off its end returns or panics. *)
Definition outcome (r : Res Empty_set) : Outcome :=
  match r with
  | Next a => match a with end
  | Return total err => Returned total err
  | Panic msg => Panicked msg
  end.

(** The guard of the ACL fetch of a directory,
    [err != nil || ok && stgErr.ServiceCode() == azblob.ServiceCodeBlobNotFound]
    after [stgErr, ok := err.(azblob.StorageError)]; [&&] binds tighter than
    [||]. *)
Definition acl_fetch_failed (err : option error) : bool :=
  let '(stgErr, ok) := as_StorageError err in
  bool_decide (err ≠ None) || (ok && bool_decide (stgErr = Some ServiceCodeBlobNotFound)).

Definition nil_dereference : string := "invalid memory address or nil pointer dereference".

(** ** cmd/lhsm-plugin-az-core/archive.go *)
Module archive.
Section defs.
Context {W Cred Pace : Type}.

Record ArchiveOptions := {
  AccountName : string;
  ContainerName : string;
  ResourceSAS : string;
  MountRoot : string;
  BlobName : string;
  SourcePath : string;
  Credential : Cred;
  Parallelism : Z;
  BlockSize : Z;
  Pacer : Pace;
  ExportPrefix : string;
  HNSEnabled : bool }.

Variable B : Backend W.

Local Open Scope go_scope.

(** The body of the loop over the parents, after [u.Path] and [dirPath]
    have been extended by the current directory: [dirURL] is the copy of
    [u] taken at this point. *)
Definition parent (o : ArchiveOptions) (dirURL : URL) (dirPath : string) : M W unit :=
  (* Get owner, group and perms *)
  dir ← call Parents (os_Open B dirPath) (OpenCall dirPath);
  match dir with
  | Err err =>
      util_Log LogError ("Archiving " +:+ BlobName o +:+ ". Failed to get Access Control: " +:+ Error err) ;;
      return_ 0 (Some err)
  | Ok dir =>
  dirInfo ← call Parents (File_Stat B dir) (StatCall dir);
  match dirInfo with
  | Err err =>
      util_Log LogError ("Archiving " +:+ BlobName o +:+ ". Failed to get Access Control: " +:+ Error err) ;;
      return_ 0 (Some err)
  | Ok dirInfo =>
  let owner := Sprintf_d (Uid dirInfo) in
  let permissions := Sprintf_o (Mode dirInfo) in
  let group := Sprintf_d (Gid dirInfo) in
  let modTime := Time_Format (ModTime dirInfo) in
  acl ← (if HNSEnabled o then
           aclResp ← call Parents (GetAccessControl B dirURL) (GetAccessControlCall dirURL);
           let err := err_of aclResp in
           if acl_fetch_failed err then
             match err with
             | Some e =>
                 util_Log LogError ("Archiving " +:+ BlobName o +:+ ". Failed to get Access Control: " +:+ Error e) ;;
                 return_ 0 err
             | None => panic nil_dereference           (* err.Error() *)
             end
           else
             match aclResp with
             | Ok xMsACL => ret xMsACL
             | Err _ => panic nil_dereference          (* aclResp.XMsACL() *)
             end
         else ret "");
  let meta : Metadata := ∅ in
  let meta := <["hdi_isfolder" := "true"]> meta in
  let meta :=
    if negb (HNSEnabled o) then
      <["Group" := group]> (<["Owner" := owner]> (<["ModTime" := modTime]>
        (<["Permissions" := permissions]> meta)))
    else meta in
  err ← call Parents (Upload B dirURL "" meta) (UploadCall dirURL "" meta);
  match err with
  | Some e =>
      util_Log LogError ("Archiving " +:+ Path dirURL +:+ ". Failed to upload directory: " +:+ Error e) ;;
      return_ 0 err
  | None =>
  if HNSEnabled o then
    err ← call Parents (SetAccessControl B dirURL acl) (SetAccessControlCall dirURL acl);
    match err with
    | Some e =>
        util_Log LogError ("Archiving " +:+ Path dirURL +:+ ". Failed to get Access Control: " +:+ Error e) ;;
        return_ 0 err
    | None => ret tt
    end
  else ret tt
  end end end.

Definition set_Path (u : URL) (p : string) : URL :=
  {| Scheme := Scheme u; Host := Host u; Path := p; Query := Query u |}.

(** [for _, currDir := range parents { ... }], with the two variables the
    loop carries from one round to the next: the URL [u] and [dirPath]. *)
Fixpoint parents_loop (o : ArchiveOptions) (parents : list string)
    (u : URL) (dirPath : string) : M W unit :=
  match parents with
  | [] => ret tt
  | currDir :: parents' =>
      let u := set_Path u (path_Join [Path u; currDir]) in   (* keep appending path to the url *)
      let dirPath := path_Join [dirPath; currDir] in
      parent o u dirPath ;;
      parents_loop o parents' u dirPath
  end.

(** The options whose URL strings [url.Parse] takes as they are: the
    string of the container URL (archive.go 42) and, with the hierarchical
    namespace, the string of the blob on the namespace-aware service (132,
    158), the only one that holds the object name.  The URLs of [Archive]
    below are those of the code for these options.  For others the code
    may address a path that is cut or decoded, or panic on the [nil] of a
    refused string (43, 133, 159): a property that depends on it carries
    [url_plain] as a hypothesis. *)
Definition url_plain (o : ArchiveOptions) : bool :=
  plain_host (AccountName o) && plain_path (ContainerName o)
  && plain_query (ResourceSAS o)
  && (negb (HNSEnabled o) || plain_path (BlobName o)).

(** The URL of the namespace-aware service for the blob. *)
Definition dfsURL (o : ArchiveOptions) : URL :=
  mkURL (dfs_host (AccountName o)) (ContainerName o +:+ "/" +:+ BlobName o) (ResourceSAS o).

(** "2. Upload the file". *)
Definition the_file (o : ArchiveOptions) (blobURL : URL) : M W Empty_set :=
  (* open the file to read from; both errors are dropped *)
  r ← call TheFile (os_Open B (SourcePath o)) (OpenCall (SourcePath o));
  let file := val_of r in
  fileInfo ← match file with
             | Some f => r ← call TheFile (File_Stat B f) (StatCall f); ret (val_of r)
             | None => ret None                  (* Stat of a nil *File: (nil, ErrInvalid) *)
             end;
  match fileInfo with
  | None => panic nil_dereference                  (* fileInfo.Size() *)
  | Some fileInfo =>
  (* Save owner, perm, group and acl info *)
  let total := Size fileInfo in
  let meta : Metadata := ∅ in
  let owner := Sprintf_d (Uid fileInfo) in
  let permissions := Sprintf_o (Mode fileInfo) in
  let group := Sprintf_d (Gid fileInfo) in
  let modTime := Time_Format (ModTime fileInfo) in
  let meta :=
    <["Group" := group]> (<["Owner" := owner]> (<["ModTime" := modTime]>
      (<["Permissions" := permissions]> meta))) in
  acl ← (if HNSEnabled o then
           aclResp ← call TheFile (GetAccessControl B (dfsURL o)) (GetAccessControlCall (dfsURL o));
           match aclResp with
           | Err err =>
               util_Log LogError ("Archiving " +:+ BlobName o +:+ ". Failed to get Access Control: " +:+ Error err) ;;
               return_ 0 (Some err)
           | Ok xMsACL => ret xMsACL
           end
         else ret "");
  let opts := {| opt_BlockSize := BlockSize o;
                 opt_Parallelism := Parallelism o;
                 opt_Metadata := meta |} in
  err ← call TheFile (UploadFileToBlockBlob B file blobURL opts) (UploadFileCall file blobURL opts);
  match err with
  | Some e =>
      util_Log LogError ("Archiving " +:+ BlobName o +:+ ". Failed to upload blob: " +:+ Error e) ;;
      return_ 0 err
  | None =>
  err ← (if HNSEnabled o then
           err ← call TheFile (SetAccessControl B (dfsURL o) acl) (SetAccessControlCall (dfsURL o) acl);
           match err with
           | Some e =>
               util_Log LogError ("Archiving " +:+ BlobName o +:+ ". Failed to set AccessControl: " +:+ Error e)
               (* TODO: should we delete blob? *)
           | None => ret tt
           end ;;
           ret err
         else ret err);
  return_ total err
  end end.

Definition Archive_body (o : ArchiveOptions) : M W Empty_set :=
  (* Get the blob URL *)
  let cURL := mkURL (flat_host (AccountName o)) (ContainerName o) (ResourceSAS o) in
  let blobURL := appendToURLPath cURL (BlobName o) in
  util_Log LogInfo ("Archiving " +:+ BlobName o) ;;
  (* 1. Upload and perserve permissions and acl for parents *)
  let parents := strings_Split (BlobName o) in
  let parents := removelast parents in
  parents_loop o parents cURL (MountRoot o) ;;
  (* 2. Upload the file *)
  the_file o blobURL.

(** [Archive]: the outcome, the world it leaves, and the calls it made.
    The deferred [cancel()] and [Close()] calls reach neither the store nor
    the result and are left out. *)
Definition Archive (o : ArchiveOptions) (w : W) : Outcome * W * list Event :=
  let '(r, w', tr) := Archive_body o w in (outcome r, w', tr).

Definition set_ExportPrefix (prefix : string) (o : ArchiveOptions) : ArchiveOptions :=
  {| AccountName := AccountName o; ContainerName := ContainerName o;
     ResourceSAS := ResourceSAS o; MountRoot := MountRoot o; BlobName := BlobName o;
     SourcePath := SourcePath o; Credential := Credential o;
     Parallelism := Parallelism o; BlockSize := BlockSize o; Pacer := Pacer o;
     ExportPrefix := prefix; HNSEnabled := HNSEnabled o |}.

(** The URL paths that the loop over [parents] gives to its rounds,
    starting from the path [p]. *)
Fixpoint parent_paths (p : string) (parents : list string) : list string :=
  match parents with
  | [] => []
  | currDir :: parents' =>
      let p' := path_Join [p; currDir] in p' :: parent_paths p' parents'
  end.
End defs.
Arguments ArchiveOptions : clear implicits.
End archive.

(** ** cmd/lhsm-plugin-az-core: [Remove] *)
Module remove.
Section defs.
Context {W Cred : Type}.

Record RemoveOptions := {
  AccountName : string;
  ContainerName : string;
  ResourceSAS : string;
  BlobName : string;
  ExportPrefix : string;
  Credential : Cred }.

(** [url.Parse] of [net/url], [nil] as [None]. *)
Variable url_Parse : string → option Parsed.
Variable B : Backend W.

Local Open Scope go_scope.

Definition blobPath (o : RemoveOptions) : string :=
  path_Join [ContainerName o; ExportPrefix o; BlobName o].

(** [Remove]; the value it goes on with is the returned [error].  The
    error of [url.Parse] is dropped: for a string that it refuses [u] is
    [nil], and [u.String()], evaluated for the log line, panics.  The
    access conditions of the delete are the empty ones. *)
Definition Remove (o : RemoveOptions) : M W (option error) :=
  match url_Parse (Sprintf_url (flat_host (AccountName o)) (blobPath o) (ResourceSAS o)) with
  | None => panic nil_dereference                  (* u.String() *)
  | Some parsed =>
      let u := the_URL parsed in
      util_Log LogInfo ("Removing " +:+ as_String parsed +:+ ".") ;;
      err ← call TheBlob (Delete B u DeleteSnapshotsOptionInclude)
                         (DeleteCall u DeleteSnapshotsOptionInclude);
      ret err
  end.
End defs.
Arguments RemoveOptions : clear implicits.
End remove.

(** ** cmd/lhsm-plugin-noop/main.go *)
Module noop.
Record Mover := { fsName : string; archiveID : Z }.

(** The methods have pointer receivers: each is given the mover it is
    called on and gives back its answer and the mover it leaves. *)
Definition FsName (m : Mover) : string * Mover := (fsName m, m).

Definition ArchiveID (m : Mover) : Z * Mover := (archiveID m, m).

(** The conversion [uint32(x)] of an unsigned [x]. *)
Definition uint32 (x : Z) : Z := x mod 2 ^ 32.

(** The mover that [noop] registers, for the value of the flag [archive]. *)
Definition noop_mover (archive : Z) : Mover :=
  {| fsName := "noop"; archiveID := uint32 archive |}.

(** The operations of a mover, and a client that calls them in any order. *)
Inductive Method := CallFsName | CallArchiveID.

Inductive Answer := AString (s : string) | AUint32 (n : Z).

Definition invoke (c : Method) (m : Mover) : Answer * Mover :=
  match c with
  | CallFsName => let '(s, m') := FsName m in (AString s, m')
  | CallArchiveID => let '(n, m') := ArchiveID m in (AUint32 n, m')
  end.

Fixpoint invoke_all (cs : list Method) (m : Mover) : list Answer * Mover :=
  match cs with
  | [] => ([], m)
  | c :: cs' =>
      let '(a, m1) := invoke c m in
      let '(rest, m2) := invoke_all cs' m1 in
      (a :: rest, m2)
  end.

(** The answer a method gives on a mover built from [fs] and [id]. *)
Definition expected (fs : string) (id : Z) (c : Method) : Answer :=
  match c with CallFsName => AString fs | CallArchiveID => AUint32 id end.
End noop.

(** ** A small world to run the code in

    An in-memory object store keyed by URL path, where both services see the
    same objects, and a filesystem given by two tables.  [faults] makes
    chosen requests of the store fail. *)
Module sim.
Record StoredObject := { obj_meta : Metadata; obj_acl : string }.

Abbreviation Store := (gmap string StoredObject).

Inductive Request :=
  | RGetAccessControl (u : URL)
  | RUpload (u : URL)
  | RSetAccessControl (u : URL)
  | RUploadFile (u : URL)
  | RDelete (u : URL).

Record Fixture := {
  fx_open : string → result File;
  fx_stat : File → result FileInfo;
  faults : Request → option error }.

Definition not_found : error :=
  StorageError ServiceCodeBlobNotFound "The specified blob does not exist.".

Definition acl_of (w : Store) (u : URL) : string :=
  match w !! Path u with Some ob => obj_acl ob | None => "" end.

Definition backend (fx : Fixture) : Backend Store := {|
  os_Open name w := (fx_open fx name, w);
  File_Stat f w := (fx_stat fx f, w);
  GetAccessControl u w :=
    match faults fx (RGetAccessControl u) with
    | Some e => (Err e, w)
    | None =>
        match w !! Path u with
        | Some ob => (Ok (obj_acl ob), w)
        | None => (Err not_found, w)
        end
    end;
  Upload u body meta w :=
    match faults fx (RUpload u) with
    | Some e => (Some e, w)
    | None => (None, <[Path u := {| obj_meta := meta; obj_acl := acl_of w u |}]> w)
    end;
  SetAccessControl u acl w :=
    match faults fx (RSetAccessControl u) with
    | Some e => (Some e, w)
    | None =>
        match w !! Path u with
        | Some ob => (None, <[Path u := {| obj_meta := obj_meta ob; obj_acl := acl |}]> w)
        | None => (Some not_found, w)
        end
    end;
  UploadFileToBlockBlob f u o w :=
    match faults fx (RUploadFile u) with
    | Some e => (Some e, w)
    | None => (None, <[Path u := {| obj_meta := opt_Metadata o; obj_acl := acl_of w u |}]> w)
    end;
  Delete u opt w :=
    match faults fx (RDelete u) with
    | Some e => (Some e, w)
    | None =>
        match w !! Path u with
        | Some _ => (None, delete (Path u) w)
        | None => (Some not_found, w)
        end
    end |}.

Definition mtime : Time :=
  {| Year := 2021; Month := 3; Day := 9; Hour := 14; Minute := 5; Second := 7;
     ZoneOffset := -25200 |}.

(** drwxr-xr-x 1000:100 and -rw-r--r-- 1000:100, 4096 bytes. *)
Definition dir_info : FileInfo :=
  {| Size := 4096; Mode := 2 ^ 31 + 493; ModTime := mtime; Uid := 1000; Gid := 100 |}.
Definition file_info : FileInfo :=
  {| Size := 4096; Mode := 420; ModTime := mtime; Uid := 1000; Gid := 100 |}.

(** A filesystem in which every path opens; the paths in [files] are
    regular files, the others directories. *)
Definition posix (files : list string) (fs : Request → option error) : Fixture := {|
  fx_open name := Ok {| Name := name; Fd := 3 |};
  fx_stat f := Ok (if bool_decide (Name f ∈ files) then file_info else dir_info);
  faults := fs |}.

Definition no_faults : Request → option error := λ _, None.

(** The same filesystem, except that [bad] cannot be opened. *)
Definition unreadable (bad : string) (files : list string) : Fixture := {|
  fx_open name :=
    if bool_decide (name = bad) then Err (OtherError ("open " +:+ bad +:+ ": permission denied"))
    else Ok {| Name := name; Fd := 3 |};
  fx_stat f := Ok (if bool_decide (Name f ∈ files) then file_info else dir_info);
  faults := no_faults |}.

(** The placeholder upload to the path [p] is refused. *)
Definition upload_refused (p : string) : Request → option error :=
  λ r, match r with
       | RUpload u => if bool_decide (Path u = p) then Some (OtherError "503 Server Busy") else None
       | _ => None
       end.

(** Writes of an ACL through the host [h] time out. *)
Definition acl_write_times_out (h : string) : Request → option error :=
  λ r, match r with
       | RSetAccessControl u =>
           if bool_decide (Host u = h) then Some (OtherError "context deadline exceeded") else None
       | _ => None
       end.

Definition dir_object (acl : string) : StoredObject :=
  {| obj_meta := {["hdi_isfolder" := "true"]}; obj_acl := acl |}.

Definition file_object (acl : string) : StoredObject :=
  {| obj_meta := ∅; obj_acl := acl |}.

(** A store that already holds the directory [/c/a] and the blob
    [/c/a/f], from an earlier archive. *)
Definition archived_before : Store :=
  {[ "/c/a" := dir_object "user::rwx,group::r-x,other::---";
     "/c/a/f" := file_object "user::rw-,group::r--,other::---" ]}.

(** A [url.Parse] for the examples.  Of ["https://" host path query] it
    cuts the fragment at the first ['#'], the query at the first ['?'] and
    the host at the first ['/'], and decodes the escapes of the path.  It
    refuses a control byte, a ['%'] of the path or of the fragment that
    two hex digits do not follow, and, short of [url.Parse], every host
    that is not plain and every other scheme.  The text of [String()] is
    taken to be the string parsed, as it is for plain strings. *)
Fixpoint cut_at (c : ascii) (s : string) : string * string :=
  match s with
  | EmptyString => (EmptyString, EmptyString)
  | String x s' =>
      if decide (x = c) then (EmptyString, s)
      else let '(l, r) := cut_at c s' in (String x l, r)
  end.

Fixpoint strip_prefix (p s : string) : option string :=
  match p, s with
  | EmptyString, _ => Some s
  | String a p', String b s' => if decide (a = b) then strip_prefix p' s' else None
  | String _ _, EmptyString => None
  end.

Definition unhex (c : ascii) : option nat :=
  let n := nat_of_ascii c in
  if ((48 <=? n) && (n <=? 57))%nat then Some (n - 48)%nat
  else if ((97 <=? n) && (n <=? 102))%nat then Some (n - 87)%nat
  else if ((65 <=? n) && (n <=? 70))%nat then Some (n - 55)%nat
  else None.

Fixpoint unescape (s : string) : option string :=
  match s with
  | EmptyString => Some EmptyString
  | String c s' =>
      if decide (c = "%"%char) then
        match s' with
        | String a (String b s'') =>
            match unhex a, unhex b with
            | Some x, Some y =>
                option_map (String (ascii_of_nat (16 * x + y))) (unescape s'')
            | _, _ => None
            end
        | _ => None
        end
      else option_map (String c) (unescape s')
  end.

Definition is_CTL (c : ascii) : bool :=
  let n := nat_of_ascii c in ((n <? 32) || (n =? 127))%nat.

Definition url_Parse (s : string) : option Parsed :=
  let '(s1, frag) := cut_at "#" s in
  if negb (all_bytes (λ c, negb (is_CTL c)) s1) then None else
  match strip_prefix "https://" s1 with
  | None => None
  | Some rest =>
      let '(before, query) := cut_at "?" rest in
      let '(host, p) := cut_at "/" before in
      if negb (plain_host host) then None else
      match unescape p, unescape frag with
      | Some p', Some _ =>
          Some {| the_URL := {| Scheme := "https"; Host := host; Path := p'; Query := query |};
                  as_String := s |}
      | _, _ => None
      end
  end.

Definition options (blob prefix : string) (hns : bool) : archive.ArchiveOptions unit unit := {|
  archive.AccountName := "acct";
  archive.ContainerName := "c";
  archive.ResourceSAS := "?sv=2020&sig=x";
  archive.MountRoot := "/mnt/fs";
  archive.BlobName := blob;
  archive.SourcePath := "/mnt/fs/" +:+ blob;
  archive.Credential := tt;
  archive.Parallelism := 4;
  archive.BlockSize := 1048576;
  archive.Pacer := tt;
  archive.ExportPrefix := prefix;
  archive.HNSEnabled := hns |}.

Definition remove_options (blob prefix : string) : remove.RemoveOptions unit := {|
  remove.AccountName := "acct";
  remove.ContainerName := "c";
  remove.ResourceSAS := "?sv=2020&sig=x";
  remove.BlobName := blob;
  remove.ExportPrefix := prefix;
  remove.Credential := tt |}.

(** The outcome and the calls of an [Archive] run. *)
Definition run_Archive (fx : Fixture) (o : archive.ArchiveOptions unit unit) (w : Store)
    : Outcome * list Event :=
  let '(out, _, tr) := archive.Archive (backend fx) o w in (out, tr).

(** The URL paths of the uploads of a trace, placeholders and content. *)
Fixpoint upload_paths (tr : list Event) : list string :=
  match tr with
  | [] => []
  | Do _ (UploadCall u _ _ _) :: tr' => Path u :: upload_paths tr'
  | Do _ (UploadFileCall _ u _ _) :: tr' => Path u :: upload_paths tr'
  | _ :: tr' => upload_paths tr'
  end.

Fixpoint delete_paths (tr : list Event) : list string :=
  match tr with
  | [] => []
  | Do _ (DeleteCall u _ _) :: tr' => Path u :: delete_paths tr'
  | _ :: tr' => delete_paths tr'
  end.
End sim.

(** ** Notions used in the proofs *)

(** The path element at the start of [p], and the rest of [p] behind it. *)
Fixpoint first_elem (p : string) : string :=
  match p with
  | EmptyString => EmptyString
  | String c p' => if decide (c = "/"%char) then EmptyString else String c (first_elem p')
  end.

Fixpoint after_elem (p : string) : string :=
  match p with
  | EmptyString => EmptyString
  | String c p' => if decide (c = "/"%char) then p else after_elem p'
  end.

Abbreviation bytes := String.list_ascii_of_string.

(** The bytes of the output buffer that holds the elements [out], the last
    byte first, and the index [dotdot] that goes with it. *)
Fixpoint buffer (rt : bool) (out : list string) : list ascii :=
  match out with
  | [] => if rt then ["/"%char] else []
  | e :: out' =>
      rev (bytes e) ++ match out' with [] => [] | _ => ["/"%char] end ++ buffer rt out'
  end.

Fixpoint dotdot_of (rt : bool) (out : list string) : nat :=
  match out with
  | [] => length (buffer rt [])
  | e :: out' => if decide (e = "..") then length (buffer rt out) else dotdot_of rt out'
  end.

(** The output buffer of [path.Clean] at any point of its loop: elements
    that are not empty, not ["."] and free of slashes, with the [".."]
    elements at the bottom, and none of them in a rooted path. *)
Fixpoint clean_buffer (rt : bool) (out : list string) : Prop :=
  match out with
  | [] => True
  | e :: out' =>
      e ≠ "" ∧ e ≠ "." ∧ has_sep e = false
      ∧ (e = ".." → rt = false ∧ match out' with [] => True | t :: _ => t = ".." end)
      ∧ clean_buffer rt out'
  end.

(** [m] holds exactly the four generic keys, with the values of the stat
    fields of [info]: the mode in octal, the formatted modification time, the
    user and group ids in decimal. *)
Definition four_keys (m : gmap string string) (info : FileInfo) : Prop :=
  dom m = ({["Permissions"; "ModTime"; "Owner"; "Group"]} : gset string)
  ∧ m !! "Permissions" = Some (Sprintf_o (Mode info))
  ∧ m !! "ModTime" = Some (Time_Format (ModTime info))
  ∧ m !! "Owner" = Some (Sprintf_d (Uid info))
  ∧ m !! "Group" = Some (Sprintf_d (Gid info)).

(** Every placeholder upload of the trace that succeeded is followed at once
    by an event that [P] accepts for its URL. *)
Fixpoint followed_by (P : URL → Event → Prop) (tr : list Event) : Prop :=
  match tr with
  | [] => True
  | Do Parents (UploadCall u _ _ None) :: tr' =>
      match tr' with next :: _ => P u next | [] => False end ∧ followed_by P tr'
  | _ :: tr' => followed_by P tr'
  end.

(** The event is the write of an ACL to the URL [u], which is on [host]. *)
Definition acl_write_on (host : string) (u : URL) (ev : Event) : Prop :=
  Host u = host ∧ ∃ acl err, ev = Do Parents (SetAccessControlCall u acl err).

(** The calls of a trace, in order. *)
Fixpoint calls (tr : list Event) : list Call :=
  match tr with
  | [] => []
  | Do _ c :: tr' => c :: calls tr'
  | Log _ _ :: tr' => calls tr'
  end.

(** No call of directory replication in the trace failed. *)
Definition quiet (tr : list Event) : Prop := Forall (λ ev, parents_failure ev = None) tr.

(** The runs of [Archive], as relations between what a part of the code
    ends with and the events it emits.  They are proved to cover the
    functions above; the log texts are left open. *)
Module runs.
Section defs.
Context {Cred Pace : Type}.
Import archive.

Variable o : ArchiveOptions Cred Pace.

(** The metadata of a directory placeholder. *)
Definition dir_metadata (dirInfo : FileInfo) : Metadata :=
  if HNSEnabled o then <["hdi_isfolder" := "true"]> ∅
  else <["Group" := Sprintf_d (Gid dirInfo)]> (<["Owner" := Sprintf_d (Uid dirInfo)]>
         (<["ModTime" := Time_Format (ModTime dirInfo)]>
           (<["Permissions" := Sprintf_o (Mode dirInfo)]> (<["hdi_isfolder" := "true"]> ∅)))).

(** The metadata of the content object. *)
Definition file_metadata (fileInfo : FileInfo) : Metadata :=
  <["Group" := Sprintf_d (Gid fileInfo)]> (<["Owner" := Sprintf_d (Uid fileInfo)]>
    (<["ModTime" := Time_Format (ModTime fileInfo)]>
      (<["Permissions" := Sprintf_o (Mode fileInfo)]> ∅))).

Definition file_options (fileInfo : FileInfo) : UploadToBlockBlobOptions :=
  {| opt_BlockSize := BlockSize o;
     opt_Parallelism := Parallelism o;
     opt_Metadata := file_metadata fileInfo |}.

(** The calls of one round of the loop up to the placeholder upload, when
    none of them fails: open, stat and, with the hierarchical namespace,
    the fetch of the ACL. *)
Definition parent_calls (dirURL : URL) (dirPath : string)
    (dir : File) (dirInfo : FileInfo) (acl : string) : list Event :=
  [Do Parents (OpenCall dirPath (Ok dir)); Do Parents (StatCall dir (Ok dirInfo))]
  ++ (if HNSEnabled o then [Do Parents (GetAccessControlCall dirURL (Ok acl))] else []).

Inductive parent_run (dirURL : URL) (dirPath : string) : Res unit → list Event → Prop :=
  | open_fails e msg :
      parent_run dirURL dirPath (Return 0 (Some e))
        [Do Parents (OpenCall dirPath (Err e)); Log LogError msg]
  | stat_fails dir e msg :
      parent_run dirURL dirPath (Return 0 (Some e))
        [Do Parents (OpenCall dirPath (Ok dir)); Do Parents (StatCall dir (Err e));
         Log LogError msg]
  | get_acl_fails dir dirInfo e msg :
      HNSEnabled o = true →
      parent_run dirURL dirPath (Return 0 (Some e))
        [Do Parents (OpenCall dirPath (Ok dir)); Do Parents (StatCall dir (Ok dirInfo));
         Do Parents (GetAccessControlCall dirURL (Err e)); Log LogError msg]
  | upload_fails dir dirInfo acl e msg :
      parent_run dirURL dirPath (Return 0 (Some e))
        (parent_calls dirURL dirPath dir dirInfo acl
         ++ [Do Parents (UploadCall dirURL "" (dir_metadata dirInfo) (Some e));
             Log LogError msg])
  | set_acl_fails dir dirInfo acl e msg :
      HNSEnabled o = true →
      parent_run dirURL dirPath (Return 0 (Some e))
        (parent_calls dirURL dirPath dir dirInfo acl
         ++ [Do Parents (UploadCall dirURL "" (dir_metadata dirInfo) None);
             Do Parents (SetAccessControlCall dirURL acl (Some e));
             Log LogError msg])
  | parent_done dir dirInfo acl :
      parent_run dirURL dirPath (Next tt)
        (parent_calls dirURL dirPath dir dirInfo acl
         ++ Do Parents (UploadCall dirURL "" (dir_metadata dirInfo) None)
            :: (if HNSEnabled o then [Do Parents (SetAccessControlCall dirURL acl None)]
                else [])).

Inductive loop_run : list string → URL → string → Res unit → list Event → Prop :=
  | loop_end u dirPath : loop_run [] u dirPath (Next tt) []
  | loop_stop currDir parents u dirPath total err tr :
      parent_run (set_Path u (path_Join [Path u; currDir])) (path_Join [dirPath; currDir])
        (Return total err) tr →
      loop_run (currDir :: parents) u dirPath (Return total err) tr
  | loop_next currDir parents u dirPath tr r tr' :
      parent_run (set_Path u (path_Join [Path u; currDir])) (path_Join [dirPath; currDir])
        (Next tt) tr →
      loop_run parents (set_Path u (path_Join [Path u; currDir]))
        (path_Join [dirPath; currDir]) r tr' →
      loop_run (currDir :: parents) u dirPath r (tr ++ tr').

(** The calls of the second part up to the content upload, when it is
    reached. *)
Definition file_calls (file : File) (fileInfo : FileInfo) (acl : string) : list Event :=
  [Do TheFile (OpenCall (SourcePath o) (Ok file)); Do TheFile (StatCall file (Ok fileInfo))]
  ++ (if HNSEnabled o then [Do TheFile (GetAccessControlCall (dfsURL o) (Ok acl))] else []).

Inductive file_run (blobURL : URL) : Outcome → list Event → Prop :=
  | source_open_fails e :
      file_run blobURL (Panicked nil_dereference)
        [Do TheFile (OpenCall (SourcePath o) (Err e))]
  | source_stat_fails file e :
      file_run blobURL (Panicked nil_dereference)
        [Do TheFile (OpenCall (SourcePath o) (Ok file)); Do TheFile (StatCall file (Err e))]
  | file_get_acl_fails file fileInfo e msg :
      HNSEnabled o = true →
      file_run blobURL (Returned 0 (Some e))
        [Do TheFile (OpenCall (SourcePath o) (Ok file));
         Do TheFile (StatCall file (Ok fileInfo));
         Do TheFile (GetAccessControlCall (dfsURL o) (Err e)); Log LogError msg]
  | file_upload_fails file fileInfo acl e msg :
      file_run blobURL (Returned 0 (Some e))
        (file_calls file fileInfo acl
         ++ [Do TheFile (UploadFileCall (Some file) blobURL (file_options fileInfo) (Some e));
             Log LogError msg])
  | file_done_flat file fileInfo acl :
      HNSEnabled o = false →
      file_run blobURL (Returned (Size fileInfo) None)
        (file_calls file fileInfo acl
         ++ [Do TheFile (UploadFileCall (Some file) blobURL (file_options fileInfo) None)])
  | file_done_hns file fileInfo acl :
      HNSEnabled o = true →
      file_run blobURL (Returned (Size fileInfo) None)
        (file_calls file fileInfo acl
         ++ [Do TheFile (UploadFileCall (Some file) blobURL (file_options fileInfo) None);
             Do TheFile (SetAccessControlCall (dfsURL o) acl None)])
  | file_set_acl_fails file fileInfo acl e msg :
      HNSEnabled o = true →
      file_run blobURL (Returned (Size fileInfo) (Some e))
        (file_calls file fileInfo acl
         ++ [Do TheFile (UploadFileCall (Some file) blobURL (file_options fileInfo) None);
             Do TheFile (SetAccessControlCall (dfsURL o) acl (Some e));
             Log LogError msg]).

Definition cURL : URL := mkURL (flat_host (AccountName o)) (ContainerName o) (ResourceSAS o).
Definition blobURL : URL := appendToURLPath cURL (BlobName o).
Definition parents : list string := removelast (strings_Split (BlobName o)).

Inductive archive_run : Outcome → list Event → Prop :=
  | replication_fails total err tr :
      loop_run parents cURL (MountRoot o) (Return total err) tr →
      archive_run (Returned total err) (Log LogInfo ("Archiving " +:+ BlobName o) :: tr)
  | replication_done tr out tr' :
      loop_run parents cURL (MountRoot o) (Next tt) tr →
      file_run blobURL out tr' →
      archive_run out (Log LogInfo ("Archiving " +:+ BlobName o) :: tr ++ tr').
End defs.
End runs.

(** ** Inputs for the examples *)
Module scenario.
Import sim.

(** The scenario of the specification: mount root [/mnt/fs], object name
    [a/b/file.txt], export prefix [export1], a flat container [c]. *)
Definition source : string := "/mnt/fs/a/b/file.txt".
Definition flat : archive.ArchiveOptions unit unit := options "a/b/file.txt" "export1" false.
Definition plain : Fixture := posix [source] no_faults.

(** The store refuses the second placeholder. *)
Definition busy : Fixture := posix [source] (upload_refused "/c/a/b").
Definition refused_upload : Event :=
  Do Parents (UploadCall (archive.set_Path (runs.cURL flat) "/c/a/b") ""
                (runs.dir_metadata flat dir_info) (Some (OtherError "503 Server Busy"))).

(** The source file cannot be opened. *)
Definition locked : Fixture := unreadable source [source].
Definition failed_open : Event :=
  Do TheFile (OpenCall source (Err (OtherError ("open " +:+ source +:+ ": permission denied")))).

(** The object [a/f] in a container with the hierarchical namespace. *)
Definition hns : archive.ArchiveOptions unit unit := options "a/f" "" true.
Definition plain_hns : Fixture := posix ["/mnt/fs/a/f"] no_faults.

(** The write of the ACL of the file times out. *)
Definition slow_acl : Fixture :=
  posix ["/mnt/fs/a/f"] (acl_write_times_out "acct.dfs.core.windows.net").
Definition failed_acl_write : Event :=
  Do TheFile (SetAccessControlCall (archive.dfsURL hns) "user::rw-,group::r--,other::---"
                (Some (OtherError "context deadline exceeded"))).
Definition content_upload : Event :=
  Do TheFile (UploadFileCall (Some {| Name := "/mnt/fs/a/f"; Fd := 3 |}) (runs.blobURL hns)
                (runs.file_options hns file_info) None).

(** The store refuses the content. *)
Definition content_refused : Fixture :=
  posix [source] (λ r, match r with
                       | RUploadFile _ => Some (OtherError "507 Insufficient Storage")
                       | _ => None
                       end).
Definition refused_content : Event :=
  Do TheFile (UploadFileCall (Some {| Name := source; Fd := 3 |}) (runs.blobURL flat)
                (runs.file_options flat file_info)
                (Some (OtherError "507 Insufficient Storage"))).

(** An object name with an empty segment. *)
Definition double_slash : archive.ArchiveOptions unit unit := options "a//f" "" false.
End scenario.

(** ** The claims that the code does not meet, as the specification words
    them, at one input *)
Module stated.
Section defs.
Context {W Cred Pace : Type} (B : Backend W).
Import archive.
Variables (o : ArchiveOptions Cred Pace) (w : W).

(** Exactly [k] placeholder uploads for [k] separators, the path of each
    a proper prefix of the path of the next. *)
Definition k_uploads_in_prefix_order : Prop :=
  let paths := placeholder_paths (placeholder_uploads (Archive B o w).2) in
  length paths = strings_Count (BlobName o) ∧ prefix_chain paths.

(** With the hierarchical namespace, a content upload that succeeded and a
    write of the ACL after it that failed give the byte count and a nil
    error. *)
Definition acl_failure_swallowed : Prop :=
  ∀ u acl e,
    HNSEnabled o = true →
    (∃ f u' opts, Do TheFile (UploadFileCall f u' opts None) ∈ (Archive B o w).2) →
    Do TheFile (SetAccessControlCall u acl (Some e)) ∈ (Archive B o w).2 →
    ∃ total, (Archive B o w).1.1 = Returned total None.

(** The four keys on the content in flat mode; with the hierarchical
    namespace the indicator alone on the placeholders, and every write of
    an ACL of the directory part addressed to the namespace-aware
    service. *)
Definition metadata_and_acl_endpoint : Prop :=
  let tr := (Archive B o w).2 in
  (HNSEnabled o = false →
     ∀ f u opts err, Do TheFile (UploadFileCall f u opts err) ∈ tr →
       ∃ file info, f = Some file ∧ Do TheFile (StatCall file (Ok info)) ∈ tr
                    ∧ four_keys (opt_Metadata opts) info)
  ∧ (HNSEnabled o = true →
       (∀ x, x ∈ placeholder_uploads tr → x.2 = {["hdi_isfolder" := "true"]})
       ∧ ∀ u acl err, Do Parents (SetAccessControlCall u acl err) ∈ tr →
           Host u = dfs_host (AccountName o)).
End defs.

Section remove.
Context {W Cred : Type} (url_Parse : string → option Parsed) (B : Backend W).
Variables (o : remove.RemoveOptions Cred) (w : W).

(** [Remove] makes one call of the store, a delete that asks for the
    snapshots to be included, and returns the error of that call. *)
Definition one_delete : Prop :=
  ∃ u err,
    (remove.Remove url_Parse B o w).1.1 = Next err
    ∧ calls (remove.Remove url_Parse B o w).2
      = [DeleteCall u DeleteSnapshotsOptionInclude err].
End remove.
End stated.

(** ** Proof automation *)

(** Case analysis on the answer of the next call of the backend. *)
Ltac answer :=
  match goal with
  | |- context [os_Open ?B ?p ?w] => destruct (os_Open B p w) as [[?|?] ?]
  | |- context [File_Stat ?B ?f ?w] => destruct (File_Stat B f w) as [[?|?] ?]
  | |- context [GetAccessControl ?B ?u ?w] => destruct (GetAccessControl B u w) as [[?|?] ?]
  | |- context [Upload ?B ?u ?b ?m ?w] => destruct (Upload B u b m w) as [[?|] ?]
  | |- context [SetAccessControl ?B ?u ?a ?w] =>
      destruct (SetAccessControl B u a w) as [[?|] ?]
  | |- context [UploadFileToBlockBlob ?B ?f ?u ?x ?w] =>
      destruct (UploadFileToBlockBlob B f u x w) as [[?|] ?]
  | |- context [match ?e with StorageError _ _ => _ | OtherError _ => _ end] =>
      is_var e; destruct e
  end; simpl.

Ltac close := repeat split; try done; unfold quiet; by repeat constructor.

(** The cases of a membership [H : ev ∈ l] in a list given by its elements. *)
Ltac members H :=
  repeat first
    [ apply elem_of_nil in H; destruct H
    | let E := fresh "E" in
      apply elem_of_cons in H as [E|H]; [try discriminate E; try subst|]
    | apply elem_of_app in H as [H|H] ].

(** The element is one of a list given by its elements. *)
Ltac listed := repeat first [by apply list_elem_of_here | apply list_elem_of_further].

(** An event of the trace of a run that computes. *)
Ltac find_event :=
  vm_compute; repeat first [apply list_elem_of_here | apply list_elem_of_further].

(** ** More notions for the traces of [Archive] *)

(** The error of a call, whichever part of the code issued it. *)
Definition failure (ev : Event) : option error :=
  match ev with
  | Do _ c => call_error c
  | Log _ _ => None
  end.

Definition is_error_log (ev : Event) : bool :=
  match ev with Log LogError _ => true | _ => false end.

(** The call sends a body to the store. *)
Definition is_upload (c : Call) : bool :=
  match c with
  | UploadCall _ _ _ _ | UploadFileCall _ _ _ _ => true
  | _ => false
  end.

Definition is_content_upload (ev : Event) : bool :=
  match ev with Do _ (UploadFileCall _ _ _ _) => true | _ => false end.

(** [Q pre ev] holds of every event [ev] of the trace and the events [pre]
    before it. *)
Definition at_each (Q : list Event → Event → Prop) (tr : list Event) : Prop :=
  ∀ pre ev post, tr = pre ++ ev :: post → Q pre ev.

(** [Q] looks at the end of the events before only. *)
Definition local (Q : list Event → Event → Prop) : Prop :=
  ∀ t pre ev, Q pre ev → Q (t ++ pre) ev.

(** A write of an ACL comes two events after the fetch of that ACL from the
    same URL by the same part of the code, with an upload that succeeded in
    between. *)
Definition copies_acl (pre : list Event) (ev : Event) : Prop :=
  ∀ s u acl err, ev = Do s (SetAccessControlCall u acl err) →
    ∃ pre' up, pre = pre' ++ [Do s (GetAccessControlCall u (Ok acl)); Do s up]
               ∧ is_upload up = true ∧ call_error up = None.

(** The event is neither a call that failed nor a log of an error. *)
Definition calm (ev : Event) : Prop := failure ev = None ∧ is_error_log ev = false.

(** The cases of a decomposition [E : l = pre ++ ev :: post] of a list given
    by its elements. *)
Ltac positions pre E :=
  repeat (destruct pre as [|? pre]; simpl in E;
          [ first [discriminate E | injection E as <- <-]
          | first [discriminate E | injection E as <- E] ]).

(** ** More inputs for the examples *)
Module cases.
Import sim.

(** The object [f], at the top of a container with the hierarchical
    namespace that does not hold it yet. *)
Definition first_time : archive.ArchiveOptions unit unit := options "f" "" true.
Definition top_level : Fixture := posix ["/mnt/fs/f"] no_faults.
Definition failed_fetch : Event :=
  Do TheFile (GetAccessControlCall (archive.dfsURL first_time) (Err not_found)).

(** The write of the ACL of the file [a/f], which the store holds. *)
Definition acl_write : Event :=
  Do TheFile (SetAccessControlCall (archive.dfsURL scenario.hns)
                "user::rw-,group::r--,other::---" None).

(** The placeholder of [a/b] in the scenario of the specification. *)
Definition second_placeholder : Event :=
  Do Parents (UploadCall (archive.set_Path (runs.cURL scenario.flat) "/c/a/b") ""
                (runs.dir_metadata scenario.flat dir_info) None).

(** The scenario of the specification without an export prefix. *)
Definition no_prefix : archive.ArchiveOptions unit unit := options "a/b/file.txt" "" false.
Definition no_prefix_remove : remove.RemoveOptions unit := remove_options "a/b/file.txt" "".
Definition content : Event :=
  Do TheFile (UploadFileCall (Some {| Name := scenario.source; Fd := 3 |})
                (runs.blobURL no_prefix) (runs.file_options no_prefix file_info) None).

(** The object [a/f] in a container given with a slash behind its
    name. *)
Definition trailing_slash : archive.ArchiveOptions unit unit := {|
  archive.AccountName := "acct";
  archive.ContainerName := "c/";
  archive.ResourceSAS := "?sv=2020&sig=x";
  archive.MountRoot := "/mnt/fs";
  archive.BlobName := "a/f";
  archive.SourcePath := "/mnt/fs/a/f";
  archive.Credential := tt;
  archive.Parallelism := 4;
  archive.BlockSize := 1048576;
  archive.Pacer := tt;
  archive.ExportPrefix := "";
  archive.HNSEnabled := true |}.

(** The delete of [Remove], on a store that does not hold the blob. *)
Definition deleted : Event :=
  Do TheBlob (DeleteCall (runs.blobURL no_prefix) DeleteSnapshotsOptionInclude
                (Some not_found)).
End cases.

(** ** The [hsm] commands of [lfs] (the second file under
    cmd/lhsm-plugin-noop/main.go) *)
Module lfs.

(** *** [getFilePaths] *)

(** The error that ends the input: [io.EOF], or a failure of the read. *)
Inductive read_error :=
  | io_EOF
  | read_failed (e : error).

(** What the [bufio.Reader] on [os.Stdin] has to deliver: the bytes that
    are left, and the error that comes behind them. *)
Record Reader := { unread : string; ending : read_error }.

Definition NUL : ascii := Ascii.zero.

(** The bytes up to and including the first [delim], [nil] as the error
    and the bytes behind; without a [delim], all the bytes and the error
    that ends the input. *)
Fixpoint read_bytes (delim : ascii) (s : string) (e : read_error)
    : string * option read_error * string :=
  match s with
  | EmptyString => ("", Some e, "")
  | String c s' =>
      if decide (c = delim) then (String c "", None, s')
      else let '(line, err, rest) := read_bytes delim s' e in (String c line, err, rest)
  end.

(** [reader.ReadBytes(delim)]. *)
Definition ReadBytes (delim : ascii) (r : Reader) : string * option read_error * Reader :=
  let '(line, err, rest) := read_bytes delim (unread r) (ending r) in
  (line, err, {| unread := rest; ending := ending r |}).

(** [path[:len(path)-1]]; the slice expression panics on an empty [path]. *)
Fixpoint but_last (path : string) : option string :=
  match path with
  | EmptyString => None
  | String c EmptyString => Some EmptyString
  | String c path' => option_map (String c) (but_last path')
  end.

(** The flags and arguments of a [cli.Context] that the code reads. *)
Record Context := {
  Bool : string → bool;
  Args : list string }.

(** How a piece of code ends: with a value, with the panic of a slice
    expression, or not within the rounds it was given. *)
Inductive Ran (A : Type) :=
  | Done (a : A)
  | SliceOutOfRange
  | OutOfFuel.
Arguments Done {A} a.
Arguments SliceOutOfRange {A}.
Arguments OutOfFuel {A}.

(** [for err == nil { paths = append(paths, string(path[:len(path)-1]));
    path, err = reader.ReadBytes('\000') }], for at most [fuel] rounds. *)
Fixpoint read_loop (fuel : nat) (reader : Reader) (paths : list string)
    (path : string) (err : option read_error) : Ran (list string * read_error) :=
  match err with
  | Some e => Done (paths, e)
  | None =>
      match fuel with
      | O => OutOfFuel
      | S fuel' =>
          match but_last path with
          | None => SliceOutOfRange
          | Some p =>
              let paths := paths ++ [p] in
              let '(path, err, reader) := ReadBytes NUL reader in
              read_loop fuel' reader paths path err
          end
      end
  end.

(** [getFilePaths]: the pair [(paths, err)] it returns.  Every round of
    the loop takes at least one byte of the input, so the length of the
    input bounds the rounds. *)
Definition getFilePaths (c : Context) (stdin : Reader) : Ran (list string * option error) :=
  let paths : list string := [] in
  if Bool c "null" then
    let '(path, err, reader) := ReadBytes NUL stdin in
    match read_loop (String.length (unread stdin)) reader paths path err with
    | Done (paths, io_EOF) => Done (paths, None)
    | Done (_, read_failed e) => Done ([], Some e)      (* return nil, err *)
    | SliceOutOfRange => SliceOutOfRange
    | OutOfFuel => OutOfFuel
    end
  else Done (Args c, None).

(** The bytes that [find -print0] writes for the paths [ps]. *)
Fixpoint print0 (ps : list string) : string :=
  match ps with
  | [] => ""
  | p :: ps' => p +:+ String NUL (print0 ps')
  end.

Fixpoint has_NUL (s : string) : bool :=
  match s with
  | EmptyString => false
  | String c s' => if decide (c = NUL) then true else has_NUL s'
  end.

(** *** [submitHsmRequest] *)
Section hsm.
Context {W RootDir Fid : Type}.

(** The calls that leave the process, with their answers. *)
Inductive HsmCall :=
  | MountRootCall (path : string) (r : result RootDir)
  | GetwdCall (r : result string)
  | LookupFidCall (path : string) (r : result Fid)
  | RequestCall (fsRoot : RootDir) (archiveID : Z) (fids : list Fid) (err : option error).

(** The Lustre filesystem and the working directory of the process. *)
Record Lustre := {
  fs_MountRoot : string → W → result RootDir * W;
  os_Getwd : W → result string * W;
  fs_LookupFid : string → W → result Fid * W;
  RootDir_Path : RootDir → string;        (* fsRoot.Path() *)
  RootDir_String : RootDir → string }.    (* fsRoot under the verb %s *)

Variable L : Lustre.

(** [strings.HasPrefix(s, prefix)]. *)
Fixpoint strings_HasPrefix (s prefix : string) : bool :=
  match prefix, s with
  | EmptyString, _ => true
  | String a prefix', String b s' => bool_decide (a = b) && strings_HasPrefix s' prefix'
  | String _ _, EmptyString => false
  end.

(** [filepath.Abs] on a Unix system, where [filepath.Clean] and
    [filepath.Join] are [path.Clean] and [path.Join]:
    [if IsAbs(path) { return Clean(path), nil }; wd, err := os.Getwd();
    if err != nil { return "", err }; return Join(wd, path), nil]. *)
Definition filepath_Abs (path : string) (w : W)
    : (string * option error) * W * list HsmCall :=
  if rooted path then ((path_Clean path, None), w, [])
  else
    let '(wd, w1) := os_Getwd L w in
    match wd with
    | Err err => (("", Some err), w1, [GetwdCall (Err err)])
    | Ok wd => ((path_Join [wd; path], None), w1, [GetwdCall (Ok wd)])
    end.

(** [fmt.Errorf]. *)
Definition Errorf (msg : string) : error := OtherError msg.

(** The two errors of the loop over the paths. *)
Definition outside_filesystem (path fsRoot : string) : error :=
  Errorf ("All files in HSM request must be in the same filesystem ("
          +:+ path +:+ " is not in " +:+ fsRoot +:+ ")").

Definition cannot_resolve (path : string) (err : error) : error :=
  Errorf ("Cannot resolve Fid for " +:+ path +:+ ": " +:+ Error err).

(** [for _, path := range paths { ... fids = append(fids, fid) }]: the
    fids, or the error the function returns from inside the loop. *)
Fixpoint resolve (fsRoot : RootDir) (paths : list string) (fids : list Fid) (w : W)
    : result (list Fid) * W * list HsmCall :=
  match paths with
  | [] => (Ok fids, w, [])
  | path :: paths' =>
      let '((absPath, _), w1, t1) := filepath_Abs path w in    (* err is dropped *)
      if negb (strings_HasPrefix absPath (RootDir_Path L fsRoot)) then
        (Err (outside_filesystem path (RootDir_String L fsRoot)), w1, t1)
      else
        let '(fid, w2) := fs_LookupFid L path w1 in
        match fid with
        | Err err =>
            (Err (cannot_resolve path err), w2, t1 ++ [LookupFidCall path (Err err)])
        | Ok fid =>
            let '(r, w3, t3) := resolve fsRoot paths' (fids ++ [fid]) w2 in
            (r, w3, t1 ++ LookupFidCall path (Ok fid) :: t3)
        end
  end.

(** [type hsmRequestFn func(fs.RootDir, uint, []*lustre.Fid) error]. *)
Definition hsmRequestFn : Type := RootDir → Z → list Fid → W → option error * W.

(** [submitHsmRequest]; [requestFn] may be [nil]. *)
Definition submitHsmRequest (actionName : string) (requestFn : option hsmRequestFn)
    (archiveID : Z) (paths : list string) (w : W) : option error * W * list HsmCall :=
  match paths with
  | [] =>
      (Some (Errorf ("HSM " +:+ actionName +:+ " request must be made with at least 1 path")),
       w, [])
  | path0 :: _ =>
      let '(fsRoot, w1) := fs_MountRoot L path0 w in
      match fsRoot with
      | Err err =>
          (Some (Errorf ("Error getting fs root from " +:+ path0 +:+ ": " +:+ Error err)),
           w1, [MountRootCall path0 (Err err)])
      | Ok fsRoot =>
          let '(fids, w2, t2) := resolve fsRoot paths [] w1 in
          match fids with
          | Err err => (Some err, w2, MountRootCall path0 (Ok fsRoot) :: t2)
          | Ok fids =>
              match requestFn with
              | Some fn =>
                  let '(err, w3) := fn fsRoot archiveID fids w2 in
                  (err, w3,
                   MountRootCall path0 (Ok fsRoot) :: t2
                   ++ [RequestCall fsRoot archiveID fids err])
              | None =>
                  (Some (Errorf ("Unhandled HSM action: " +:+ actionName)),
                   w2, MountRootCall path0 (Ok fsRoot) :: t2)
              end
          end
      end
  end.

(** The lookups of a trace, in order. *)
Fixpoint lookups (tr : list HsmCall) : list (string * result Fid) :=
  match tr with
  | [] => []
  | LookupFidCall path r :: tr' => (path, r) :: lookups tr'
  | _ :: tr' => lookups tr'
  end.

Definition is_request (c : HsmCall) : bool :=
  match c with RequestCall _ _ _ _ => true | _ => false end.

(** The absolute form of [path] starts with the path of [fsRoot]: the
    cleaned path when it starts with a slash, the join with a working
    directory that the trace [tr] read otherwise; or the path of [fsRoot]
    is empty. *)
Definition under_root (fsRoot : RootDir) (tr : list HsmCall) (path : string) : Prop :=
  if rooted path then strings_HasPrefix (path_Clean path) (RootDir_Path L fsRoot) = true
  else (∃ wd, GetwdCall (Ok wd) ∈ tr
              ∧ strings_HasPrefix (path_Join [wd; path]) (RootDir_Path L fsRoot) = true)
       ∨ RootDir_Path L fsRoot = "".
End hsm.
Arguments HsmCall : clear implicits.
Arguments Lustre : clear implicits.
Arguments hsmRequestFn : clear implicits.

(** *** Inputs for the examples *)

(** The command line [--null], and three paths as [find -print0] writes
    them, with bytes of a fourth behind. *)
Definition null_flag : Context := {| Bool := λ name, bool_decide (name = "null"); Args := [] |}.
Definition found : list string := ["/mnt/lustre/a"; ""; "b c"].
Definition cut_off : string := "/mnt/lus".

(** A filesystem mounted on [/mnt/lustre], in a process whose working
    directory is gone. *)
Definition lost_wd : Lustre unit string Z := {|
  fs_MountRoot path w := (Ok "/mnt/lustre", w);
  os_Getwd w := (Err (OtherError "getwd: no such file or directory"), w);
  fs_LookupFid path w := (Ok 7, w);
  RootDir_Path root := root;
  RootDir_String root := root |}.

(** The same filesystem, in a process that works in [/mnt/lustre/d]. *)
Definition mounted : Lustre unit string Z := {|
  fs_MountRoot path w := (Ok "/mnt/lustre", w);
  os_Getwd w := (Ok "/mnt/lustre/d", w);
  fs_LookupFid path w := (Ok 7, w);
  RootDir_Path root := root;
  RootDir_String root := root |}.
End lfs.

(** ** cmd/lhsm-plugin-noop/main.go: [noop] and [main] *)
Module plugin.

(** A channel: the values sent and not yet received, and whether it is
    closed. *)
Record Chan := { queued : nat; closed : bool }.

(** [make(chan struct{})]. *)
Definition make_chan : Chan := {| queued := O; closed := false |}.

(** [<-ch]: the channel after the receive, or [None] when the receive has
    to wait. *)
Definition receive (ch : Chan) : option Chan :=
  match queued ch with
  | S n => Some {| queued := n; closed := closed ch |}
  | O => if closed ch then Some ch else None
  end.

Section defs.
Context {W Plugin : Type}.

Inductive PluginCall :=
  | NewCall (agentAddress : string) (r : result Plugin)
  | AddMoverCall (p : Plugin) (m : noop.Mover)
  | StopCall (p : Plugin).

(** The plugin library; [AddMover] is given the address of the mover,
    which has no method that changes it. *)
Record Agent := {
  dmplugin_New : string → W → result Plugin * W;
  AddMover : Plugin → noop.Mover → W → W;
  Stop : Plugin → W → W }.

Inductive Ending :=
  | Finished                   (* the function returns *)
  | Exited (code : Z)          (* os.Exit(code), behind log.Fatal and flag.Parse *)
  | Waiting.                   (* the receive never ends *)

(** What [flag.Parse()] makes of the command line.  The flags are those
    of [flag.CommandLine], whose error handling is [flag.ExitOnError]: a
    command line that it does not accept ([-archive=x], [-archive=-1], a
    flag that is not defined, [-h]) ends the process inside
    [flag.Parse()], with the status 2 (0 for the help flag, from Go 1.15
    on).  Otherwise [archive] has the value given, a [uint], or stays at
    the default of [flag.UintVar(&archive, "archive", 1, ...)]. *)
Inductive CommandLine :=
  | Refused (code : Z)
  | Accepted (archive : option Z).

Variable A : Agent.

(** [noop], for the value [archive] of the flag. *)
Definition noop (archive : Z) (agentAddress : string) (w : W)
    : Ending * W * list PluginCall :=
  let done := make_chan in
  let '(plugin, w1) := dmplugin_New A agentAddress w in
  match plugin with
  | Err err => (Exited 1, w1, [NewCall agentAddress (Err err)])
  | Ok plugin =>
      let mover := {| noop.fsName := "noop"; noop.archiveID := noop.uint32 archive |} in
      let w2 := AddMover A plugin mover w1 in
      match receive done with
      | None =>
          (Waiting, w2, [NewCall agentAddress (Ok plugin); AddMoverCall plugin mover])
      | Some _ =>
          (Finished, Stop A plugin w2,
           [NewCall agentAddress (Ok plugin); AddMoverCall plugin mover; StopCall plugin])
      end
  end.

(** [main]. *)
Definition main (args : CommandLine) (w : W) : Ending * W * list PluginCall :=
  match args with
  | Refused code => (Exited code, w, [])           (* flag.Parse() *)
  | Accepted flag =>
      let archive := default 1 flag in
      noop archive "localhost:4242" w
  end.

Definition is_stop (c : PluginCall) : bool :=
  match c with StopCall _ => true | _ => false end.
End defs.
Arguments PluginCall : clear implicits.
Arguments Agent : clear implicits.
End plugin.

(** ** Reading the metadata back *)

(** The number that the digits of [s] spell in base [base], behind the
    digits that gave [acc]. *)
Fixpoint read_digits (base : Z) (s : string) (acc : Z) : Z :=
  match s with
  | EmptyString => acc
  | String c s' => read_digits base s' (acc * base + (Z.of_nat (nat_of_ascii c) - 48))
  end.

(** ** The shape of a cleaned path *)

(** The segments of a path as [path.Clean] leaves it: names that are
    proper and free of slashes, behind a run of [".."] segments that only a
    path without a leading slash can have. *)
Definition clean_segments (rt : bool) (segs : list string) : Prop :=
  ∃ ups names,
    segs = ups ++ names
    ∧ (rt = true → ups = [])
    ∧ Forall (λ e, e = "..") ups
    ∧ Forall (λ e, proper_name e ∧ has_sep e = false) names.

(** ** Times that [Format] prints in full *)

(** A year of four digits, the other fields of two, and an offset of whole
    minutes below a hundred hours. *)
Definition printable (t : Time) : Prop :=
  0 ≤ Year t < 10000 ∧ 0 ≤ Month t < 100 ∧ 0 ≤ Day t < 100
  ∧ 0 ≤ Hour t < 100 ∧ 0 ≤ Minute t < 100 ∧ 0 ≤ Second t < 100
  ∧ Z.rem (ZoneOffset t) 60 = 0 ∧ -360000 < ZoneOffset t < 360000.
Lemma app_empty_l (s : string) : "" +:+ s = s.
Proof. reflexivity. Qed.

Lemma app_String (c : ascii) (s t : string) :
  String c s +:+ t = String c (s +:+ t).
Proof. reflexivity. Qed.

Lemma app_empty_r (s : string) : s +:+ "" = s.
Proof. induction s as [|c s IH]; [done|]. by rewrite app_String, IH. Qed.

Lemma app_assoc_s (s t u : string) : (s +:+ t) +:+ u = s +:+ t +:+ u.
Proof. induction s as [|c s IH]; [done|]. by rewrite !app_String, IH. Qed.

Lemma app_eq_empty (s t : string) : s +:+ t = "" → s = "" ∧ t = "".
Proof. destruct s; [rewrite app_empty_l; auto | rewrite app_String; discriminate]. Qed.

Lemma app_inv_l (s t u : string) : s +:+ t = s +:+ u → t = u.
Proof.
  induction s as [|c s IH]; [done|].
  rewrite !app_String. intros [= H]. auto.
Qed.

Example Clean_ex1 : path_Clean "a//b/./c/../d" = "a/b/d".
Proof. reflexivity. Qed.
Example Clean_ex2 : path_Clean "/../a/.." = "/".
Proof. reflexivity. Qed.
Example Clean_ex3 : path_Clean "../../a/../.." = "../../..".
Proof. reflexivity. Qed.
Example Clean_ex4 : path_Clean "a/.." = ".".
Proof. reflexivity. Qed.
Example Join_ex1 : path_Join ["c"; "export1"; "a/b/file.txt"] = "c/export1/a/b/file.txt".
Proof. reflexivity. Qed.
Example Join_ex2 : path_Join [""; ""; ""] = "".
Proof. reflexivity. Qed.
Example Join_ex3 : path_Join ["/c/a"; ""] = "/c/a".
Proof. reflexivity. Qed.
Example Split_ex1 : strings_Split "a/b/file.txt" = ["a"; "b"; "file.txt"].
Proof. reflexivity. Qed.
Example Split_ex2 : strings_Split "/a//" = [""; "a"; ""; ""].
Proof. reflexivity. Qed.

(** ** [strings.Split] and [strings.Join] *)

Lemma Split_nonempty (s : string) : strings_Split s ≠ [].
Proof.
  induction s as [|c s IH]; simpl; [done|].
  case_decide; [done|]. destruct (strings_Split s); done.
Qed.

Lemma Split_length (s : string) : length (strings_Split s) = S (strings_Count s).
Proof.
  induction s as [|c s IH]; simpl; [done|].
  case_decide; simpl; [by rewrite IH|].
  destruct (strings_Split s) eqn:E; simpl in *; [done|]. by rewrite <- IH.
Qed.

Lemma Split_no_sep (s : string) : has_sep s = false → strings_Split s = [s].
Proof.
  induction s as [|c s IH]; simpl; [done|].
  case_decide; [done|]. intros Hs. by rewrite IH.
Qed.

Lemma Split_elements (s : string) : Forall (λ e, has_sep e = false) (strings_Split s).
Proof.
  induction s as [|c s IH]; simpl; [by repeat constructor|].
  case_decide; [by constructor|].
  destruct (strings_Split s) as [|h t]; [by repeat constructor; simpl; case_decide|].
  inversion_clear IH. constructor; [|done]. simpl. by case_decide.
Qed.

Lemma Split_app (s t : string) :
  strings_Split (s +:+ "/" +:+ t) = strings_Split s ++ strings_Split t.
Proof.
  induction s as [|c s IH].
  - rewrite app_empty_l, app_String, app_empty_l. simpl. by try case_decide.
  - rewrite app_String. simpl. rewrite IH. case_decide; [done|].
    pose proof (Split_nonempty s). by destruct (strings_Split s).
Qed.

Lemma Split_Join (l : list string) :
  l ≠ [] → Forall (λ e, has_sep e = false) l → strings_Split (strings_Join l) = l.
Proof.
  induction l as [|e l IH]; [done|]. intros _ H. inversion_clear H as [|? ? He Hl].
  destruct l as [|e' l]; [by apply Split_no_sep|].
  change (strings_Join (e :: e' :: l)) with (e +:+ "/" +:+ strings_Join (e' :: l)).
  rewrite Split_app, Split_no_sep, IH by done. done.
Qed.

Lemma Join_snoc (l : list string) (e : string) :
  l ≠ [] → strings_Join (l ++ [e]) = strings_Join l +:+ "/" +:+ e.
Proof.
  induction l as [|a l IH]; [done|]. intros _.
  destruct l as [|b l]; [done|].
  change (strings_Join ((a :: b :: l) ++ [e]))
    with (a +:+ "/" +:+ strings_Join ((b :: l) ++ [e])).
  rewrite IH by done.
  change (strings_Join (a :: b :: l)) with (a +:+ "/" +:+ strings_Join (b :: l)).
  by rewrite !app_assoc_s.
Qed.

Lemma Count_no_sep (s : string) : strings_Count s = O ↔ has_sep s = false.
Proof.
  induction s as [|c s IH]; simpl; [done|]. case_decide; [split; done|done].
Qed.

(** ** [path.Clean] is idempotent *)

Lemma rooted_app (s t : string) : s ≠ "" → rooted (s +:+ t) = rooted s.
Proof. destruct s; [done|]. by rewrite app_String. Qed.

Lemma rooted_no_sep (s : string) : has_sep s = false → rooted s = false.
Proof. destruct s as [|c s]; simpl; [done|]. unfold os_PathSeparator. by case_decide. Qed.

Lemma Join_cons_nonempty (e : string) (l : list string) :
  e ≠ "" → strings_Join (e :: l) ≠ "".
Proof.
  intros He. destruct l; [done|].
  change (strings_Join (e :: s :: l)) with (e +:+ "/" +:+ strings_Join (s :: l)).
  intros H. by apply app_eq_empty in H as [? _].
Qed.

Lemma rooted_Join (e : string) (l : list string) :
  e ≠ "" → rooted (strings_Join (e :: l)) = rooted e.
Proof.
  intros He. destruct l; [done|].
  change (strings_Join (e :: s :: l)) with (e +:+ "/" +:+ strings_Join (s :: l)).
  by apply rooted_app.
Qed.

Lemma clean_buffer_elements rt out :
  clean_buffer rt out → Forall (λ e, has_sep e = false) out.
Proof. induction out; simpl; [constructor|]. intros (?&?&?&?&?). constructor; auto. Qed.

Lemma clean_elem_buffer rt out e :
  has_sep e = false → clean_buffer rt out → clean_buffer rt (clean_elem rt out e).
Proof.
  intros He H. unfold clean_elem.
  repeat case_decide; subst; try done.
  destruct out as [|t out]; [destruct rt; simpl; auto 10|].
  case_decide; subst.
  - destruct rt; [done|]. simpl. simpl in H. auto 10.
  - simpl in H. tauto.
Qed.

Lemma fold_clean_buffer rt es out :
  Forall (λ e, has_sep e = false) es → clean_buffer rt out →
  clean_buffer rt (fold_left (clean_elem rt) es out).
Proof.
  intros H. revert out. induction H; simpl; [done|].
  intros out Hout. apply IHForall. by apply clean_elem_buffer.
Qed.

Lemma clean_stack_buffer (p : string) : clean_buffer (rooted p) (clean_stack p).
Proof. apply fold_clean_buffer; [apply Split_elements|done]. Qed.

(** Pushing an element of a clean buffer onto the rest of it is what the
    loop does with it. *)
Lemma clean_elem_push rt e out :
  clean_buffer rt (e :: out) → clean_elem rt out e = e :: out.
Proof.
  simpl. intros (H1&H2&_&H4&_). unfold clean_elem.
  repeat case_decide; try done.
  destruct (H4 ltac:(done)) as [-> Hout]. destruct out as [|t out]; [done|].
  by case_decide.
Qed.

Lemma clean_buffer_tail rt e out : clean_buffer rt (e :: out) → clean_buffer rt out.
Proof. simpl. tauto. Qed.

Lemma fold_clean_rev rt out :
  clean_buffer rt out → fold_left (clean_elem rt) (rev out) [] = out.
Proof.
  induction out as [|e out IH]; [done|]. intros H. simpl.
  rewrite fold_left_app. simpl. rewrite IH by (by eapply clean_buffer_tail).
  by apply clean_elem_push.
Qed.

Lemma clean_buffer_nonempty rt out : clean_buffer rt out → Forall (λ e, e ≠ "") out.
Proof. induction out; simpl; [constructor|]. intros (?&?&?&?&?). constructor; auto. Qed.

Lemma render_nonempty rt out : clean_buffer rt out → render rt out ≠ "".
Proof.
  unfold render. destruct rt; [done|]. destruct out as [|e out]; [done|].
  intros H. apply clean_buffer_nonempty, Forall_rev in H.
  destruct (rev (e :: out)) as [|a l] eqn:E.
  { apply (f_equal length) in E. rewrite length_rev in E. done. }
  apply Join_cons_nonempty. by inversion H.
Qed.

Lemma rooted_render rt out : clean_buffer rt out → rooted (render rt out) = rt.
Proof.
  unfold render. destruct rt; [done|]. destruct out as [|e out]; [done|].
  intros H. pose proof (clean_buffer_nonempty _ _ H) as Hn.
  apply clean_buffer_elements in H. apply Forall_rev in H, Hn.
  destruct (rev (e :: out)) as [|a l] eqn:E.
  { apply (f_equal length) in E. rewrite length_rev in E. done. }
  inversion_clear H. inversion_clear Hn.
  rewrite rooted_Join by done. by apply rooted_no_sep.
Qed.

(** Cleaning the string of a clean buffer finds the buffer again. *)
Lemma clean_stack_render rt out :
  clean_buffer rt out → clean_stack (render rt out) = out.
Proof.
  intros H. unfold clean_stack. rewrite rooted_render by done.
  pose proof (clean_buffer_elements _ _ H) as Hs. apply Forall_rev in Hs.
  unfold render. destruct rt.
  - rewrite app_String, app_empty_l. simpl strings_Split.
    destruct out as [|e out]; [done|].
    rewrite Split_Join; [|intros E; apply (f_equal length) in E; rewrite length_rev in E; done|done].
    change (fold_left (clean_elem true) ("" :: rev (e :: out)) [])
      with (fold_left (clean_elem true) (rev (e :: out)) []).
    by apply fold_clean_rev.
  - destruct out as [|e out]; [done|].
    rewrite Split_Join; [|intros E; apply (f_equal length) in E; rewrite length_rev in E; done|done].
    by apply fold_clean_rev.
Qed.

(** ** The byte loop of [path.Clean] does what [clean_elem] says *)

Lemma first_after (p : string) : p = first_elem p +:+ after_elem p.
Proof.
  induction p as [|c p IH]; simpl; [done|].
  case_decide; [done|]. by rewrite app_String, <- IH.
Qed.

Lemma first_elem_no_sep (p : string) : has_sep (first_elem p) = false.
Proof.
  induction p as [|c p IH]; simpl; [done|]. case_decide; [done|]. simpl.
  unfold os_PathSeparator. by case_decide.
Qed.

Lemma after_elem_length (p : string) :
  String.length p = (String.length (first_elem p) + String.length (after_elem p))%nat.
Proof. induction p as [|c p IH]; simpl; [done|]. case_decide; simpl; [done|]. by rewrite IH. Qed.

Lemma after_elem_slash (p : string) : end_or_slash (after_elem p) = true.
Proof.
  induction p as [|c p IH]; simpl; [done|]. case_decide; [|done].
  simpl. by apply bool_decide_eq_true.
Qed.

Lemma copy_element_spec (p : string) (out : list ascii) :
  copy_element p out = (after_elem p, rev (bytes (first_elem p)) ++ out).
Proof.
  revert out. induction p as [|c p IH]; intros out; simpl; [done|].
  case_decide; [done|]. rewrite IH. simpl. by rewrite <- app_assoc.
Qed.

(** The elements of a path: the first one, then those of the rest behind
    the slash. *)
Lemma Split_first (p : string) :
  strings_Split p
  = first_elem p :: match after_elem p with
                    | EmptyString => []
                    | String _ r => strings_Split r
                    end.
Proof.
  induction p as [|c p IH]; simpl; [done|]. unfold os_PathSeparator.
  case_decide; simpl; [done|]. by rewrite IH.
Qed.

Lemma fold_Split_first rt (p : string) (out : list string) :
  fold_left (clean_elem rt) (strings_Split p) out
  = fold_left (clean_elem rt) (strings_Split (after_elem p)) (clean_elem rt out (first_elem p)).
Proof.
  rewrite (Split_first p). simpl.
  pose proof (after_elem_slash p) as H.
  destruct (after_elem p) as [|c r]; [done|].
  simpl in H. apply bool_decide_eq_true in H as ->. done.
Qed.

Lemma bytes_no_slash (e : string) :
  has_sep e = false → Forall (λ c, c ≠ "/"%char) (bytes e).
Proof.
  induction e as [|c e IH]; simpl; [constructor|].
  unfold os_PathSeparator. case_decide; [done|]. intros He. constructor; auto.
Qed.

Lemma bytes_length (e : string) : length (bytes e) = String.length e.
Proof. induction e; simpl; auto. Qed.

Lemma bytes_nonempty (e : string) : e ≠ "" → bytes e ≠ [].
Proof. by destruct e. Qed.

Lemma dotdot_of_le rt out : (dotdot_of rt out ≤ length (buffer rt out))%nat.
Proof.
  induction out as [|e out IH]; [done|].
  cbn [dotdot_of]. case_decide; [done|].
  cbn [buffer]. rewrite !length_app. lia.
Qed.

Lemma buffer_cons_length rt e out :
  e ≠ "" → (length (buffer rt out) < length (buffer rt (e :: out)))%nat.
Proof.
  intros He. cbn [buffer]. rewrite !length_app, length_rev, bytes_length.
  destruct e; [done|]. simpl. lia.
Qed.

(** The buffer can be backtracked exactly when its last element is not
    [".."]. *)
Lemma can_backtrack rt out :
  clean_buffer rt out →
  (dotdot_of rt out <? length (buffer rt out))%nat
  = match out with
    | [] => false
    | e :: _ => if decide (e = "..") then false else true
    end.
Proof.
  destruct out as [|e out]; [intros _; apply Nat.ltb_irrefl|].
  intros (He & _). cbn [dotdot_of]. case_decide; [apply Nat.ltb_irrefl|].
  apply Nat.ltb_lt. pose proof (dotdot_of_le rt out).
  pose proof (buffer_cons_length rt e out He). lia.
Qed.

Lemma unwind_bytes (bs : list ascii) (b : ascii) (rest : list ascii) (dotdot : nat) :
  (dotdot ≤ length rest)%nat → Forall (λ c, c ≠ "/"%char) (b :: bs) →
  ∃ c, c ≠ "/"%char ∧ unwind b (bs ++ rest) dotdot = unwind c rest dotdot.
Proof.
  revert b. induction bs as [|b' bs IH]; intros b Hd Hs.
  { exists b. by inversion_clear Hs. }
  inversion_clear Hs as [|? ? Hb Hbs].
  destruct (IH b' Hd Hbs) as (c & Hc & E). exists c. split; [done|].
  rewrite <- E. cbn [app unwind].
  replace (dotdot <? length (b' :: bs ++ rest))%nat with true
    by (symmetry; apply Nat.ltb_lt; simpl; rewrite length_app; lia).
  by rewrite bool_decide_eq_false_2.
Qed.

(** Backtracking takes the last element off the buffer. *)
Lemma backtrack_buffer rt e out :
  clean_buffer rt (e :: out) →
  backtrack (buffer rt (e :: out)) (dotdot_of rt out) = buffer rt out.
Proof.
  intros (He & _ & Hs & _ & Hout).
  apply bytes_no_slash in Hs. apply Forall_rev in Hs.
  pose proof (bytes_nonempty e He) as Hn.
  cbn [buffer]. destruct (rev (bytes e)) as [|b bs] eqn:E.
  { apply (f_equal length) in E. rewrite length_rev in E. by destruct (bytes e). }
  cbn [app backtrack].
  pose proof (dotdot_of_le rt out) as Hle.
  destruct (unwind_bytes bs b
              (match out with [] => [] | _ => ["/"%char] end ++ buffer rt out)
              (dotdot_of rt out)) as (c & Hc & ->); [rewrite length_app; lia|done|].
  destruct out as [|e' out'].
  - by destruct rt.
  - cbn [app unwind]. set (buf := buffer rt (e' :: out')) in *.
    assert ((dotdot_of rt (e' :: out') <? length ("/"%char :: buf))%nat = true) as ->.
    { apply Nat.ltb_lt. cbn [length]. lia. }
    rewrite bool_decide_eq_false_2 by done. cbn [andb negb].
    destruct buf as [|b0 buf0]; [done|]. cbn [unwind].
    by rewrite andb_false_r.
Qed.

Lemma first_elem_empty (p : string) : first_elem p = "" ↔ end_or_slash p = true.
Proof.
  destruct p as [|c p]; simpl; [done|]. rewrite bool_decide_eq_true.
  case_decide; split; done.
Qed.

Lemma after_elem_id (p : string) : end_or_slash p = true → after_elem p = p.
Proof.
  destruct p as [|c p]; simpl; [done|]. rewrite bool_decide_eq_true. intros ->.
  by case_decide.
Qed.

(** The two tests of the loop for [.] and [..] read the first element. *)
Lemma dot_test (c : ascii) (p1 : string) :
  c ≠ "/"%char →
  bool_decide (c = "."%char) && end_or_slash p1
  = bool_decide (first_elem (String c p1) = ".").
Proof.
  intros Hc. simpl. case_decide; [done|].
  destruct (end_or_slash p1) eqn:E.
  - apply first_elem_empty in E as ->. rewrite andb_true_r.
    apply bool_decide_ext. split; [by intros ->|by intros [= ->]].
  - rewrite andb_false_r. symmetry. apply bool_decide_eq_false.
    intros [= -> E']. apply first_elem_empty in E'. congruence.
Qed.

Lemma dotdot_test (c : ascii) (p1 : string) :
  c ≠ "/"%char →
  bool_decide (c = "."%char) && starts_with_dot p1 && end_or_slash (tail p1)
  = bool_decide (first_elem (String c p1) = "..").
Proof.
  intros Hc. simpl. case_decide; [done|].
  destruct p1 as [|c1 p2]; simpl.
  { rewrite andb_false_r. symmetry. by apply bool_decide_eq_false. }
  case_decide as Hc1.
  { subst. rewrite andb_false_r. simpl. symmetry. by apply bool_decide_eq_false. }
  destruct (end_or_slash p2) eqn:E.
  - apply first_elem_empty in E as ->. rewrite andb_true_r.
    destruct (decide (c = "."%char)) as [->|]; destruct (decide (c1 = "."%char)) as [->|].
    all: rewrite ?bool_decide_eq_true_2, ?bool_decide_eq_false_2 by done; simpl.
    all: symmetry; first [done | by apply bool_decide_eq_false; intros ?; simplify_eq].
  - rewrite andb_false_r. symmetry. apply bool_decide_eq_false.
    intros [= -> -> E']. apply first_elem_empty in E'. congruence.
Qed.

Lemma after_dot (c : ascii) (p1 : string) :
  first_elem (String c p1) = "." → after_elem (String c p1) = p1.
Proof.
  simpl. case_decide; [done|]. intros [= -> E].
  by apply after_elem_id, first_elem_empty.
Qed.

Lemma after_dotdot (c : ascii) (p1 : string) :
  first_elem (String c p1) = ".." → after_elem (String c p1) = tail p1.
Proof.
  simpl. case_decide; [done|]. intros [= -> E].
  destruct p1 as [|c1 p2]; [done|]. simpl in *.
  case_decide; [done|]. injection E as -> E. by apply after_elem_id, first_elem_empty.
Qed.

Lemma rooted_buffer_length out : (1 ≤ length (buffer true out))%nat.
Proof.
  induction out as [|e out IH]; [done|]. cbn [buffer]. rewrite !length_app. lia.
Qed.

Lemma buffer_length_nil rt out :
  clean_buffer rt out → out ≠ [] →
  (length (buffer rt out) =? 0)%nat = false ∧ (length (buffer rt out) =? 1)%nat = false
  ∨ rt = false ∧ (length (buffer rt out) =? 0)%nat = false.
Proof.
  destruct out as [|e out]; [done|]. intros (He & _) _.
  pose proof (buffer_cons_length rt e out He) as Hlt.
  destruct rt.
  - left. pose proof (rooted_buffer_length out).
    split; apply Nat.eqb_neq; lia.
  - right. split; [done|]. apply Nat.eqb_neq. lia.
Qed.

(** A slash is added before a real element exactly when the buffer holds
    an element already. *)
Lemma slash_needed rt out :
  clean_buffer rt out →
  (rt && negb (length (buffer rt out) =? 1)%nat)
  || (negb rt && negb (length (buffer rt out) =? 0)%nat)
  = match out with [] => false | _ => true end.
Proof.
  intros Hb. destruct out as [|e out]; [by destruct rt|].
  destruct (buffer_length_nil rt (e :: out) Hb) as [[-> ->]|[-> ->]]; [done| |done].
  by destruct rt.
Qed.

Lemma clean_loop_buffer rt (fuel : nat) (p : string) (out : list string) :
  (String.length p ≤ fuel)%nat → clean_buffer rt out →
  clean_loop fuel rt p (buffer rt out) (dotdot_of rt out)
  = buffer rt (fold_left (clean_elem rt) (strings_Split p) out).
Proof.
  revert p out. induction fuel as [|fuel IH]; intros p out Hlen Hb.
  { destruct p; [done|simpl in Hlen; lia]. }
  destruct p as [|c p1]; [done|]. simpl in Hlen. cbn [clean_loop].
  case_decide as Hc.
  { subst. simpl. apply IH; [lia|done]. }
  rewrite dot_test, dotdot_test by done. rewrite fold_Split_first.
  pose proof (after_elem_length (String c p1)) as Hal.
  pose proof (first_elem_no_sep (String c p1)) as Hs.
  set (e := first_elem (String c p1)) in *.
  assert (e ≠ "") as He by (subst e; simpl; by case_decide).
  case_bool_decide as Hdot.
  { rewrite after_dot by done. rewrite Hdot. apply IH; [lia|done]. }
  case_bool_decide as Hdd.
  { rewrite after_dotdot by done. rewrite Hdd, can_backtrack by done.
    assert (String.length (tail p1) ≤ fuel)%nat as Hlt by (destruct p1; simpl in *; lia).
    destruct out as [|t out'].
    - destruct rt; [by apply (IH _ [])|].
      by apply (IH _ [".."]).
    - case_decide as Ht.
      + subst t. destruct Hb as (_ & _ & _ & Hr & Hb'). destruct (Hr eq_refl) as [-> Ht'].
        cbn [negb]. assert ((0 <? length (buffer false (".." :: out')))%nat = true) as ->.
        { apply Nat.ltb_lt. simpl. rewrite length_app. simpl. lia. }
        unfold clean_elem. simpl. apply (IH _ (".." :: ".." :: out')); [done|].
        cbn [clean_buffer]. split_and!; done.
      + assert (clean_elem rt (t :: out') ".." = out') as ->.
        { unfold clean_elem. simpl. by rewrite decide_False. }
        assert (dotdot_of rt (t :: out') = dotdot_of rt out') as ->.
        { simpl. by rewrite decide_False. }
        rewrite backtrack_buffer by done. apply IH; [done|]. simpl in Hb. tauto. }
  assert (clean_elem rt out e = e :: out) as ->.
  { unfold clean_elem. by rewrite !decide_False. }
  rewrite slash_needed by done. rewrite copy_element_spec. fold e.
  assert (clean_buffer rt (e :: out)) as Hb' by (simpl; tauto).
  assert (dotdot_of rt out = dotdot_of rt (e :: out)) as -> by (simpl; by rewrite decide_False).
  assert (rev (bytes e) ++ (if match out with [] => false | _ => true end
                            then "/"%char :: buffer rt out else buffer rt out)
          = buffer rt (e :: out)) as -> by (by destruct out).
  apply IH; [|done]. clearbody e. destruct e; [done|].
  cbn [String.length] in Hal. lia.
Qed.

Lemma string_of_app (l1 l2 : list ascii) :
  String.string_of_list_ascii (l1 ++ l2)
  = String.string_of_list_ascii l1 +:+ String.string_of_list_ascii l2.
Proof. induction l1 as [|c l1 IH]; simpl; [done|]. by rewrite IH. Qed.

(** The bytes of the buffer spell the elements joined by slashes, behind
    the slash of a rooted path. *)
Lemma buffer_string rt out :
  String.string_of_list_ascii (rev (buffer rt out))
  = (if rt then "/" else "") +:+ strings_Join (rev out).
Proof.
  induction out as [|e out IH]; [by destruct rt|].
  cbn [buffer]. rewrite !rev_app_distr, rev_involutive, !string_of_app, IH.
  rewrite String.string_of_list_ascii_of_string.
  change (rev (e :: out)) with (rev out ++ [e]).
  destruct out as [|e' out']; [by destruct rt|].
  rewrite Join_snoc; [by rewrite !app_assoc_s|].
  intros E. apply (f_equal length) in E. rewrite length_rev in E. done.
Qed.

(** [path.Clean] is [Clean_elements]: the byte loop, which the length of
    the path is fuel enough for, treats the path element by element. *)
Lemma path_Clean_elements (p : string) : path_Clean p = Clean_elements p.
Proof.
  unfold path_Clean, Clean_elements. case_decide as Hp; [done|].
  unfold clean_stack, render. destruct (rooted p) eqn:Hr.
  - destruct p as [|c p1]; [done|]. simpl in Hr. case_decide; [subst|done].
    cbn [tail].
    change (strings_Split (String "/" p1)) with ("" :: strings_Split p1).
    cbn [fold_left]. change (clean_elem true [] "") with (@nil string).
    set (out := fold_left (clean_elem true) (strings_Split p1) []).
    assert (clean_loop (String.length (String "/" p1)) true p1 ["/"%char] 1
            = buffer true out) as ->.
    { apply (clean_loop_buffer true _ p1 []); [simpl; lia|done]. }
    pose proof (rooted_buffer_length out) as Hl.
    destruct (length (buffer true out)) eqn:E; [lia|]. cbn [Nat.eqb].
    by rewrite buffer_string.
  - pose proof (fold_clean_buffer false (strings_Split p) [] (Split_elements p) I) as Hb.
    set (out := fold_left (clean_elem false) (strings_Split p) []) in *.
    assert (clean_loop (String.length p) false p [] 0 = buffer false out) as ->.
    { by apply (clean_loop_buffer false _ p []). }
    destruct out as [|e out']; [done|].
    destruct Hb as (He & _). pose proof (buffer_cons_length false e out' He) as Hl.
    destruct (length (buffer false (e :: out'))) eqn:E; [lia|]. cbn [Nat.eqb].
    by rewrite buffer_string.
Qed.

Lemma Clean_render rt out : clean_buffer rt out → path_Clean (render rt out) = render rt out.
Proof.
  intros H. rewrite path_Clean_elements. unfold Clean_elements.
  case_decide as E; [by apply render_nonempty in E|].
  by rewrite rooted_render, clean_stack_render.
Qed.

Lemma Clean_idempotent (p : string) : path_Clean (path_Clean p) = path_Clean p.
Proof.
  rewrite (path_Clean_elements p). unfold Clean_elements. case_decide; [done|].
  apply Clean_render, clean_stack_buffer.
Qed.

Lemma Clean_nonempty (p : string) : path_Clean p ≠ "".
Proof.
  rewrite path_Clean_elements. unfold Clean_elements.
  case_decide; [done|]. apply render_nonempty, clean_stack_buffer.
Qed.

Lemma Join_nonempty_or_empty (elem : list string) :
  path_Join elem = "" ∨ (path_Join elem ≠ "" ∧ path_Clean (path_Join elem) = path_Join elem).
Proof.
  unfold path_Join. destruct (drop_empty elem); [by left|right].
  split; [apply Clean_nonempty|apply Clean_idempotent].
Qed.

Lemma Join_single (p : string) : path_Join [p] = if decide (p = "") then "" else path_Clean p.
Proof. unfold path_Join. simpl. by case_decide. Qed.

(** ** [path.Join] with one more element *)

Lemma clean_stack_app (p t : string) :
  p ≠ "" →
  clean_stack (p +:+ "/" +:+ t)
  = fold_left (clean_elem (rooted p)) (strings_Split t) (clean_stack p).
Proof.
  intros Hp. unfold clean_stack.
  by rewrite rooted_app, Split_app, fold_left_app.
Qed.

Lemma rooted_nonempty (p : string) : rooted p = true → p ≠ "".
Proof. by destruct p. Qed.

Lemma Join_push (p e : string) :
  rooted p = true → proper_name e → has_sep e = false →
  path_Join [p; e] = render true (e :: clean_stack p).
Proof.
  intros Hr (He1 & He2 & He3) Hs. pose proof (rooted_nonempty _ Hr) as Hp.
  unfold path_Join. simpl. case_decide; [done|].
  rewrite path_Clean_elements. unfold Clean_elements.
  case_decide as E; [by apply app_eq_empty in E as [? _]|].
  rewrite rooted_app, clean_stack_app, Split_no_sep, Hr by done. simpl.
  unfold clean_elem. by repeat case_decide.
Qed.

Lemma render_push (out : list string) (e : string) :
  out ≠ [] → render true (e :: out) = render true out +:+ "/" +:+ e.
Proof.
  intros Ho. unfold render. simpl rev. rewrite Join_snoc, app_assoc_s; [done|].
  intros E. apply (f_equal length) in E. rewrite length_rev in E. by destruct out.
Qed.

Lemma strict_prefix_push (p e : string) : strict_prefix p (p +:+ "/" +:+ e).
Proof. by exists ("/" +:+ e). Qed.
(** ** The runs cover the code *)
Section archive_sound.
Context {W Cred Pace : Type} (B : Backend W).
Import archive runs.
Implicit Types (o : ArchiveOptions Cred Pace) (w : W).

Lemma parent_sound o dirURL dirPath w :
  parent_run o dirURL dirPath (parent B o dirURL dirPath w).1.1 (parent B o dirURL dirPath w).2.
Proof.
  unfold parent, acl_fetch_failed, bind, call, util_Log, return_, ret, panic.
  destruct o as [? ? ? ? ? ? ? ? ? ? ? hns]; destruct hns; simpl; repeat answer.
  all: first
    [ refine (open_fails _ _ _ _ _)
    | refine (stat_fails _ _ _ _ _ _)
    | refine (get_acl_fails _ _ _ _ _ _ _ _)
    | refine (upload_fails _ _ _ _ _ _ _ _)
    | refine (set_acl_fails _ _ _ _ _ _ _ _ _)
    | refine (parent_done _ _ _ _ _ _) ].
  all: first [reflexivity | exact ""].
Qed.

Lemma parent_run_no_panic o dirURL dirPath msg tr :
  ¬ parent_run o dirURL dirPath (Panic msg) tr.
Proof. inversion 1. Qed.

Lemma loop_sound o ps u dirPath w :
  loop_run o ps u dirPath (parents_loop B o ps u dirPath w).1.1
    (parents_loop B o ps u dirPath w).2.
Proof.
  revert u dirPath w. induction ps as [|currDir ps IH]; intros u dirPath w; simpl.
  { constructor. }
  unfold bind.
  pose proof (parent_sound o (set_Path u (path_Join [Path u; currDir]))
                (path_Join [dirPath; currDir]) w) as Hp.
  destruct (parent B o _ _ w) as [[[[]|total err|msg] w1] t1]; simpl in Hp.
  - specialize (IH (set_Path u (path_Join [Path u; currDir]))
                   (path_Join [dirPath; currDir]) w1).
    destruct (parents_loop B o ps _ _ w1) as [[r w2] t2]; simpl in *.
    by eapply loop_next.
  - simpl. by apply loop_stop.
  - by apply parent_run_no_panic in Hp.
Qed.

Lemma file_sound o u w :
  file_run o u (outcome (the_file B o u w).1.1) (the_file B o u w).2.
Proof.
  unfold the_file, bind, call, util_Log, return_, ret, panic.
  destruct o as [? ? ? ? ? ? ? ? ? ? ? hns]; destruct hns; simpl; repeat answer.
  all: first
    [ refine (source_open_fails _ _ _)
    | refine (source_stat_fails _ _ _ _)
    | refine (file_get_acl_fails _ _ _ _ _ _ _)
    | refine (file_upload_fails _ _ _ _ _ _ _)
    | refine (file_done_flat _ _ _ _ _ _)
    | refine (file_done_hns _ _ _ _ _ _)
    | refine (file_set_acl_fails _ _ _ _ _ _ _ _) ].
  all: first [reflexivity | exact ""].
Qed.

Lemma loop_run_no_panic o ps u dirPath msg tr : ¬ loop_run o ps u dirPath (Panic msg) tr.
Proof.
  intros H. remember (Panic msg) as r eqn:E. induction H; done.
Qed.

(** Every run of [Archive] is one of the runs of [archive_run]. *)
Lemma Archive_sound o w : archive_run o (Archive B o w).1.1 (Archive B o w).2.
Proof.
  unfold Archive, Archive_body, bind, util_Log. simpl.
  pose proof (loop_sound o (removelast (strings_Split (BlobName o)))
                (mkURL (flat_host (AccountName o)) (ContainerName o) (ResourceSAS o))
                (MountRoot o) w) as Hl.
  destruct (parents_loop B o _ _ _ w) as [[[[]|total err|msg] w1] t1]; simpl in *.
  - pose proof (file_sound o (appendToURLPath
                  (mkURL (flat_host (AccountName o)) (ContainerName o) (ResourceSAS o))
                  (BlobName o)) w1) as Hf.
    destruct (the_file B o _ w1) as [[r w2] t2]; simpl in *.
    by apply replication_done.
  - by apply replication_fails.
  - by apply loop_run_no_panic in Hl.
Qed.
End archive_sound.

(** ** The paths of the placeholders *)

Lemma prefix_chain_from (out : list string) (ps : list string) :
  clean_buffer true out → out ≠ [] →
  Forall proper_name ps → Forall (λ e, has_sep e = false) ps →
  prefix_chain (render true out :: archive.parent_paths (render true out) ps).
Proof.
  revert out. induction ps as [|c ps IH]; intros out Hb Ho Hp Hs; [done|].
  inversion_clear Hp as [|? ? Hc Hp']. inversion_clear Hs as [|? ? Hc' Hs'].
  cbn [archive.parent_paths].
  rewrite Join_push, clean_stack_render by (done || by apply rooted_render).
  split.
  - rewrite render_push by done. apply strict_prefix_push.
  - apply IH; try done. destruct Hc as (?&?&?). simpl. by repeat split.
Qed.

Lemma prefix_chain_paths (p : string) (ps : list string) :
  rooted p = true → Forall proper_name ps → Forall (λ e, has_sep e = false) ps →
  prefix_chain (archive.parent_paths p ps).
Proof.
  intros Hr Hp Hs. destruct ps as [|c ps]; [done|].
  inversion_clear Hp as [|? ? Hc Hp']. inversion_clear Hs as [|? ? Hc' Hs'].
  cbn [archive.parent_paths]. rewrite Join_push by done.
  apply prefix_chain_from; try done.
  pose proof (clean_stack_buffer p) as Hb. rewrite Hr in Hb.
  destruct Hc as (?&?&?). simpl. by repeat split.
Qed.

Lemma prefix_chain_prefix (l1 l2 : list string) :
  l1 `prefix_of` l2 → prefix_chain l2 → prefix_chain l1.
Proof.
  intros [k ->]. induction l1 as [|p l1 IH]; [done|].
  destruct l1 as [|q l1]; [done|]. simpl. intros [? ?]. split; [done|]. by apply IH.
Qed.

Lemma parent_paths_length (p : string) (ps : list string) :
  length (archive.parent_paths p ps) = length ps.
Proof. revert p. induction ps; intros p; simpl; [done|]. by rewrite IHps. Qed.

Lemma removelast_length {A} (l : list A) : length (removelast l) = pred (length l).
Proof. induction l as [|a [|b l] IH]; simpl in *; [done..|]. by rewrite IH. Qed.

Lemma Forall_removelast {A} (P : A → Prop) (l : list A) : Forall P l → Forall P (removelast l).
Proof.
  induction 1 as [|a l Ha Hl IH]; [constructor|].
  destruct l; [constructor|]. by constructor.
Qed.

(** ** What the runs have in common *)

Lemma placeholder_uploads_app (t1 t2 : list Event) :
  placeholder_uploads (t1 ++ t2) = placeholder_uploads t1 ++ placeholder_uploads t2.
Proof.
  induction t1 as [|ev t1 IH]; [done|]. simpl.
  destruct ev as [|[] []]; simpl; by rewrite ?IH.
Qed.

Section run_facts.
Context {Cred Pace : Type}.
Import archive runs.
Variable o : ArchiveOptions Cred Pace.

Lemma parent_calls_quiet u d dir info acl : quiet (parent_calls o u d dir info acl).
Proof. unfold parent_calls, quiet. destruct (HNSEnabled o); by repeat constructor. Qed.

Lemma parent_calls_uploads u d dir info acl :
  placeholder_uploads (parent_calls o u d dir info acl) = [].
Proof. unfold parent_calls. by destruct (HNSEnabled o). Qed.

Lemma parent_calls_sites u d dir info acl :
  Forall (λ ev, is_file_event ev = false) (parent_calls o u d dir info acl).
Proof. unfold parent_calls. destruct (HNSEnabled o); by repeat constructor. Qed.

(** A round that goes on has made no failing call and one upload. *)
Lemma parent_run_next u d tr :
  parent_run o u d (Next tt) tr →
  quiet tr ∧ ∃ info, placeholder_uploads tr = [(u, dir_metadata o info)].
Proof.
  inversion_clear 1. split.
  - apply Forall_app. split; [apply parent_calls_quiet|].
    destruct (HNSEnabled o); by repeat constructor.
  - exists dirInfo. rewrite placeholder_uploads_app, parent_calls_uploads.
    by destruct (HNSEnabled o).
Qed.

(** A round that returns does so with [0] and the error of its last
    call, which is the only failing one, and logs it. *)
Lemma parent_run_return u d total err tr :
  parent_run o u d (Return total err) tr →
  total = 0
  ∧ (∃ pre c e msg, err = Some e ∧ tr = pre ++ [Do Parents c; Log LogError msg]
       ∧ call_error c = Some e ∧ quiet pre)
  ∧ (placeholder_uploads tr = [] ∨ ∃ info, placeholder_uploads tr = [(u, dir_metadata o info)]).
Proof.
  inversion_clear 1; (split; [done|]); split.
  - exists [], (OpenCall d (Err e)), e, msg. close.
  - by left.
  - exists [Do Parents (OpenCall d (Ok dir))], (StatCall dir (Err e)), e, msg.
    close.
  - by left.
  - exists [Do Parents (OpenCall d (Ok dir)); Do Parents (StatCall dir (Ok dirInfo))],
      (GetAccessControlCall u (Err e)), e, msg.
    close.
  - by left.
  - exists (parent_calls o u d dir dirInfo acl),
      (UploadCall u "" (dir_metadata o dirInfo) (Some e)), e, msg.
    repeat split; try done. apply parent_calls_quiet.
  - right. exists dirInfo. by rewrite placeholder_uploads_app, parent_calls_uploads.
  - exists (parent_calls o u d dir dirInfo acl
            ++ [Do Parents (UploadCall u "" (dir_metadata o dirInfo) None)]),
      (SetAccessControlCall u acl (Some e)), e, msg.
    repeat split; try done; [by rewrite <- app_assoc|].
    apply Forall_app. split; [apply parent_calls_quiet|by repeat constructor].
  - right. exists dirInfo. by rewrite placeholder_uploads_app, parent_calls_uploads.
Qed.

Lemma parent_run_sites u d r tr :
  parent_run o u d r tr → Forall (λ ev, is_file_event ev = false) tr.
Proof.
  inversion_clear 1; try by repeat constructor.
  all: apply Forall_app; split; [apply parent_calls_sites|].
  all: destruct (HNSEnabled o); by repeat constructor.
Qed.

Lemma loop_run_sites ps u d r tr :
  loop_run o ps u d r tr → Forall (λ ev, is_file_event ev = false) tr.
Proof.
  induction 1; [constructor|by eapply parent_run_sites|].
  apply Forall_app. split; [by eapply parent_run_sites|done].
Qed.

(** The placeholder uploads of the loop go, in order, to the paths of
    [parent_paths]: to all of them when the loop ends, to the first ones
    when it returns. *)
Lemma loop_run_uploads ps u d r tr :
  loop_run o ps u d r tr →
  ∃ infos,
    (length infos ≤ length ps)%nat
    ∧ (r = Next tt → length infos = length ps)
    ∧ placeholder_uploads tr
      = zip_with (λ p info, (set_Path u p, dir_metadata o info))
          (parent_paths (Path u) ps) infos.
Proof.
  induction 1 as [u d|c ps u d total err tr Hp|c ps u d tr r tr' Hp Hl IH].
  - by exists [].
  - apply parent_run_return in Hp as (_ & _ & [->|[info ->]]).
    + exists []. simpl. repeat split; try solve [lia|done].
    + exists [info]. simpl. repeat split; try solve [lia|done].
      by destruct (parent_paths _ ps).
  - apply parent_run_next in Hp as (_ & info & Hu).
    destruct IH as (infos & Hlen & Hfull & IH).
    exists (info :: infos). simpl. split; [lia|]. split; [intros E; by rewrite Hfull|].
    rewrite placeholder_uploads_app, Hu, IH. reflexivity.
Qed.

Lemma loop_run_next ps u d tr : loop_run o ps u d (Next tt) tr → quiet tr.
Proof.
  intros H. remember (Next tt) as r eqn:E.
  induction H as [| |c ps u d tr r tr' Hp Hl IH]; [constructor|done|].
  apply Forall_app. split; [by apply parent_run_next in Hp as [? _]|by apply IH].
Qed.

Lemma loop_run_return ps u d total err tr :
  loop_run o ps u d (Return total err) tr →
  total = 0
  ∧ ∃ pre c e msg, err = Some e ∧ tr = pre ++ [Do Parents c; Log LogError msg]
      ∧ call_error c = Some e ∧ quiet pre.
Proof.
  intros H. remember (Return total err) as r eqn:E.
  induction H as [|c ps u d total' err' tr Hp|c ps u d tr r tr' Hp Hl IH]; [done|..].
  - injection E as -> ->. apply parent_run_return in Hp as (? & ? & _). done.
  - destruct (IH E) as (? & pre & c' & e & msg & ? & -> & ? & ?). split; [done|].
    exists (tr ++ pre), c', e, msg. repeat split; [done|by rewrite app_assoc|done|].
    apply Forall_app. split; [by apply parent_run_next in Hp as [? _]|done].
Qed.
End run_facts.

Section file_facts.
Context {Cred Pace : Type}.
Import archive runs.
Variable o : ArchiveOptions Cred Pace.

Lemma file_calls_quiet file info acl : quiet (file_calls o file info acl).
Proof. unfold file_calls, quiet. destruct (HNSEnabled o); by repeat constructor. Qed.

Lemma file_calls_uploads file info acl : placeholder_uploads (file_calls o file info acl) = [].
Proof. unfold file_calls. by destruct (HNSEnabled o). Qed.

(** The second part makes no call of directory replication. *)
Lemma file_run_quiet u out tr : file_run o u out tr → quiet tr.
Proof.
  inversion_clear 1; try by (unfold quiet; repeat constructor).
  all: apply Forall_app; split; [apply file_calls_quiet|by repeat constructor].
Qed.

Lemma file_run_sites u out tr :
  file_run o u out tr → Forall (λ ev, is_parents_event ev = false) tr.
Proof.
  inversion_clear 1; try by repeat constructor.
  all: apply Forall_app; split; [|by repeat constructor].
  all: unfold file_calls; destruct (HNSEnabled o); by repeat constructor.
Qed.

Lemma file_run_uploads u out tr : file_run o u out tr → placeholder_uploads tr = [].
Proof.
  inversion_clear 1; try done.
  all: by rewrite placeholder_uploads_app, file_calls_uploads.
Qed.
End file_facts.

Lemma quiet_no_failure (tr : list Event) (ev : Event) (e : error) :
  quiet tr → ev ∈ tr → parents_failure ev = Some e → False.
Proof.
  intros Hq Hin He. unfold quiet in Hq. rewrite Forall_forall in Hq.
  apply Hq in Hin. congruence.
Qed.

(** * The claims *)

Section archive_claims.
Context {W Cred Pace : Type} (B : Backend W).
Import archive runs.
Implicit Types (o : ArchiveOptions Cred Pace) (w : W).

(** C5. If any step of directory replication fails (the open or stat of an
    ancestor directory, the fetch of its ACL, the placeholder upload, the
    write of the placeholder's ACL), [Archive] returns at once with
    [(0, err)], [err] being the error of that step: the failing call is
    followed by the log of the error and nothing else, and the trace holds
    no call of the second part, so the source file is not opened and no
    content is uploaded. *)
Theorem replication_failure_is_fatal o w ev e :
  ev ∈ (Archive B o w).2 → parents_failure ev = Some e →
  (Archive B o w).1.1 = Returned 0 (Some e)
  ∧ Forall (λ ev', is_file_event ev' = false) (Archive B o w).2
  ∧ ∃ pre msg, (Archive B o w).2 = pre ++ [ev; Log LogError msg].
Proof.
  pose proof (Archive_sound B o w) as H.
  destruct (Archive B o w) as [[out w'] tr]; simpl in *.
  intros Hin Hev.
  inversion H as [total err t Hl|t out' t' Hl Hf]; subst.
  - apply loop_run_return in Hl as Hr.
    destruct Hr as (-> & pre & c & e' & msg & -> & -> & Hc & Hq).
    assert (ev = Do Parents c) as ->.
    { apply elem_of_cons in Hin as [->|Hin]; [done|].
      apply elem_of_app in Hin as [Hin|Hin]; [by destruct (quiet_no_failure _ _ _ Hq Hin Hev)|].
      apply elem_of_cons in Hin as [->|Hin]; [done|].
      apply list_elem_of_singleton in Hin as ->. done. }
    simpl in Hev. rewrite Hc in Hev. injection Hev as ->.
    split; [done|]. split.
    + constructor; [done|]. by eapply loop_run_sites.
    + by exists (Log LogInfo ("Archiving " +:+ BlobName o) :: pre), msg.
  - exfalso. apply elem_of_cons in Hin as [->|Hin]; [done|].
    apply elem_of_app in Hin as [Hin|Hin].
    + eapply quiet_no_failure; [by eapply loop_run_next|done..].
    + eapply quiet_no_failure; [by eapply file_run_quiet|done..].
Qed.

Lemma paths_of_uploads (u : URL) (g : FileInfo → Metadata) (l : list string)
    (infos : list FileInfo) :
  placeholder_paths (zip_with (λ p info, (set_Path u p, g info)) l infos)
  = take (length infos) l.
Proof.
  revert infos. induction l as [|p l IH]; intros [|i infos]; simpl; [done..|].
  by rewrite <- IH.
Qed.


Lemma loop_run_not_file ps u d r tr ev o :
  loop_run o ps u d r tr → ev ∈ tr → is_file_event ev = false.
Proof. intros Hl Hin. apply loop_run_sites in Hl. rewrite Forall_forall in Hl. auto. Qed.

(** C10. When the open or the stat of the source file fails, which the
    code reaches only after directory replication went through without a
    failing call, [Archive] returns nothing, so no error either: the
    failing call is its last one, the error is dropped without a log, and
    the read of the size of the nil file info panics. *)
Theorem unreadable_source_panics o w ev e :
  ev ∈ (Archive B o w).2 → source_failure ev = Some e →
  (Archive B o w).1.1 = Panicked nil_dereference
  ∧ (∀ total err, (Archive B o w).1.1 ≠ Returned total err)
  ∧ quiet (Archive B o w).2
  ∧ ∃ pre, (Archive B o w).2 = pre ++ [ev].
Proof.
  pose proof (Archive_sound B o w) as H.
  destruct (Archive B o w) as [[out w'] tr]. cbn [fst snd] in *.
  intros Hin Hev.
  inversion H as [total err t Hl|t out' t' Hl Hf]; subst.
  { exfalso. apply elem_of_cons in Hin as [->|Hin]; [done|].
    apply (loop_run_not_file _ _ _ _ _ _ _ Hl) in Hin. by destruct ev as [|[] []]. }
  assert (ev ∈ t') as Hin'.
  { apply elem_of_cons in Hin as [->|Hin]; [done|].
    apply elem_of_app in Hin as [Hin|Hin]; [|done].
    apply (loop_run_not_file _ _ _ _ _ _ _ Hl) in Hin. by destruct ev as [|[] []]. }
  assert (quiet (Log LogInfo ("Archiving " +:+ BlobName o) :: t ++ t')) as Hq.
  { constructor; [done|]. apply Forall_app. split;
      [by eapply loop_run_next|by eapply file_run_quiet]. }
  clear Hin.
  inversion Hf; subst; unfold file_calls in Hin'; destruct (HNSEnabled o);
    members Hin'; try discriminate Hev.
  all: split; [done|]; split; [done|]; split; [done|].
  - by exists (Log LogInfo ("Archiving " +:+ BlobName o) :: t).
  - by exists (Log LogInfo ("Archiving " +:+ BlobName o) :: t).
  - exists (Log LogInfo ("Archiving " +:+ BlobName o)
            :: t ++ [Do TheFile (OpenCall (SourcePath o) (Ok file))]).
    simpl. by rewrite <- !app_assoc.
  - exists (Log LogInfo ("Archiving " +:+ BlobName o)
            :: t ++ [Do TheFile (OpenCall (SourcePath o) (Ok file))]).
    simpl. by rewrite <- !app_assoc.
Qed.


Lemma file_metadata_keys info : four_keys (file_metadata info) info.
Proof.
  unfold four_keys, file_metadata. split.
  - rewrite !dom_insert_L, dom_empty_L. set_solver.
  - by repeat split.
Qed.

Lemma followed_by_app P t1 t2 :
  followed_by P t1 → followed_by P t2 → followed_by P (t1 ++ t2).
Proof.
  induction t1 as [|ev t1 IH]; [done|]. intros H1 H2.
  destruct ev as [|[] []]; simpl in *; auto.
  destruct err; auto. destruct H1 as [Hn H1]. split; [|auto].
  by destruct t1.
Qed.

Lemma followed_by_split P pre u body meta post :
  followed_by P (pre ++ Do Parents (UploadCall u body meta None) :: post) →
  ∃ next post', post = next :: post' ∧ P u next.
Proof.
  induction pre as [|ev pre IH]; simpl.
  - intros [H _]. destruct post as [|next post']; [done|]. by exists next, post'.
  - destruct ev as [|[] []]; auto. destruct err; auto. intros [_ H]. auto.
Qed.

Lemma parent_run_followed o u d r tr :
  HNSEnabled o = true → parent_run o u d r tr → followed_by (acl_write_on (Host u)) tr.
Proof.
  intros Hh. inversion_clear 1; unfold parent_calls; rewrite ?Hh; simpl; try done.
  all: split; [|done]; split; [done|]; by eexists _, _.
Qed.

Lemma loop_run_followed o ps u d r tr :
  HNSEnabled o = true → loop_run o ps u d r tr → followed_by (acl_write_on (Host u)) tr.
Proof.
  intros Hh. induction 1 as [| |c ps u d tr r tr' Hp Hl IH]; [done|..].
  - by eapply (parent_run_followed _ (set_Path u _)).
  - apply followed_by_app; [|done]. by eapply (parent_run_followed _ (set_Path u _)).
Qed.

Lemma file_run_followed o u out tr P : file_run o u out tr → followed_by P tr.
Proof. inversion_clear 1; unfold file_calls; by destruct (HNSEnabled o). Qed.

Lemma uploads_metadata (u : URL) (g : FileInfo → Metadata) (l : list string)
    (infos : list FileInfo) (x : URL * Metadata) :
  x ∈ zip_with (λ p info, (set_Path u p, g info)) l infos →
  ∃ info, x.2 = g info ∧ Host x.1 = Host u.
Proof.
  revert infos. induction l as [|p l IH]; intros [|i infos]; simpl;
    try (by intros ?%elem_of_nil).
  intros [->|Hin]%elem_of_cons; [by exists i|eauto].
Qed.

(** C6, as the code has it. In flat mode the metadata sent with the
    content of the file holds exactly the four keys [Permissions],
    [ModTime], [Owner] and [Group], with the values of the stat of the
    source file made during the archive (mode in octal, formatted
    modification time, user and group id in decimal). With the hierarchical
    namespace the metadata of every directory placeholder is the directory
    indicator alone, and each placeholder upload that succeeds is followed
    at once by the write of the ACL to the placeholder's own URL, which is
    on the flat service. *)
Theorem metadata_by_mode o w :
  let tr := (Archive B o w).2 in
  (HNSEnabled o = false →
     ∀ f u opts err, Do TheFile (UploadFileCall f u opts err) ∈ tr →
       ∃ file info, f = Some file ∧ Do TheFile (StatCall file (Ok info)) ∈ tr
                    ∧ four_keys (opt_Metadata opts) info)
  ∧ (HNSEnabled o = true →
       (∀ x, x ∈ placeholder_uploads tr → x.2 = {["hdi_isfolder" := "true"]})
       ∧ followed_by (acl_write_on (flat_host (AccountName o))) tr).
Proof.
  pose proof (Archive_sound B o w) as H.
  destruct (Archive B o w) as [[out w'] tr]. cbn [fst snd] in *. cbv zeta.
  split.
  - intros Hh f u opts err Hin.
    inversion H as [total err' t Hl|t out' t' Hl Hf]; subst.
    { exfalso. apply elem_of_cons in Hin as [?|Hin]; [done|].
      by apply (loop_run_not_file _ _ _ _ _ _ _ Hl) in Hin. }
    assert (Do TheFile (UploadFileCall f u opts err) ∈ t') as Hin'.
    { apply elem_of_cons in Hin as [?|Hin]; [done|].
      apply elem_of_app in Hin as [Hin|Hin]; [|done].
      by apply (loop_run_not_file _ _ _ _ _ _ _ Hl) in Hin. }
    clear Hin.
    inversion Hf; subst; unfold file_calls in Hin'; rewrite ?Hh in Hin';
      members Hin'; try discriminate; try congruence.
    all: match goal with E : Do _ _ = Do _ _ |- _ => injection E as -> -> -> -> end.
    all: exists file, fileInfo; split; [done|]; split; [|apply file_metadata_keys].
    all: apply elem_of_cons; right; apply elem_of_app; right.
    all: unfold file_calls; rewrite Hh; apply elem_of_cons; right; left.
  - intros Hh.
    assert (∃ t t' r, tr = Log LogInfo ("Archiving " +:+ BlobName o) :: t ++ t'
              ∧ loop_run o (parents o) (cURL o) (MountRoot o) r t
              ∧ placeholder_uploads t' = []
              ∧ ∀ P, followed_by P t') as (t & t' & r & -> & Hl & Ht' & Hf').
    { inversion H as [total err t Hl|t out' t' Hl Hf]; subst.
      - exists t, [], (Return total err). by rewrite app_nil_r.
      - exists t, t', (Next tt). repeat split; try done.
        + by eapply file_run_uploads.
        + intros P. by eapply file_run_followed. }
    split.
    + intros x. cbn [placeholder_uploads]. rewrite placeholder_uploads_app, Ht', app_nil_r.
      apply loop_run_uploads in Hl as (infos & _ & _ & ->).
      intros (info & -> & _)%uploads_metadata. unfold dir_metadata. by rewrite Hh.
    + simpl. apply followed_by_app; [|done].
      by apply (loop_run_followed _ _ _ _ _ _ Hh) in Hl.
Qed.

Lemma parents_loop_ExportPrefix prefix o ps u d :
  parents_loop B (set_ExportPrefix prefix o) ps u d = parents_loop B o ps u d.
Proof.
  revert u d. induction ps as [|c ps IH]; intros u d; [done|].
  simpl. by rewrite IH.
Qed.

(** [Archive] never reads the export prefix. *)
Lemma Archive_ExportPrefix prefix o w :
  Archive B (set_ExportPrefix prefix o) w = Archive B o w.
Proof.
  unfold Archive, Archive_body. cbn [BlobName set_ExportPrefix MountRoot AccountName
    ContainerName ResourceSAS]. by rewrite parents_loop_ExportPrefix.
Qed.
End archive_claims.

(** C1 fails on the code. In the scenario of the claim (export prefix
    [export1], mount root [/mnt/fs], object name [a/b/file.txt], container
    [c]) [Archive] writes the placeholders [a] and [a/b] and the content
    [a/b/file.txt] directly under the container, not under [export1], while
    [Remove] with the same configuration addresses [export1/a/b/file.txt]:
    it finds nothing there, and the archived object stays. Whatever the
    export prefix is, [Archive] runs the same. *)
Theorem Archive_leaves_out_export_prefix :
  let fx := sim.posix ["/mnt/fs/a/b/file.txt"] sim.no_faults in
  let o := sim.options "a/b/file.txt" "export1" false in
  let r := sim.remove_options "a/b/file.txt" "export1" in
  let archived := archive.Archive (sim.backend fx) o ∅ in
  let removed := remove.Remove sim.url_Parse (sim.backend fx) r archived.1.2 in
  archived.1.1 = Returned 4096 None
  ∧ sim.upload_paths archived.2 = ["/c/a"; "/c/a/b"; "/c/a/b/file.txt"]
  ∧ remove.blobPath r = "c/export1/a/b/file.txt"
  ∧ sim.delete_paths removed.2 = ["/c/export1/a/b/file.txt"]
  ∧ removed.1.1 = Next (Some sim.not_found)
  ∧ dom removed.1.2 = ({["/c/a"; "/c/a/b"; "/c/a/b/file.txt"]} : gset string)
  ∧ ∀ prefix, archive.Archive (sim.backend fx) (archive.set_ExportPrefix prefix o) ∅ = archived.
Proof.
  split_and!; [by vm_compute..|].
  intros prefix. apply Archive_ExportPrefix.
Qed.

(** C2 fails on the code. The guard of the ACL fetch of a directory holds
    for every error, the "not found" of the store included: its second half
    adds nothing to [err != nil]. With the hierarchical namespace and a store
    that does not hold the directory yet, [Archive] of [a/f] stops at the
    fetch with [(0, err)], [err] being that "not found", and uploads
    nothing. *)
Theorem not_found_aborts_the_archive :
  (∀ err, acl_fetch_failed err = bool_decide (err ≠ None))
  ∧ (∀ msg, acl_fetch_failed (Some (StorageError ServiceCodeBlobNotFound msg)) = true)
  ∧ let r := sim.run_Archive (sim.posix ["/mnt/fs/a/f"] sim.no_faults)
               (sim.options "a/f" "" true) ∅ in
    r.1 = Returned 0 (Some sim.not_found)
    ∧ sim.upload_paths r.2 = []
    ∧ ∃ pre u msg, r.2 = pre ++ [Do Parents (GetAccessControlCall u (Err sim.not_found));
                                 Log LogError msg].
Proof.
  split; [|split; [done|]].
  - by intros [[code msg|msg]|].
  - split; [by vm_compute|]. split; [by vm_compute|].
    eexists [_; _; _], _, _. vm_compute. reflexivity.
Qed.

(** ** [url.Parse] on plain strings *)

Lemma all_bytes_app (P : ascii → bool) (s t : string) :
  all_bytes P (s +:+ t) = all_bytes P s && all_bytes P t.
Proof.
  induction s as [|c s IH]; [done|]. rewrite app_String. simpl.
  by rewrite IH, andb_assoc.
Qed.

Lemma all_bytes_impl (P Q : ascii → bool) (s : string) :
  (∀ c, P c = true → Q c = true) → all_bytes P s = true → all_bytes Q s = true.
Proof.
  intros HPQ. induction s as [|c s IH]; [done|]. simpl.
  intros [Hc Hs]%andb_true_iff. by rewrite (HPQ c Hc), IH.
Qed.

Lemma plain_parts_free (P : ascii → bool) (host p sas : string) :
  (∀ c, unreserved c = true → P c = true) →
  (∀ c, c ∈ ["/"; "?"; "="; "&"; "%"; ":"]%char → P c = true) →
  plain_host host = true → plain_path p = true → plain_query sas = true →
  all_bytes P (Sprintf_url host p sas) = true.
Proof.
  intros Hu Hs Hh Hp Hq. unfold Sprintf_url.
  assert (∀ c, path_byte c = true → P c = true) as Hpb.
  { intros c [H|H%bool_decide_eq_true]%orb_true_iff; [auto|].
    apply Hs. subst c. listed. }
  assert (∀ c, query_byte c = true → P c = true) as Hqb.
  { intros c [H|H%bool_decide_eq_true]%orb_true_iff; [auto|].
    apply Hs. repeat (apply elem_of_cons in H as [->|H]; [listed|]).
    by apply elem_of_nil in H. }
  assert (all_bytes P "https://" = true) as H1.
  { simpl. rewrite !Hu by done. by rewrite !Hs by listed. }
  assert (all_bytes P "/" = true) as H2.
  { simpl. by rewrite Hs by listed. }
  assert (all_bytes P sas = true) as H3.
  { destruct sas as [|c sas]; [done|]. simpl in *.
    apply andb_true_iff in Hq as [->%bool_decide_eq_true Hq].
    rewrite Hs by listed. by apply (all_bytes_impl query_byte). }
  rewrite !all_bytes_app, H1, H2, H3.
  rewrite (all_bytes_impl unreserved P host), (all_bytes_impl path_byte P p); done.
Qed.

Lemma cut_at_app (c : ascii) (s t : string) :
  all_bytes (λ x, negb (bool_decide (x = c))) s = true →
  (t = "" ∨ ∃ t', t = String c t') →
  sim.cut_at c (s +:+ t) = (s, t).
Proof.
  intros Hs Ht. induction s as [|x s IH].
  - rewrite app_empty_l. destruct Ht as [->|[t' ->]]; [done|].
    simpl. by rewrite decide_True.
  - rewrite app_String. simpl in *. apply andb_true_iff in Hs as [Hx Hs].
    apply negb_true_iff, bool_decide_eq_false in Hx.
    rewrite decide_False by done. by rewrite IH.
Qed.

Lemma strip_prefix_app (p s : string) : sim.strip_prefix p (p +:+ s) = Some s.
Proof.
  induction p as [|c p IH]; [by destruct s|].
  rewrite app_String. simpl. by rewrite decide_True.
Qed.

Lemma unescape_plain (s : string) :
  all_bytes (λ x, negb (bool_decide (x = "%"%char))) s = true → sim.unescape s = Some s.
Proof.
  induction s as [|c s IH]; [done|]. simpl.
  intros [Hc Hs]%andb_true_iff. apply negb_true_iff, bool_decide_eq_false in Hc.
  rewrite decide_False by done. by rewrite IH.
Qed.

Lemma unreserved_not_CTL (c : ascii) : unreserved c = true → sim.is_CTL c = false.
Proof.
  unfold unreserved, sim.is_CTL.
  intros [H|H%bool_decide_eq_true]%orb_true_iff.
  - apply orb_false_iff. split; [apply Nat.ltb_ge|apply Nat.eqb_neq].
    all: repeat (apply orb_true_iff in H as [H|H]);
      apply andb_true_iff in H as [H1%Nat.leb_le H2%Nat.leb_le]; lia.
  - repeat (apply elem_of_cons in H as [->|H]; [done|]). by apply elem_of_nil in H.
Qed.

Lemma byte_differs (P : ascii → bool) (c x : ascii) :
  P c = false → P x = true → negb (bool_decide (x = c)) = true.
Proof. intros Hc Hx. apply negb_true_iff, bool_decide_eq_false. congruence. Qed.

(** The parser of the examples takes plain strings as they are. *)
Lemma sim_takes_plain : takes_plain sim.url_Parse.
Proof.
  intros host p sas Hh Hp Hq. unfold sim.url_Parse.
  assert (∀ c : ascii, c ∈ ["/"; "?"; "="; "&"; "%"; ":"]%char →
            c ≠ "#"%char ∧ sim.is_CTL c = false) as Hsep.
  { intros c H. repeat (apply elem_of_cons in H as [->|H]; [done|]). by apply elem_of_nil in H. }
  assert (all_bytes (λ x, negb (bool_decide (x = "#"%char))) (Sprintf_url host p sas) = true)
    as Hfrag.
  { apply plain_parts_free; try done.
    - intros c Hc. by apply (byte_differs unreserved).
    - intros c Hc. apply negb_true_iff, bool_decide_eq_false. by apply Hsep. }
  assert (all_bytes (λ c, negb (sim.is_CTL c)) (Sprintf_url host p sas) = true) as Hctl.
  { apply plain_parts_free; try done.
    - intros c Hc. by rewrite unreserved_not_CTL.
    - intros c Hc. apply negb_true_iff. by apply Hsep. }
  rewrite <- (app_empty_r (Sprintf_url host p sas)) at 1.
  rewrite cut_at_app by (done || by left).
  rewrite Hctl. cbn [negb]. unfold Sprintf_url at 1. rewrite strip_prefix_app.
  assert (host +:+ "/" +:+ p +:+ sas = (host +:+ "/" +:+ p) +:+ sas) as ->.
  { by rewrite !app_assoc_s. }
  assert (all_bytes (λ x, negb (bool_decide (x = "?"%char))) (host +:+ "/" +:+ p) = true)
    as Hquery.
  { rewrite !all_bytes_app.
    rewrite (all_bytes_impl unreserved _ host), (all_bytes_impl path_byte _ p); try done.
    - intros c [Hc|Hc%bool_decide_eq_true]%orb_true_iff; [|by subst c].
      by apply (byte_differs unreserved).
    - intros c Hc. by apply (byte_differs unreserved). }
  rewrite cut_at_app; [|done|]; cycle 1.
  { destruct sas as [|c sas]; [by left|right]. simpl in Hq.
    apply andb_true_iff in Hq as [->%bool_decide_eq_true _]. by eexists. }
  rewrite cut_at_app; cycle 1.
  { apply (all_bytes_impl unreserved); [|done].
    intros c Hc. by apply (byte_differs unreserved). }
  { right. by eexists. }
  rewrite Hh. cbn [negb]. rewrite unescape_plain; [done|].
  rewrite all_bytes_app. apply andb_true_iff. split; [done|].
  apply (all_bytes_impl path_byte); [|done].
  intros c [Hc|Hc%bool_decide_eq_true]%orb_true_iff; [|by subst c].
  by apply (byte_differs unreserved).
Qed.

(** The string that [Remove] formats, in the two ways of writing it. *)
Lemma Remove_url_string (account key sas : string) :
  "https://" +:+ account +:+ ".blob.core.windows.net/" +:+ key +:+ sas
  = Sprintf_url (flat_host account) key sas.
Proof.
  unfold Sprintf_url, flat_host. by rewrite app_assoc_s.
Qed.


Lemma Clean_trailing (p t : string) :
  p ≠ "" → Forall (λ e, e = "") (strings_Split t) →
  path_Clean (p +:+ "/" +:+ t) = path_Clean p.
Proof.
  intros Hp Ht. rewrite !path_Clean_elements. unfold Clean_elements.
  repeat case_decide; try done.
  { by apply app_eq_empty in H as [? _]. }
  rewrite rooted_app, clean_stack_app by done. f_equal.
  generalize (clean_stack p). intros out.
  induction Ht as [|e es -> _ IH]; [done|]. exact IH.
Qed.

(** C8. The join that gives the object key is idempotent: for every
    container, export prefix and object name, joining the key again gives the
    key, whether the key is joined alone or put in the place of any of the
    three elements with the other two empty. *)
Theorem Join_idempotent (container prefix name : string) :
  let key := path_Join [container; prefix; name] in
  path_Join [key] = key
  ∧ path_Join [key; ""; ""] = key
  ∧ path_Join [""; key; ""] = key
  ∧ path_Join [""; ""; key] = key.
Proof.
  cbv zeta. destruct (Join_nonempty_or_empty [container; prefix; name]) as [->|[Hn Hc]];
    [done|].
  set (key := path_Join [container; prefix; name]) in *.
  assert (path_Join [key] = key) as H1.
  { rewrite Join_single. by case_decide. }
  split_and!; [done| | |].
  - unfold path_Join. simpl. case_decide; [done|].
    rewrite Clean_trailing; [done..|]. by repeat constructor.
  - unfold path_Join. simpl. case_decide; [done|].
    change (key +:+ "/" +:+ "") with (key +:+ "/" +:+ "").
    rewrite Clean_trailing; [done..|]. by repeat constructor.
  - unfold path_Join in *. simpl in *. by case_decide.
Qed.

(** C9. The identity of a mover does not change: on a mover built from a
    filesystem name and an archive id, every call of [FsName] and
    [ArchiveID], in any number and order, answers with the value given at
    construction and leaves the mover as it was; the two methods are all the
    operations a mover has. The mover that [noop] registers is built from
    ["noop"] and the archive flag converted to 32 bits. *)
Theorem Mover_identity_is_fixed (fs : string) (id : Z) (cs : list noop.Method) :
  let m := {| noop.fsName := fs; noop.archiveID := id |} in
  noop.invoke_all cs m = (map (noop.expected fs id) cs, m)
  ∧ noop.FsName m = (fs, m)
  ∧ noop.ArchiveID m = (id, m)
  ∧ ∀ archive, noop.noop_mover archive
               = {| noop.fsName := "noop"; noop.archiveID := archive mod 2 ^ 32 |}.
Proof.
  cbv zeta. split_and!; try done.
  induction cs as [|c cs IH]; [done|].
  destruct c; simpl; by rewrite IH.
Qed.

(** * Counterexamples to the claims as worded, and instances of the theorems *)



(** C6 on the code. With the hierarchical namespace the ACL of the
    placeholder [/c/a] is written to a URL of the flat service, while the
    ACL of the file [/c/a/f] is written, in the same run, to a URL of the
    namespace-aware service: the directory part does not do what the claim
    says and the file part does. *)
Lemma placeholder_acl_goes_to_the_flat_service :
  let tr := (archive.Archive (sim.backend scenario.plain_hns) scenario.hns
               sim.archived_before).2 in
  Do Parents (SetAccessControlCall (mkURL "acct.blob.core.windows.net" "c/a" "?sv=2020&sig=x")
                "user::rwx,group::r-x,other::---" None) ∈ tr
  ∧ Do TheFile (SetAccessControlCall (mkURL "acct.dfs.core.windows.net" "c/a/f" "?sv=2020&sig=x")
                  "user::rw-,group::r--,other::---" None) ∈ tr
  ∧ ¬ stated.metadata_and_acl_endpoint (sim.backend scenario.plain_hns) scenario.hns
        sim.archived_before.
Proof.
  cbv zeta.
  assert (Do Parents (SetAccessControlCall
                        (mkURL "acct.blob.core.windows.net" "c/a" "?sv=2020&sig=x")
                        "user::rwx,group::r-x,other::---" None)
          ∈ (archive.Archive (sim.backend scenario.plain_hns) scenario.hns
               sim.archived_before).2) as Hin.
  { find_event. }
  split; [done|]. split; [find_event|].
  intros [_ H]. destruct (H eq_refl) as [_ Hf].
  apply Hf in Hin. discriminate Hin.
Qed.




(** The store refuses the placeholder of [a/b]: nothing of the file part
    runs. *)
Lemma replication_failure_witness :
  let run := archive.Archive (sim.backend scenario.busy) scenario.flat ∅ in
  scenario.refused_upload ∈ run.2
  ∧ parents_failure scenario.refused_upload = Some (OtherError "503 Server Busy")
  ∧ run.1.1 = Returned 0 (Some (OtherError "503 Server Busy"))
  ∧ Forall (λ ev, is_file_event ev = false) run.2
  ∧ ∃ pre msg, run.2 = pre ++ [scenario.refused_upload; Log LogError msg].
Proof.
  cbv zeta.
  assert (scenario.refused_upload
          ∈ (archive.Archive (sim.backend scenario.busy) scenario.flat ∅).2) as Hin.
  { find_event. }
  assert (parents_failure scenario.refused_upload = Some (OtherError "503 Server Busy")) as He.
  { reflexivity. }
  exact (conj Hin (conj He
    (replication_failure_is_fatal (sim.backend scenario.busy) scenario.flat ∅ _ _ Hin He))).
Defined.

(** The source file cannot be opened: the archive panics. *)
Lemma unreadable_source_witness :
  let run := archive.Archive (sim.backend scenario.locked) scenario.flat ∅ in
  scenario.failed_open ∈ run.2
  ∧ source_failure scenario.failed_open
    = Some (OtherError "open /mnt/fs/a/b/file.txt: permission denied")
  ∧ run.1.1 = Panicked nil_dereference
  ∧ (∀ total err, run.1.1 ≠ Returned total err)
  ∧ quiet run.2
  ∧ ∃ pre, run.2 = pre ++ [scenario.failed_open].
Proof.
  cbv zeta.
  assert (scenario.failed_open
          ∈ (archive.Archive (sim.backend scenario.locked) scenario.flat ∅).2) as Hin.
  { find_event. }
  assert (source_failure scenario.failed_open
          = Some (OtherError "open /mnt/fs/a/b/file.txt: permission denied")) as He.
  { reflexivity. }
  exact (conj Hin (conj He
    (unreadable_source_panics (sim.backend scenario.locked) scenario.flat ∅ _ _ Hin He))).
Defined.


(** Both modes: the content of [a/b/file.txt] in flat mode, the placeholder
    of [a] with the hierarchical namespace. *)
Lemma metadata_by_mode_witness :
  (let tr := (archive.Archive (sim.backend scenario.plain) scenario.flat ∅).2 in
   let sent := Do TheFile (UploadFileCall (Some {| Name := scenario.source; Fd := 3 |})
                             (runs.blobURL scenario.flat)
                             (runs.file_options scenario.flat sim.file_info) None) in
   archive.HNSEnabled scenario.flat = false ∧ sent ∈ tr
   ∧ ∃ file info, Some {| Name := scenario.source; Fd := 3 |} = Some file
                  ∧ Do TheFile (StatCall file (Ok info)) ∈ tr
                  ∧ four_keys (opt_Metadata (runs.file_options scenario.flat sim.file_info)) info)
  ∧ (let tr := (archive.Archive (sim.backend scenario.plain_hns) scenario.hns
                  sim.archived_before).2 in
     archive.HNSEnabled scenario.hns = true
     ∧ (∀ x, x ∈ placeholder_uploads tr → x.2 = {["hdi_isfolder" := "true"]})
     ∧ followed_by (acl_write_on (flat_host (archive.AccountName scenario.hns))) tr).
Proof.
  cbv zeta. split.
  - assert (archive.HNSEnabled scenario.flat = false) as Hh by reflexivity.
    assert (Do TheFile (UploadFileCall (Some {| Name := scenario.source; Fd := 3 |})
                          (runs.blobURL scenario.flat)
                          (runs.file_options scenario.flat sim.file_info) None)
            ∈ (archive.Archive (sim.backend scenario.plain) scenario.flat ∅).2) as Hin.
    { find_event. }
    exact (conj Hh (conj Hin
      (proj1 (metadata_by_mode (sim.backend scenario.plain) scenario.flat ∅) Hh _ _ _ _ Hin))).
  - assert (archive.HNSEnabled scenario.hns = true) as Hh by reflexivity.
    exact (conj Hh
      (proj2 (metadata_by_mode (sim.backend scenario.plain_hns) scenario.hns
                sim.archived_before) Hh)).
Defined.

(** * Further properties of [Archive] *)

Section archive_more.
Context {W Cred Pace : Type} (B : Backend W).
Import archive runs.
Implicit Types (o : ArchiveOptions Cred Pace) (w : W).

Lemma loop_run_Forall o (P : Event → Prop) ps u d r tr :
  (∀ u d r tr, parent_run o u d r tr → Forall P tr) →
  loop_run o ps u d r tr → Forall P tr.
Proof.
  intros HP. induction 1; [constructor|by eapply HP|].
  apply Forall_app. split; [by eapply HP|done].
Qed.

Lemma parent_run_no_delete o u d r tr :
  parent_run o u d r tr → Forall (λ ev, is_delete ev = false) tr.
Proof.
  inversion_clear 1; unfold parent_calls; destruct (HNSEnabled o); by repeat constructor.
Qed.

Lemma parent_run_flat o u d r tr :
  HNSEnabled o = false → parent_run o u d r tr → Forall (λ ev, is_acl_call ev = false) tr.
Proof.
  intros Hh. inversion_clear 1; unfold parent_calls; rewrite ?Hh;
    try congruence; by repeat constructor.
Qed.

(** X1. For options whose URL strings [url.Parse] takes as they are,
    [Archive] panics only when the open or the stat of the source file
    failed: with a source file that opens and stats it always returns.
    (For other options the nil URL of a refused string is one more cause
    of a panic.) *)
Theorem panic_only_for_unreadable_source o w msg :
  url_plain o = true →
  (Archive B o w).1.1 = Panicked msg →
  msg = nil_dereference
  ∧ ∃ pre ev e, (Archive B o w).2 = pre ++ [ev] ∧ source_failure ev = Some e.
Proof.
  intros _.
  pose proof (Archive_sound B o w) as H.
  destruct (Archive B o w) as [[out w'] tr]. cbn [fst snd] in *. intros ->.
  inversion H as [|t out' t' Hl Hf]; subst.
  inversion Hf; subst; (split; [done|]).
  - by exists (Log LogInfo ("Archiving " +:+ BlobName o) :: t),
      (Do TheFile (OpenCall (SourcePath o) (Err e))), e.
  - exists (Log LogInfo ("Archiving " +:+ BlobName o)
            :: t ++ [Do TheFile (OpenCall (SourcePath o) (Ok file))]),
      (Do TheFile (StatCall file (Err e))), e.
    split; [|done]. simpl. by rewrite <- app_assoc.
Qed.

(** X2. An error of the content upload is fatal: [Archive] logs it and
    returns [(0, err)] at once, without a write of the ACL. *)
Theorem content_upload_failure_is_fatal o w f u opts e :
  Do TheFile (UploadFileCall f u opts (Some e)) ∈ (Archive B o w).2 →
  (Archive B o w).1.1 = Returned 0 (Some e)
  ∧ ∃ pre msg, (Archive B o w).2
               = pre ++ [Do TheFile (UploadFileCall f u opts (Some e)); Log LogError msg].
Proof.
  pose proof (Archive_sound B o w) as H.
  destruct (Archive B o w) as [[out w'] tr]. cbn [fst snd] in *. intros Hin.
  inversion H as [total err t Hl|t out' t' Hl Hf]; subst.
  { exfalso. apply elem_of_cons in Hin as [?|Hin]; [done|].
    by apply (loop_run_not_file _ _ _ _ _ _ _ Hl) in Hin. }
  assert (Do TheFile (UploadFileCall f u opts (Some e)) ∈ t') as Hin'.
  { apply elem_of_cons in Hin as [?|Hin]; [done|].
    apply elem_of_app in Hin as [Hin|Hin]; [|done].
    by apply (loop_run_not_file _ _ _ _ _ _ _ Hl) in Hin. }
  clear Hin.
  inversion Hf; subst; unfold file_calls in Hin'; destruct (HNSEnabled o) eqn:Hh;
    members Hin'; try discriminate.
  all: match goal with E : Do _ _ = Do _ _ |- _ => injection E as -> -> -> -> end.
  all: split; [done|].
  all: exists (Log LogInfo ("Archiving " +:+ BlobName o) :: t ++ file_calls o file fileInfo acl),
         msg.
  all: unfold file_calls; rewrite Hh; simpl; by rewrite <- !app_assoc.
Qed.


(** X4. [Archive] deletes nothing, and in flat mode it makes no call that
    reads or writes an ACL. *)
Theorem calls_by_mode o w :
  Forall (λ ev, is_delete ev = false) (Archive B o w).2
  ∧ (HNSEnabled o = false → Forall (λ ev, is_acl_call ev = false) (Archive B o w).2).
Proof.
  pose proof (Archive_sound B o w) as H.
  destruct (Archive B o w) as [[out w'] tr]. cbn [fst snd] in *. split.
  - inversion H as [total err t Hl|t out' t' Hl Hf]; subst; constructor; try done.
    + eapply loop_run_Forall; [|done]. apply parent_run_no_delete.
    + apply Forall_app. split; [eapply loop_run_Forall; [|done]; apply parent_run_no_delete|].
      inversion Hf; subst; unfold file_calls; destruct (HNSEnabled o); by repeat constructor.
  - intros Hh.
    inversion H as [total err t Hl|t out' t' Hl Hf]; subst; constructor; try done.
    + eapply loop_run_Forall; [|done]. intros. by eapply parent_run_flat.
    + apply Forall_app. split.
      { eapply loop_run_Forall; [|done]. intros. by eapply parent_run_flat. }
      inversion Hf; subst; unfold file_calls; rewrite ?Hh; try congruence;
        by repeat constructor.
Qed.
End archive_more.

(** The source file cannot be opened. *)
Lemma panic_witness :
  let run := archive.Archive (sim.backend scenario.locked) scenario.flat ∅ in
  archive.url_plain scenario.flat = true
  ∧ run.1.1 = Panicked nil_dereference
  ∧ nil_dereference = nil_dereference
  ∧ ∃ pre ev e, run.2 = pre ++ [ev] ∧ source_failure ev = Some e.
Proof.
  cbv zeta.
  assert ((archive.Archive (sim.backend scenario.locked) scenario.flat ∅).1.1
          = Panicked nil_dereference) as H by (by vm_compute).
  exact (conj eq_refl (conj H
    (panic_only_for_unreadable_source (sim.backend scenario.locked) scenario.flat ∅ _
       eq_refl H))).
Defined.

(** The store refuses the content of [a/b/file.txt]. *)
Lemma content_upload_failure_witness :
  let run := archive.Archive (sim.backend scenario.content_refused) scenario.flat ∅ in
  scenario.refused_content ∈ run.2
  ∧ run.1.1 = Returned 0 (Some (OtherError "507 Insufficient Storage"))
  ∧ ∃ pre msg, run.2 = pre ++ [scenario.refused_content; Log LogError msg].
Proof.
  cbv zeta.
  assert (scenario.refused_content
          ∈ (archive.Archive (sim.backend scenario.content_refused) scenario.flat ∅).2) as Hin.
  { find_event. }
  exact (conj Hin
    (content_upload_failure_is_fatal (sim.backend scenario.content_refused) scenario.flat ∅
       _ _ _ _ Hin)).
Defined.


(** Flat mode, the scenario of the specification. *)
Lemma calls_by_mode_witness :
  let run := archive.Archive (sim.backend scenario.plain) scenario.flat ∅ in
  archive.HNSEnabled scenario.flat = false
  ∧ Forall (λ ev, is_acl_call ev = false) run.2.
Proof.
  cbv zeta.
  assert (archive.HNSEnabled scenario.flat = false) as Hh by reflexivity.
  exact (conj Hh (proj2 (calls_by_mode (sim.backend scenario.plain) scenario.flat ∅) Hh)).
Defined.

(** * The runs of [Archive] call by call, and the rest of the code *)

(** ** Strings *)

Lemma string_length_app (s t : string) :
  String.length (s +:+ t) = (String.length s + String.length t)%nat.
Proof.
  induction s as [|c s IH]; [by rewrite app_empty_l|].
  rewrite app_String. simpl. by rewrite IH.
Qed.

(** ** Events and what comes before them *)

Lemma at_each_nil Q : at_each Q [].
Proof. intros [|? ?] ev post E; discriminate E. Qed.

Lemma at_each_app Q t1 t2 : local Q → at_each Q t1 → at_each Q t2 → at_each Q (t1 ++ t2).
Proof.
  intros HQ H1 H2 pre ev post E.
  apply app_eq_app in E as [l [[-> E]|[-> E]]].
  - destruct l as [|x l]; simpl in E.
    + rewrite <- (app_nil_r pre). apply HQ. by apply (H2 [] ev post).
    + injection E as <- ->. by apply (H1 pre ev l).
  - apply HQ. by apply (H2 l ev post).
Qed.

Lemma at_each_cons Q x t : local Q → Q [] x → at_each Q t → at_each Q (x :: t).
Proof.
  intros HQ Hx Ht. apply (at_each_app Q [x] t); [done| |done].
  intros [|? [|? ?]] ev post E; try discriminate E. by injection E as <- _.
Qed.

Section archive_traces.
Context {W Cred Pace : Type} (B : Backend W).
Import archive runs.
Implicit Types (o : ArchiveOptions Cred Pace) (w : W).

Lemma loop_run_at_each o Q ps u d r tr :
  local Q →
  (∀ u d r tr, parent_run o u d r tr → at_each Q tr) →
  loop_run o ps u d r tr → at_each Q tr.
Proof.
  intros HQ HP. induction 1; [apply at_each_nil|by eapply HP|].
  apply at_each_app; [done|by eapply HP|done].
Qed.

Lemma archive_run_at_each o Q out tr :
  local Q →
  Q [] (Log LogInfo ("Archiving " +:+ BlobName o)) →
  (∀ u d r tr, parent_run o u d r tr → at_each Q tr) →
  (∀ out tr, file_run o (blobURL o) out tr → at_each Q tr) →
  archive_run o out tr → at_each Q tr.
Proof.
  intros HQ H0 HP HF. inversion_clear 1.
  - apply at_each_cons; [done..|]. by eapply loop_run_at_each.
  - apply at_each_cons; [done..|]. apply at_each_app; [done| |by eapply HF].
    by eapply loop_run_at_each.
Qed.
End archive_traces.

(** ** How [Archive] ends *)

Section archive_outcomes.
Context {W Cred Pace : Type} (B : Backend W).
Import archive runs.
Implicit Types (o : ArchiveOptions Cred Pace) (w : W).

Lemma parent_calls_calm o u d dir info acl : Forall calm (parent_calls o u d dir info acl).
Proof. unfold parent_calls. destruct (HNSEnabled o); by repeat constructor. Qed.

Lemma file_calls_calm o file info acl : Forall calm (file_calls o file info acl).
Proof. unfold file_calls. destruct (HNSEnabled o); by repeat constructor. Qed.

Lemma parent_run_calm o u d tr : parent_run o u d (Next tt) tr → Forall calm tr.
Proof.
  inversion_clear 1. apply Forall_app. split; [apply parent_calls_calm|].
  destruct (HNSEnabled o); by repeat constructor.
Qed.

Lemma parent_run_failed o u d total err tr :
  parent_run o u d (Return total err) tr →
  total = 0
  ∧ ∃ pre c e msg, err = Some e ∧ tr = pre ++ [Do Parents c; Log LogError msg]
      ∧ call_error c = Some e ∧ Forall calm pre.
Proof.
  inversion_clear 1; (split; [done|]).
  - exists [], (OpenCall d (Err e)), e, msg. by repeat constructor.
  - exists [Do Parents (OpenCall d (Ok dir))], (StatCall dir (Err e)), e, msg.
    by repeat constructor.
  - exists [Do Parents (OpenCall d (Ok dir)); Do Parents (StatCall dir (Ok dirInfo))],
      (GetAccessControlCall u (Err e)), e, msg.
    by repeat constructor.
  - exists (parent_calls o u d dir dirInfo acl),
      (UploadCall u "" (dir_metadata o dirInfo) (Some e)), e, msg.
    repeat split; try done. apply parent_calls_calm.
  - exists (parent_calls o u d dir dirInfo acl
            ++ [Do Parents (UploadCall u "" (dir_metadata o dirInfo) None)]),
      (SetAccessControlCall u acl (Some e)), e, msg.
    repeat split; try done; [by rewrite <- app_assoc|].
    apply Forall_app. split; [apply parent_calls_calm|by repeat constructor].
Qed.

Lemma loop_run_calm o ps u d tr : loop_run o ps u d (Next tt) tr → Forall calm tr.
Proof.
  intros H. remember (Next tt) as r eqn:E.
  induction H as [| |c ps u d tr r tr' Hp Hl IH]; [constructor|done|].
  apply Forall_app. split; [by apply parent_run_calm in Hp|by apply IH].
Qed.

Lemma loop_run_failed o ps u d total err tr :
  loop_run o ps u d (Return total err) tr →
  total = 0
  ∧ ∃ pre c e msg, err = Some e ∧ tr = pre ++ [Do Parents c; Log LogError msg]
      ∧ call_error c = Some e ∧ Forall calm pre.
Proof.
  intros H. remember (Return total err) as r eqn:E.
  induction H as [|c ps u d total' err' tr Hp|c ps u d tr r tr' Hp Hl IH]; [done|..].
  - injection E as -> ->. by apply parent_run_failed in Hp.
  - destruct (IH E) as (? & pre & c' & e & msg & ? & -> & ? & ?). split; [done|].
    exists (tr ++ pre), c', e, msg. repeat split; [done|by rewrite app_assoc|done|].
    apply Forall_app. split; [by apply parent_run_calm in Hp|done].
Qed.

(** The three ways the second part ends. *)
Lemma file_run_cases o u out tr :
  file_run o u out tr →
  (∃ total, out = Returned total None ∧ Forall calm tr)
  ∨ (∃ total e pre c msg,
       out = Returned total (Some e)
       ∧ tr = pre ++ [Do TheFile c; Log LogError msg]
       ∧ call_error c = Some e ∧ Forall calm pre
       ∧ (total ≠ 0 → ∃ acl, c = SetAccessControlCall (dfsURL o) acl (Some e)))
  ∨ (∃ pre ev e,
       out = Panicked nil_dereference ∧ tr = pre ++ [ev]
       ∧ source_failure ev = Some e ∧ Forall calm pre).
Proof.
  inversion_clear 1.
  - right. right. exists [], (Do TheFile (OpenCall (SourcePath o) (Err e))), e.
    by repeat constructor.
  - right. right.
    exists [Do TheFile (OpenCall (SourcePath o) (Ok file))],
      (Do TheFile (StatCall file (Err e))), e.
    by repeat constructor.
  - right. left.
    exists 0, e, [Do TheFile (OpenCall (SourcePath o) (Ok file));
                  Do TheFile (StatCall file (Ok fileInfo))],
      (GetAccessControlCall (dfsURL o) (Err e)), msg.
    by repeat constructor.
  - right. left.
    exists 0, e, (file_calls o file fileInfo acl),
      (UploadFileCall (Some file) u (file_options o fileInfo) (Some e)), msg.
    repeat split; try done. apply file_calls_calm.
  - left. exists (Size fileInfo). split; [done|].
    apply Forall_app. split; [apply file_calls_calm|by repeat constructor].
  - left. exists (Size fileInfo). split; [done|].
    apply Forall_app. split; [apply file_calls_calm|by repeat constructor].
  - right. left.
    exists (Size fileInfo), e,
      (file_calls o file fileInfo acl
       ++ [Do TheFile (UploadFileCall (Some file) u (file_options o fileInfo) None)]),
      (SetAccessControlCall (dfsURL o) acl (Some e)), msg.
    repeat split; try done.
    + by rewrite <- app_assoc.
    + apply Forall_app. split; [apply file_calls_calm|by repeat constructor].
    + by exists acl.
Qed.

Lemma calm_no_failure (tr : list Event) : Forall calm tr → Forall (λ ev, failure ev = None) tr.
Proof. intros H. eapply Forall_impl; [exact H|]. by intros ev [? _]. Qed.

Lemma failure_in_trace (pre post : list Event) s c e :
  call_error c = Some e → ¬ Forall (λ ev, failure ev = None) (pre ++ Do s c :: post).
Proof.
  intros Hc H. apply Forall_app in H as [_ H]. inversion_clear H as [|? ? H1 _].
  simpl in H1. congruence.
Qed.

(** X5. For options whose URL strings [url.Parse] takes as they are,
    [Archive] returns a nil error exactly when every call it made to the
    filesystem and to the store succeeded.  (For other options the nil
    URL of a refused string makes [Archive] panic after calls that all
    succeeded.) *)
Theorem Archive_succeeds_iff_every_call_does o w :
  url_plain o = true →
  (∃ total, (Archive B o w).1.1 = Returned total None)
  ↔ Forall (λ ev, failure ev = None) (Archive B o w).2.
Proof.
  intros _.
  pose proof (Archive_sound B o w) as H.
  destruct (Archive B o w) as [[out w'] tr]. cbn [fst snd] in *.
  inversion H as [total err t Hl|t out' t' Hl Hf]; subst.
  - apply loop_run_failed in Hl as (-> & pre & c & e & msg & -> & -> & Hc & _).
    split; [by intros [? ?]|]. intros Hall. exfalso.
    by apply (failure_in_trace (Log LogInfo ("Archiving " +:+ BlobName o) :: pre)
                [Log LogError msg] Parents c e).
  - apply loop_run_calm, calm_no_failure in Hl.
    apply file_run_cases in Hf
      as [(total & -> & Hc)|[(total & e & pre & c & msg & -> & -> & Hc & _)
                              |(pre & ev & e & -> & -> & Hc & _)]].
    + split; [intros _|by exists total].
      constructor; [done|]. apply Forall_app. split; [done|by apply calm_no_failure].
    + split; [by intros [? ?]|]. intros Hall. exfalso.
      apply (failure_in_trace (Log LogInfo ("Archiving " +:+ BlobName o) :: t ++ pre)
               [Log LogError msg] TheFile c e Hc).
      simpl. by rewrite <- app_assoc.
    + split; [by intros [? ?]|]. intros Hall. exfalso.
      destruct ev as [|s c]; [done|].
      apply (failure_in_trace (Log LogInfo ("Archiving " +:+ BlobName o) :: t ++ pre)
               [] s c e).
      * by destruct s, c.
      * simpl. by rewrite <- app_assoc.
Qed.


Lemma loop_run_no_content o ps u d r tr :
  loop_run o ps u d r tr → Forall (λ ev, is_content_upload ev = false) tr.
Proof.
  apply loop_run_Forall. clear. intros u d r tr.
  inversion_clear 1; unfold parent_calls; destruct (HNSEnabled o); by repeat constructor.
Qed.

End archive_outcomes.

(** ** The calls of directory replication, one by one *)

Lemma split_in_app {A} (t1 t2 pre post : list A) (x : A) :
  t1 ++ t2 = pre ++ x :: post → x ∉ t2 → ∃ post1, t1 = pre ++ x :: post1 ∧ post = post1 ++ t2.
Proof.
  intros E Hx. apply app_eq_app in E as [l [[-> E]|[-> E]]].
  - destruct l as [|y l]; simpl in E.
    + subst t2. exfalso. apply Hx. left.
    + injection E as <- ->. by exists l.
  - exfalso. apply Hx. subst t2. apply elem_of_app. right. left.
Qed.

Section archive_rounds.
Context {W Cred Pace : Type} (B : Backend W).
Import archive runs.
Implicit Types (o : ArchiveOptions Cred Pace) (w : W).

Lemma local_copies_acl : local copies_acl.
Proof.
  intros t pre ev H s u acl err E.
  destruct (H s u acl err E) as (pre' & up & -> & ? & ?).
  exists (t ++ pre'), up. by rewrite <- app_assoc.
Qed.

Lemma parent_run_copies_acl o u d r tr : parent_run o u d r tr → at_each copies_acl tr.
Proof.
  inversion_clear 1; unfold parent_calls; destruct (HNSEnabled o); try done.
  all: intros pre ev post E; simpl in E; positions pre E.
  all: intros s' u' acl' err' E'; try discriminate E'.
  all: injection E' as <- <- <- <-.
  all: by eexists [_; _], _.
Qed.

Lemma file_run_copies_acl o u out tr : file_run o u out tr → at_each copies_acl tr.
Proof.
  inversion_clear 1; unfold file_calls; destruct (HNSEnabled o); try done.
  all: intros pre ev post E; simpl in E; positions pre E.
  all: intros s' u' acl' err' E'; try discriminate E'.
  all: injection E' as <- <- <- <-.
  all: by eexists [_; _], _.
Qed.

(** X8. Every write of an ACL that [Archive] makes carries the ACL that it
    fetched, two calls before, from the very URL it writes to, the upload
    that succeeded standing between the two: the ACL of an object comes
    from the store, never from the local file or directory. *)
Theorem written_acl_is_the_fetched_one o w pre s u acl err post :
  (Archive B o w).2 = pre ++ Do s (SetAccessControlCall u acl err) :: post →
  ∃ pre' up,
    pre = pre' ++ [Do s (GetAccessControlCall u (Ok acl)); Do s up]
    ∧ is_upload up = true ∧ call_error up = None.
Proof.
  pose proof (Archive_sound B o w) as H.
  destruct (Archive B o w) as [[out w'] tr]. cbn [fst snd] in *. intros E.
  eapply (archive_run_at_each o copies_acl) in H.
  - by eapply (H pre _ post E).
  - apply local_copies_acl.
  - by intros ? ? ? ? ?.
  - apply parent_run_copies_acl.
  - apply file_run_copies_acl.
Qed.

Lemma dir_metadata_flat o info :
  HNSEnabled o = false →
  dir_metadata o info !! "hdi_isfolder" = Some "true"
  ∧ four_keys (delete "hdi_isfolder" (dir_metadata o info)) info.
Proof.
  intros Hh. unfold dir_metadata. rewrite Hh. split; [done|].
  rewrite !delete_insert_ne, delete_insert_eq, delete_empty by done.
  apply file_metadata_keys.
Qed.

(** One round: the placeholder upload comes right after the open and the
    stat of the directory (and the fetch of the ACL). *)
Lemma parent_run_placeholder o u d r tr pre u' body meta err post :
  parent_run o u d r tr →
  tr = pre ++ Do Parents (UploadCall u' body meta err) :: post →
  ∃ dir info acl,
    u' = u ∧ pre = parent_calls o u d dir info acl
    ∧ body = "" ∧ meta = dir_metadata o info.
Proof.
  inversion_clear 1; unfold parent_calls; destruct (HNSEnabled o); try done.
  all: intros E; simpl in E; positions pre E.
  all: first [by eexists _, _, "" | by eexists _, _, _].
Qed.

Lemma loop_run_placeholder o ps u d r tr pre u' body meta err post :
  loop_run o ps u d r tr →
  tr = pre ++ Do Parents (UploadCall u' body meta err) :: post →
  ∃ i d' dir info acl pre',
    parent_paths d ps !! i = Some d'
    ∧ parent_paths (Path u) ps !! i = Some (Path u')
    ∧ u' = set_Path u (Path u')
    ∧ pre = pre' ++ parent_calls o u' d' dir info acl
    ∧ body = "" ∧ meta = dir_metadata o info.
Proof.
  intros H. revert pre post.
  induction H as [u d|c ps u d total err0 tr Hp|c ps u d tr r tr' Hp Hl IH];
    intros pre post E.
  - by destruct pre.
  - destruct (parent_run_placeholder _ _ _ _ _ _ _ _ _ _ _ Hp E)
      as (dir & info & acl & -> & -> & -> & ->).
    by exists O, (path_Join [d; c]), dir, info, acl, [].
  - apply app_eq_app in E as [l [[-> E]|[-> E]]].
    + destruct l as [|x l]; simpl in E.
      * destruct (IH [] post (eq_sym E)) as (i & d' & dir & info & acl & pre' & ? & ? & ? & Hpre & ? & ?).
        exists (S i), d', dir, info, acl, (pre ++ pre').
        repeat split; try done; try (by destruct u).
        by rewrite <- app_assoc, <- Hpre, app_nil_r.
      * injection E as <- ->.
        destruct (parent_run_placeholder _ _ _ _ _ _ _ _ _ _ _ Hp eq_refl)
          as (dir & info & acl & -> & -> & -> & ->).
        by exists O, (path_Join [d; c]), dir, info, acl, [].
    + destruct (IH l post E) as (i & d' & dir & info & acl & pre' & ? & ? & ? & -> & ? & ?).
      exists (S i), d', dir, info, acl, (tr ++ pre').
      repeat split; try done; try (by destruct u).
      by rewrite <- app_assoc.
Qed.

End archive_rounds.

(** ** The keys of [Archive] and the key of [Remove] *)

Lemma rooted_Clean (p : string) : p ≠ "" → rooted (path_Clean p) = rooted p.
Proof.
  intros Hp. rewrite path_Clean_elements. unfold Clean_elements.
  case_decide; [done|]. apply rooted_render, clean_stack_buffer.
Qed.

Lemma Join_two (p c : string) : p ≠ "" → path_Join [p; c] = path_Clean (p +:+ "/" +:+ c).
Proof. intros Hp. unfold path_Join. simpl. by case_decide. Qed.

Lemma parent_paths_clean (p : string) (ps : list string) :
  rooted p = true →
  Forall (λ q, rooted q = true ∧ path_Clean q = q) (archive.parent_paths p ps).
Proof.
  revert p. induction ps as [|c ps IH]; intros p Hr; [constructor|].
  pose proof (rooted_nonempty _ Hr) as Hp. cbn [archive.parent_paths].
  assert (rooted (path_Join [p; c]) = true) as Hr'.
  { rewrite Join_two, rooted_Clean, rooted_app by
      (done || intros E; by apply app_eq_empty in E as [? _]). done. }
  constructor; [|by apply IH]. split; [done|].
  rewrite Join_two by done. apply Clean_idempotent.
Qed.

(** An empty element in the middle leaves no trace in the join. *)
Lemma Join_skips_empty (c n : string) : c ≠ "" → path_Join [c; ""; n] = path_Join [c; n].
Proof.
  intros Hc. unfold path_Join. simpl. case_decide; [done|].
  change (c +:+ "/" +:+ "" +:+ "/" +:+ n) with (c +:+ "/" +:+ ("" +:+ "/" +:+ n)).
  rewrite !path_Clean_elements. unfold Clean_elements.
  repeat case_decide; try done;
    try (match goal with E : _ +:+ _ = "" |- _ => by apply app_eq_empty in E as [? _] end).
  rewrite !rooted_app, !clean_stack_app by done.
  change (strings_Join [""; n]) with ("" +:+ "/" +:+ n). change (strings_Join [n]) with n.
  by rewrite Split_app.
Qed.

Lemma fold_clean_proper rt (ns out : list string) :
  Forall proper_name ns → fold_left (clean_elem rt) ns out = rev ns ++ out.
Proof.
  intros H. revert out. induction H as [|e ns (H1 & H2 & H3) _ IH]; intros out; [done|].
  simpl. rewrite IH. unfold clean_elem. repeat case_decide; try done.
  by rewrite <- app_assoc.
Qed.

Lemma Join_Split (s : string) : strings_Join (strings_Split s) = s.
Proof.
  induction s as [|c s IH]; [done|]. simpl. case_decide as Hc.
  - pose proof (Split_nonempty s) as Hn. destruct (strings_Split s) as [|h t] eqn:E; [done|].
    change (strings_Join ("" :: h :: t)) with ("" +:+ "/" +:+ strings_Join (h :: t)).
    rewrite IH, app_empty_l, app_String, app_empty_l. by rewrite Hc.
  - pose proof (Split_nonempty s) as Hn. destruct (strings_Split s) as [|h t] eqn:E; [done|].
    destruct t as [|h' t].
    + simpl in *. by rewrite IH.
    + change (strings_Join (String c h :: h' :: t))
        with (String c h +:+ "/" +:+ strings_Join (h' :: t)).
      change (strings_Join (h :: h' :: t)) with (h +:+ "/" +:+ strings_Join (h' :: t)) in IH.
      by rewrite app_String, IH.
Qed.

(** The join of a container and an object name made of proper names is
    the two with a slash between them. *)
Lemma Join_proper (c n : string) :
  proper_name c → has_sep c = false → Forall proper_name (strings_Split n) →
  path_Join [c; n] = c +:+ "/" +:+ n.
Proof.
  intros Hc Hs Hn. destruct Hc as (Hc1 & Hc2 & Hc3).
  rewrite Join_two, path_Clean_elements by done. unfold Clean_elements.
  case_decide as E; [by apply app_eq_empty in E as [? _]|].
  rewrite rooted_app, clean_stack_app, (rooted_no_sep c) by done.
  unfold clean_stack. rewrite (Split_no_sep c), (rooted_no_sep c) by done.
  assert (fold_left (clean_elem false) [c] [] = [c]) as ->.
  { simpl. unfold clean_elem. by repeat case_decide. }
  rewrite fold_clean_proper by done. unfold render.
  pose proof (Split_nonempty n) as Hne.
  destruct (rev (strings_Split n) ++ [c]) as [|a l] eqn:El.
  { by destruct (rev (strings_Split n)). }
  rewrite <- El, rev_app_distr, rev_involutive. simpl rev. simpl app.
  destruct (strings_Split n) as [|h t] eqn:En; [done|].
  change (strings_Join (c :: h :: t)) with (c +:+ "/" +:+ strings_Join (h :: t)).
  by rewrite <- En, Join_Split.
Qed.

Lemma last_byte_no_sep (c : string) :
  c ≠ "" → has_sep c = false → last_byte ("/" +:+ c) ≠ Some "/"%char.
Proof.
  intros Hc Hs. rewrite app_String, app_empty_l. 
  cut (last_byte c ≠ Some "/"%char); [by destruct c|].
  clear Hc. induction c as [|a c IH]; [done|].
  simpl in Hs. unfold os_PathSeparator in Hs. case_decide; [done|].
  simpl. destruct c; [congruence|]. by apply IH.
Qed.

Section archive_keys.
Context {W Cred Pace : Type} (B : Backend W).
Import archive runs.
Implicit Types (o : ArchiveOptions Cred Pace) (w : W).

Lemma content_upload_URL o w f u opts err :
  Do TheFile (UploadFileCall f u opts err) ∈ (Archive B o w).2 → u = blobURL o.
Proof.
  pose proof (Archive_sound B o w) as H.
  destruct (Archive B o w) as [[out w'] tr]. cbn [fst snd] in *. intros Hin.
  inversion H as [total err' t Hl|t out' t' Hl Hf]; subst.
  { exfalso. apply elem_of_cons in Hin as [?|Hin]; [done|].
    by apply (loop_run_not_file _ _ _ _ _ _ _ Hl) in Hin. }
  assert (Do TheFile (UploadFileCall f u opts err) ∈ t') as Hin'.
  { apply elem_of_cons in Hin as [?|Hin]; [done|].
    apply elem_of_app in Hin as [Hin|Hin]; [|done].
    by apply (loop_run_not_file _ _ _ _ _ _ _ Hl) in Hin. }
  clear Hin.
  inversion Hf; subst; unfold file_calls in Hin'; destruct (HNSEnabled o);
    members Hin'; try discriminate.
  all: by match goal with E : Do _ _ = Do _ _ |- _ => injection E as -> -> -> -> end.
Qed.

(** X10. The keys of the placeholders are normalised and the key of the
    content is not: every placeholder goes to a path that starts with a
    slash and that [path.Clean] leaves as it is, whatever the object name
    looks like, while the path of the content upload ends with the object
    name as it was given. *)
Theorem placeholder_keys_are_clean o w :
  Forall (λ p, rooted p = true ∧ path_Clean p = p)
    (placeholder_paths (placeholder_uploads (Archive B o w).2))
  ∧ ∀ f u opts err,
      Do TheFile (UploadFileCall f u opts err) ∈ (Archive B o w).2 →
      ∃ p, Path u = p +:+ BlobName o.
Proof.
  split.
  - pose proof (Archive_sound B o w) as H.
    destruct (Archive B o w) as [[out w'] tr]. cbn [fst snd] in *.
    assert (∃ t t' r, tr = Log LogInfo ("Archiving " +:+ BlobName o) :: t ++ t'
              ∧ loop_run o (parents o) (cURL o) (MountRoot o) r t
              ∧ placeholder_uploads t' = []) as (t & t' & r & -> & Hl & Ht').
    { inversion H as [total err t Hl|t out' t' Hl Hf]; subst.
      - exists t, [], (Return total err). by rewrite app_nil_r.
      - exists t, t', (Next tt). repeat split; try done. by eapply file_run_uploads. }
    apply loop_run_uploads in Hl as (infos & _ & _ & Hu).
    cbn [placeholder_uploads]. rewrite placeholder_uploads_app, Ht', app_nil_r, Hu.
    rewrite paths_of_uploads. apply Forall_take. by apply parent_paths_clean.
  - intros f u opts err Hin. apply content_upload_URL in Hin as ->.
    unfold blobURL, appendToURLPath. simpl. by eexists.
Qed.
End archive_keys.

Lemma Remove_key_proper {Cred : Type} (r : remove.RemoveOptions Cred) :
  remove.ExportPrefix r = "" →
  proper_name (remove.ContainerName r) → has_sep (remove.ContainerName r) = false →
  Forall proper_name (strings_Split (remove.BlobName r)) →
  remove.blobPath r = remove.ContainerName r +:+ "/" +:+ remove.BlobName r.
Proof.
  intros Hp Hc Hs Hn. unfold remove.blobPath. rewrite Hp.
  destruct Hc as (Hc1 & ? & ?). by rewrite Join_skips_empty, Join_proper.
Qed.

Lemma plain_key (c n : string) :
  plain_path c = true → plain_path n = true → plain_path (c +:+ "/" +:+ n) = true.
Proof. unfold plain_path. intros Hc Hn. by rewrite !all_bytes_app, Hc, Hn. Qed.

(** X11. Let account, container, object name and access token be plain,
    so that [url.Parse] takes the URL strings as they are.  For a container
    that is one proper name and an object name whose segments are all
    proper names (not empty, neither ["."] nor [".."]), [Remove] with an
    empty export prefix deletes the very URL that [Archive] uploads the
    content to: same service, same path, same access token. *)
Theorem Remove_addresses_the_archived_blob {W Cred Pace : Type}
    (url_Parse : string → option Parsed) (B : Backend W)
    (a : archive.ArchiveOptions Cred Pace) (r : remove.RemoveOptions Cred) (w w' : W)
    f u opts err :
  takes_plain url_Parse →
  remove.AccountName r = archive.AccountName a →
  remove.ContainerName r = archive.ContainerName a →
  remove.ResourceSAS r = archive.ResourceSAS a →
  remove.BlobName r = archive.BlobName a →
  remove.ExportPrefix r = "" →
  plain_host (archive.AccountName a) = true →
  plain_path (archive.ContainerName a) = true →
  plain_path (archive.BlobName a) = true →
  plain_query (archive.ResourceSAS a) = true →
  proper_name (archive.ContainerName a) → has_sep (archive.ContainerName a) = false →
  Forall proper_name (strings_Split (archive.BlobName a)) →
  Do TheFile (UploadFileCall f u opts err) ∈ (archive.Archive B a w).2 →
  ∃ msg e,
    (remove.Remove url_Parse B r w').2
    = [Log LogInfo msg; Do TheBlob (DeleteCall u DeleteSnapshotsOptionInclude e)].
Proof.
  intros Hplain Ha Hc Hs Hn Hp Hpa Hpc Hpn Hps Hc1 Hc2 Hn1 Hin.
  apply content_upload_URL in Hin as ->.
  unfold remove.Remove. rewrite Remove_key_proper by (by rewrite ?Hc, ?Hn).
  rewrite Ha, Hc, Hs, Hn, Hplain; try done; cycle 1.
  { unfold flat_host, plain_host in *. by rewrite all_bytes_app, Hpa. }
  { by apply plain_key. }
  unfold bind, call, util_Log, ret. simpl.
  destruct (Delete B _ DeleteSnapshotsOptionInclude w') as [e w''] eqn:E. simpl.
  eexists _, e. f_equal. f_equal. f_equal.
  unfold runs.blobURL, runs.cURL, appendToURLPath, mkURL. simpl.
  destruct Hc1 as (Hc1 & ? & ?).
  case_decide as Hl; [by apply last_byte_no_sep in Hl|].
  f_equal. by rewrite !app_assoc_s.
Qed.

(** ** Instances *)



(** The ACL of the file [a/f] goes back to where it came from. *)
Lemma written_acl_witness :
  let tr := (archive.Archive (sim.backend scenario.plain_hns) scenario.hns
               sim.archived_before).2 in
  tr = take 10 tr ++ cases.acl_write :: drop 11 tr
  ∧ ∃ pre' up,
      take 10 tr
      = pre' ++ [Do TheFile (GetAccessControlCall (archive.dfsURL scenario.hns)
                               (Ok "user::rw-,group::r--,other::---"));
                 Do TheFile up]
      ∧ is_upload up = true ∧ call_error up = None.
Proof.
  cbv zeta.
  assert ((archive.Archive (sim.backend scenario.plain_hns) scenario.hns
             sim.archived_before).2
          = take 10 (archive.Archive (sim.backend scenario.plain_hns) scenario.hns
                       sim.archived_before).2
            ++ cases.acl_write
               :: drop 11 (archive.Archive (sim.backend scenario.plain_hns) scenario.hns
                             sim.archived_before).2) as E.
  { by vm_compute. }
  exact (conj E
    (written_acl_is_the_fetched_one (sim.backend scenario.plain_hns) scenario.hns
       sim.archived_before _ _ _ _ _ _ E)).
Defined.


(** The scenario of the specification: every call succeeds and [Archive]
    returns the 4096 bytes of the file. *)
Lemma Archive_succeeds_witness :
  let run := archive.Archive (sim.backend scenario.plain) scenario.flat ∅ in
  archive.url_plain scenario.flat = true
  ∧ run.1.1 = Returned 4096 None
  ∧ Forall (λ ev, failure ev = None) run.2.
Proof.
  cbv zeta.
  assert ((archive.Archive (sim.backend scenario.plain) scenario.flat ∅).1.1
          = Returned 4096 None) as H by (by vm_compute).
  exact (conj eq_refl (conj H
    (proj1 (Archive_succeeds_iff_every_call_does (sim.backend scenario.plain)
              scenario.flat ∅ eq_refl) (ex_intro _ 4096 H)))).
Defined.

(** The scenario of the specification with an empty export prefix. *)
Lemma Remove_addresses_witness :
  let fx := sim.backend scenario.plain in
  takes_plain sim.url_Parse
  ∧ cases.content ∈ (archive.Archive fx cases.no_prefix ∅).2
  ∧ proper_name "c" ∧ Forall proper_name ["a"; "b"; "file.txt"]
  ∧ ∃ msg e,
      (remove.Remove sim.url_Parse fx cases.no_prefix_remove ∅).2
      = [Log LogInfo msg;
         Do TheBlob (DeleteCall (runs.blobURL cases.no_prefix) DeleteSnapshotsOptionInclude e)].
Proof.
  cbv zeta.
  assert (cases.content
          ∈ (archive.Archive (sim.backend scenario.plain) cases.no_prefix ∅).2) as Hin.
  { find_event. }
  assert (proper_name "c") as Hc by (by repeat split).
  assert (Forall proper_name ["a"; "b"; "file.txt"]) as Hn.
  { by repeat constructor. }
  exact (conj sim_takes_plain (conj Hin (conj Hc (conj Hn
    (Remove_addresses_the_archived_blob sim.url_Parse (sim.backend scenario.plain)
       cases.no_prefix cases.no_prefix_remove ∅ ∅ _ _ _ _ sim_takes_plain
       eq_refl eq_refl eq_refl eq_refl eq_refl eq_refl eq_refl eq_refl eq_refl
       Hc eq_refl Hn Hin))))).
Defined.

(** ** cmd/lfs: [getFilePaths] *)

Section getFilePaths_facts.
Import lfs.

Lemma read_bytes_tail (tail : string) (e : read_error) :
  has_NUL tail = false → read_bytes NUL tail e = (tail, Some e, "").
Proof.
  induction tail as [|c tail IH]; [done|]. simpl.
  case_decide; [done|]. intros Hn. by rewrite IH.
Qed.

Lemma read_bytes_path (p rest : string) (e : read_error) :
  has_NUL p = false →
  read_bytes NUL (p +:+ String NUL rest) e = (p +:+ String NUL "", None, rest).
Proof.
  induction p as [|c p IH].
  - intros _. rewrite !app_empty_l. cbn [read_bytes]. by case_decide.
  - cbn [has_NUL]. case_decide; [done|]. intros Hn. rewrite !app_String.
    cbn [read_bytes]. case_decide; [done|]. by rewrite IH.
Qed.

Lemma but_last_NUL (p : string) : but_last (p +:+ String NUL "") = Some p.
Proof.
  induction p as [|c p IH]; [done|]. rewrite app_String. simpl. rewrite IH.
  by destruct p.
Qed.

Lemma print0_app (p : string) (ps : list string) (tail : string) :
  print0 (p :: ps) +:+ tail = p +:+ String NUL (print0 ps +:+ tail).
Proof. simpl. by rewrite app_assoc_s, app_String. Qed.

Lemma ReadBytes_print0 (ps : list string) (tail : string) (e : read_error) :
  Forall (λ p, has_NUL p = false) ps → has_NUL tail = false →
  ReadBytes NUL {| unread := print0 ps +:+ tail; ending := e |}
  = match ps with
    | [] => (tail, Some e, {| unread := ""; ending := e |})
    | p :: ps' => (p +:+ String NUL "", None, {| unread := print0 ps' +:+ tail; ending := e |})
    end.
Proof.
  intros Hps Ht. unfold ReadBytes. cbn [unread ending]. destruct ps as [|p ps].
  - simpl print0. by rewrite app_empty_l, read_bytes_tail.
  - inversion_clear Hps. by rewrite print0_app, read_bytes_path.
Qed.

(** The loop hands over the paths of the input one by one. *)
Lemma read_loop_print0 (ps : list string) (tail : string) (e : read_error) :
  Forall (λ p, has_NUL p = false) ps → has_NUL tail = false →
  ∀ (fuel : nat) (acc : list string) (p : string),
    (length ps < fuel)%nat →
    read_loop fuel {| unread := print0 ps +:+ tail; ending := e |} acc
      (p +:+ String NUL "") None
    = Done (acc ++ p :: ps, e).
Proof.
  intros Hps Ht. induction Hps as [|p' ps Hp' Hps IH]; intros fuel acc p Hf.
  - destruct fuel as [|fuel]; [lia|]. cbn [read_loop]. rewrite but_last_NUL.
    rewrite ReadBytes_print0 by done. by destruct fuel.
  - destruct fuel as [|fuel]; [simpl in Hf; lia|]. cbn [read_loop].
    rewrite but_last_NUL, ReadBytes_print0 by (done || by constructor).
    rewrite IH by (simpl in Hf; lia). by rewrite <- app_assoc.
Qed.

Lemma print0_length (ps : list string) (tail : string) :
  (length ps ≤ String.length (print0 ps +:+ tail))%nat.
Proof.
  induction ps as [|p ps IH]; [simpl; lia|]. rewrite print0_app.
  rewrite string_length_app. simpl. lia.
Qed.

(** Every input is a sequence of paths that end in a zero byte, and a rest
    without one. *)
Lemma print0_decompose (s : string) :
  ∃ ps tail, s = print0 ps +:+ tail
             ∧ Forall (λ p, has_NUL p = false) ps ∧ has_NUL tail = false.
Proof.
  induction s as [|c s (ps & tail & -> & Hps & Ht)].
  - by exists [], "".
  - destruct (decide (c = NUL)) as [->|Hc].
    + exists ("" :: ps), tail. split; [|by repeat constructor].
      by rewrite print0_app, app_empty_l.
    + destruct ps as [|p ps].
      * exists [], (String c tail). simpl print0. rewrite !app_empty_l.
        repeat split; [constructor|]. simpl. by case_decide.
      * exists (String c p :: ps), tail. inversion_clear Hps.
        rewrite !print0_app, app_String. repeat split; [|done].
        constructor; [|done]. simpl. by case_decide.
Qed.

Lemma getFilePaths_print0 (c : Context) (ps : list string) (tail : string) (e : read_error) :
  Bool c "null" = true →
  Forall (λ p, has_NUL p = false) ps → has_NUL tail = false →
  getFilePaths c {| unread := print0 ps +:+ tail; ending := e |}
  = Done match e with
         | io_EOF => (ps, None)
         | read_failed err => ([], Some err)
         end.
Proof.
  intros Hc Hps Ht. unfold getFilePaths. rewrite Hc, ReadBytes_print0 by done.
  destruct ps as [|p ps].
  - destruct (String.length _); simpl; by destruct e.
  - inversion_clear Hps. rewrite read_loop_print0; try done.
    + by destruct e.
    + cbn [unread]. pose proof (print0_length (p :: ps) tail) as Hl. simpl in *. lia.
Qed.

(** X12. With the flag [null], [getFilePaths] reads back what
    [find -print0] wrote: for paths free of zero bytes, each followed by a
    zero byte, it returns exactly these paths, in order, and no error.
    Bytes behind the last zero byte are dropped without a word, and no
    input makes the slice expression panic. *)
Theorem getFilePaths_reads_print0 (c : Context) (ps : list string) (tail : string) :
  Bool c "null" = true →
  Forall (λ p, has_NUL p = false) ps → has_NUL tail = false →
  getFilePaths c {| unread := print0 ps +:+ tail; ending := io_EOF |} = Done (ps, None).
Proof. intros. by rewrite getFilePaths_print0. Qed.

(** X13. With the flag [null], an input that ends with an error of the
    read other than [io.EOF] gives [(nil, err)]: the paths read before the
    error are all dropped.  Without the flag the arguments of the command
    line are returned as they are, whatever the input holds. *)
Theorem getFilePaths_read_failure (c : Context) (s : string) (e : error) :
  getFilePaths c {| unread := s; ending := read_failed e |}
  = Done (if Bool c "null" then ([], Some e) else (Args c, None)).
Proof.
  destruct (Bool c "null") eqn:Hc.
  - destruct (print0_decompose s) as (ps & tail & -> & Hps & Ht).
    by rewrite getFilePaths_print0.
  - unfold getFilePaths. by rewrite Hc.
Qed.
End getFilePaths_facts.

(** Three paths, one of them empty, and a fourth that was cut off. *)
Lemma getFilePaths_witness :
  lfs.Bool lfs.null_flag "null" = true
  ∧ Forall (λ p, lfs.has_NUL p = false) lfs.found ∧ lfs.has_NUL lfs.cut_off = false
  ∧ lfs.getFilePaths lfs.null_flag
      {| lfs.unread := lfs.print0 lfs.found +:+ lfs.cut_off; lfs.ending := lfs.io_EOF |}
    = lfs.Done (lfs.found, None).
Proof.
  assert (lfs.Bool lfs.null_flag "null" = true) as Hc by reflexivity.
  assert (Forall (λ p, lfs.has_NUL p = false) lfs.found) as Hps by (by repeat constructor).
  assert (lfs.has_NUL lfs.cut_off = false) as Ht by reflexivity.
  exact (conj Hc (conj Hps (conj Ht
    (getFilePaths_reads_print0 lfs.null_flag lfs.found lfs.cut_off Hc Hps Ht)))).
Defined.

(** ** cmd/lfs: [submitHsmRequest] *)

Section submitHsmRequest_facts.
Import lfs.
Context {W RootDir Fid : Type} (L : Lustre W RootDir Fid).
Implicit Types (w : W) (paths : list string) (fids : list Fid).

Lemma lookups_app (t1 t2 : list (HsmCall RootDir Fid)) :
  lookups (t1 ++ t2) = lookups t1 ++ lookups t2.
Proof. induction t1 as [|[] t1 IH]; simpl; by rewrite ?IH. Qed.

(** [filepath.Abs] asks for the working directory at most, and gives [""]
    when it has an error. *)
Lemma filepath_Abs_calls (path : string) w :
  lookups (filepath_Abs L path w).2 = []
  ∧ Forall (λ c, is_request c = false) (filepath_Abs L path w).2
  ∧ ((filepath_Abs L path w).1.1.2 ≠ None → (filepath_Abs L path w).1.1.1 = "").
Proof.
  unfold filepath_Abs. destruct (rooted path); [done|].
  destruct (os_Getwd L w) as [[wd|e] w1]; simpl; by repeat constructor.
Qed.

Lemma resolve_spec (fsRoot : RootDir) paths :
  ∀ fids w,
    let run := resolve L fsRoot paths fids w in
    Forall (λ c, is_request c = false) run.2
    ∧ map fst (lookups run.2) `prefix_of` paths
    ∧ (∀ pre p e post, lookups run.2 = pre ++ (p, Err e) :: post →
         post = [] ∧ run.1.1 = Err (cannot_resolve p e)
         ∧ ∃ t, run.2 = t ++ [LookupFidCall p (Err e)])
    ∧ (∀ fids', run.1.1 = Ok fids' →
         ∃ new, fids' = fids ++ new ∧ lookups run.2 = zip paths (Ok <$> new)
                ∧ length new = length paths).
Proof.
  induction paths as [|path paths IH]; intros fids w; cbv zeta.
  { simpl. split_and!; [constructor|apply prefix_nil| |].
    - by intros [|? ?] ? ? ? ?.
    - intros fids' [= <-]. exists []. by rewrite app_nil_r. }
  cbn [resolve].
  pose proof (filepath_Abs_calls path w) as (Hl1 & Hr1 & _).
  destruct (filepath_Abs L path w) as [[[absPath e0] w1] t1]. cbn [fst snd] in *.
  destruct (strings_HasPrefix absPath (RootDir_Path L fsRoot)); cbn [negb].
  2: { simpl. rewrite Hl1. split_and!; [done|apply prefix_nil| |done].
       by intros [|? ?] ? ? ? ?. }
  destruct (fs_LookupFid L path w1) as [[fid|e] w2].
  - specialize (IH (fids ++ [fid]) w2). cbv zeta in IH.
    destruct (resolve L fsRoot paths (fids ++ [fid]) w2) as [[r w3] t3].
    cbn [fst snd] in *. destruct IH as (H1 & H2 & H3 & H4).
    rewrite lookups_app, Hl1. cbn [lookups app map fst].
    split_and!.
    + apply Forall_app. split; [done|]. by constructor.
    + by apply prefix_cons.
    + intros pre p e post E. destruct pre as [|x pre]; [discriminate E|].
      injection E as <- E. destruct (H3 pre p e post E) as (-> & -> & t & ->).
      split_and!; [done..|]. exists (t1 ++ LookupFidCall path (Ok fid) :: t).
      by rewrite <- app_assoc.
    + intros fids' E. destruct (H4 fids' E) as (new & -> & -> & Hlen).
      exists (fid :: new). rewrite <- app_assoc. simpl. by rewrite Hlen.
  - cbn [fst snd]. rewrite lookups_app, Hl1. cbn [lookups app map fst].
    split_and!; [|apply prefix_cons, prefix_nil| |done].
    + apply Forall_app. split; [done|]. by repeat constructor.
    + intros pre p e' post E. destruct pre as [|x [|? ?]]; try discriminate E.
      injection E as <- <- <-. split_and!; [done..|]. by exists t1.
Qed.

(** X14. [submitHsmRequest] hands the request over in one piece or not at
    all.  The request function is called at most once, as the last thing,
    only after the filesystem root was found and every path was resolved:
    it gets the archive id and the fids of all the paths, in the order of
    the paths, and its error is what [submitHsmRequest] returns.  A nil
    error comes back only from such a call. *)
Theorem request_is_all_or_nothing (actionName : string)
    (requestFn : option (hsmRequestFn W RootDir Fid)) (archiveID : Z) paths w :
  let run := submitHsmRequest L actionName requestFn archiveID paths w in
  (∀ c, c ∈ run.2 → is_request c = true →
     ∃ path0 rest fsRoot fids t fn,
       paths = path0 :: rest ∧ requestFn = Some fn
       ∧ run.2 = MountRootCall path0 (Ok fsRoot) :: t ++ [c]
       ∧ c = RequestCall fsRoot archiveID fids run.1.1
       ∧ Forall (λ c', is_request c' = false) t
       ∧ lookups t = zip paths (Ok <$> fids)
       ∧ length fids = length paths)
  ∧ (run.1.1 = None → ∃ c, c ∈ run.2 ∧ is_request c = true).
Proof.
  cbv zeta. unfold submitHsmRequest. destruct paths as [|path0 rest].
  { split; [by intros c ?%elem_of_nil|done]. }
  destruct (fs_MountRoot L path0 w) as [[fsRoot|e] w1].
  2: { split; [|done]. intros c Hin Hc. members Hin. done. }
  pose proof (resolve_spec fsRoot (path0 :: rest) [] w1) as (H1 & _ & _ & H4).
  destruct (resolve L fsRoot (path0 :: rest) [] w1) as [[[fids|e] w2] t2];
    cbn [fst snd] in *.
  2: { split; [|done]. intros c Hin Hc. apply elem_of_cons in Hin as [->|Hin]; [done|].
       rewrite Forall_forall in H1. apply H1 in Hin. congruence. }
  destruct (H4 fids eq_refl) as (new & -> & Hl & Hlen).
  destruct requestFn as [fn|].
  2: { split; [|done]. intros c Hin Hc. apply elem_of_cons in Hin as [->|Hin]; [done|].
       rewrite Forall_forall in H1. apply H1 in Hin. congruence. }
  change ([] ++ new) with new.
  destruct (fn fsRoot archiveID new w2) as [err w3]. cbn [fst snd].
  split.
  - intros c Hin Hc. apply elem_of_cons in Hin as [->|Hin]; [done|].
    apply elem_of_app in Hin as [Hin|Hin].
    { rewrite Forall_forall in H1. apply H1 in Hin. congruence. }
    apply list_elem_of_singleton in Hin as ->.
    by exists path0, rest, fsRoot, new, t2, fn.
  - intros _. exists (RequestCall fsRoot archiveID new err). split; [|done].
    apply elem_of_cons. right. apply elem_of_app. right. left.
Qed.

(** X15. The paths are resolved in order and the first failure ends the
    function: the lookups of a run are lookups of the first paths, one
    each, a lookup that failed is the last call of the run, no request is
    made after it, and the error returned names the path and the error of
    the lookup. *)
Theorem lookups_stop_at_the_first_failure (actionName : string)
    (requestFn : option (hsmRequestFn W RootDir Fid)) (archiveID : Z) paths w :
  let run := submitHsmRequest L actionName requestFn archiveID paths w in
  map fst (lookups run.2) `prefix_of` paths
  ∧ ∀ pre p e post, lookups run.2 = pre ++ (p, Err e) :: post →
      post = []
      ∧ run.1.1 = Some (Errorf ("Cannot resolve Fid for " +:+ p +:+ ": " +:+ Error e))
      ∧ ∃ t, run.2 = t ++ [LookupFidCall p (Err e)].
Proof.
  cbv zeta. unfold submitHsmRequest. destruct paths as [|path0 rest].
  { split; [done|]. by intros [|? ?] ? ? ? ?. }
  destruct (fs_MountRoot L path0 w) as [[fsRoot|e] w1].
  2: { split; [apply prefix_nil|]. by intros [|? ?] ? ? ? ?. }
  pose proof (resolve_spec fsRoot (path0 :: rest) [] w1) as (_ & H2 & H3 & H4).
  destruct (resolve L fsRoot (path0 :: rest) [] w1) as [[[fids|e] w2] t2];
    cbn [fst snd] in *.
  - assert (∀ pre p e post, lookups t2 ≠ pre ++ (p, Err e) :: post) as Hok.
    { intros pre p e post E. by destruct (H3 pre p e post E) as (_ & ? & _). }
    destruct requestFn as [fn|].
    + destruct (fn fsRoot archiveID fids w2) as [err w3]. cbn [fst snd lookups].
      rewrite lookups_app. cbn [lookups]. rewrite app_nil_r. split; [done|].
      intros pre p e post E. by apply Hok in E.
    + cbn [fst snd lookups]. split; [done|]. intros pre p e post E. by apply Hok in E.
  - cbn [lookups]. split; [done|]. intros pre p e' post E.
    destruct (H3 pre p e' post E) as (-> & [= ->] & t & ->).
    split_and!; [done..|]. by exists (MountRootCall path0 (Ok fsRoot) :: t).
Qed.

Lemma HasPrefix_empty (prefix : string) : prefix ≠ "" → strings_HasPrefix "" prefix = false.
Proof. by destruct prefix. Qed.

Lemma resolve_getwd (fsRoot : RootDir) paths :
  RootDir_Path L fsRoot ≠ "" →
  ∀ fids w e,
    let run := resolve L fsRoot paths fids w in
    GetwdCall (Err e) ∈ run.2 →
    ∃ t path,
      run.2 = t ++ [GetwdCall (Err e)] ∧ path ∈ paths ∧ rooted path = false
      ∧ run.1.1 = Err (outside_filesystem path (RootDir_String L fsRoot)).
Proof.
  intros Hp. induction paths as [|path paths IH]; intros fids w e; cbv zeta.
  { by intros ?%elem_of_nil. }
  cbn [resolve]. unfold filepath_Abs.
  destruct (rooted path) eqn:Hr.
  - destruct (strings_HasPrefix _ _); cbn [negb].
    2: { by intros ?%elem_of_nil. }
    destruct (fs_LookupFid L path w) as [[fid|e'] w2].
    + specialize (IH (fids ++ [fid]) w2 e). cbv zeta in IH.
      destruct (resolve L fsRoot paths (fids ++ [fid]) w2) as [[r w3] t3].
      cbn [fst snd app] in *. intros Hin. apply elem_of_cons in Hin as [?|Hin]; [done|].
      destruct (IH Hin) as (t & path' & -> & ? & ? & ->).
      exists (LookupFidCall path (Ok fid) :: t), path'.
      split_and!; try done. by right.
    + cbn [fst snd app]. intros Hin. members Hin.
  - destruct (os_Getwd L w) as [[wd|e0] w1].
    + destruct (strings_HasPrefix _ _); cbn [negb].
      2: { cbn [snd]. intros Hin. members Hin. }
      destruct (fs_LookupFid L path w1) as [[fid|e'] w2].
      * specialize (IH (fids ++ [fid]) w2 e). cbv zeta in IH.
        destruct (resolve L fsRoot paths (fids ++ [fid]) w2) as [[r w3] t3].
        cbn [fst snd app] in *. intros Hin.
        apply elem_of_cons in Hin as [?|Hin]; [done|].
        apply elem_of_cons in Hin as [?|Hin]; [done|].
        destruct (IH Hin) as (t & path' & -> & ? & ? & ->).
        exists (GetwdCall (Ok wd) :: LookupFidCall path (Ok fid) :: t), path'.
        split_and!; try done. by right.
      * cbn [fst snd app]. intros Hin. members Hin.
    + rewrite HasPrefix_empty by done. cbn [negb fst snd]. intros Hin.
      apply list_elem_of_singleton in Hin as [= ->].
      exists [], path. split_and!; try done. by left.
Qed.

(** X16. The error of [filepath.Abs] is dropped: when the working
    directory cannot be read, the relative path that needed it counts as
    lying outside the filesystem, whatever it is.  The failed read of the
    working directory is then the last call of the run, and the error
    returned says that the path is not in the filesystem. *)
Theorem lost_working_directory_is_reported_as_wrong_filesystem (actionName : string)
    (requestFn : option (hsmRequestFn W RootDir Fid)) (archiveID : Z) paths w (e : error) :
  let run := submitHsmRequest L actionName requestFn archiveID paths w in
  GetwdCall (Err e) ∈ run.2 →
  ∃ path0 fsRoot,
    head paths = Some path0 ∧ MountRootCall path0 (Ok fsRoot) ∈ run.2
    ∧ (RootDir_Path L fsRoot ≠ "" →
         ∃ t path,
           run.2 = t ++ [GetwdCall (Err e)] ∧ path ∈ paths ∧ rooted path = false
           ∧ run.1.1 = Some (outside_filesystem path (RootDir_String L fsRoot))).
Proof.
  cbv zeta. unfold submitHsmRequest. destruct paths as [|path0 rest].
  { by intros ?%elem_of_nil. }
  destruct (fs_MountRoot L path0 w) as [[fsRoot|e'] w1].
  2: { intros Hin. members Hin. }
  pose proof (λ Hp, resolve_getwd fsRoot (path0 :: rest) Hp [] w1 e) as Hg.
  cbv zeta in Hg.
  destruct (resolve L fsRoot (path0 :: rest) [] w1) as [[[fids|e'] w2] t2];
    cbn [fst snd] in Hg.
  - assert (∀ tr, GetwdCall (Err e) ∈ MountRootCall path0 (Ok fsRoot) :: t2 ++ tr →
              Forall (λ c, is_request c = true) tr →
              RootDir_Path L fsRoot ≠ "" → False) as Hno.
    { intros tr Hin Htr Hp. apply elem_of_cons in Hin as [?|Hin]; [done|].
      apply elem_of_app in Hin as [Hin|Hin].
      - by destruct (Hg Hp Hin) as (? & ? & _ & _ & _ & ?).
      - rewrite Forall_forall in Htr. by apply Htr in Hin. }
    destruct requestFn as [fn|]; [destruct (fn fsRoot archiveID fids w2) as [err w3]|];
      cbn [fst snd]; intros Hin; exists path0, fsRoot;
      (split; [done|]); (split; [by left|]); intros Hp; exfalso.
    + eapply Hno; [exact Hin|by repeat constructor|done].
    + apply (Hno []); [by rewrite app_nil_r|constructor|done].
  - cbn [fst snd]. intros Hin. exists path0, fsRoot.
    split; [done|]. split; [by left|]. intros Hp.
    apply elem_of_cons in Hin as [?|Hin]; [done|].
    destruct (Hg Hp Hin) as (t & path & -> & ? & ? & [= ->]).
    by exists (MountRootCall path0 (Ok fsRoot) :: t), path.
Qed.
End submitHsmRequest_facts.

(** The working directory of the process is gone. *)
Lemma lost_working_directory_witness :
  let run := lfs.submitHsmRequest lfs.lost_wd "archive" None 1 ["/mnt/lustre/b"; "a"] tt in
  lfs.GetwdCall (Err (OtherError "getwd: no such file or directory")) ∈ run.2
  ∧ ∃ path0 fsRoot,
      head ["/mnt/lustre/b"; "a"] = Some path0 ∧ lfs.MountRootCall path0 (Ok fsRoot) ∈ run.2
      ∧ (lfs.RootDir_Path lfs.lost_wd fsRoot ≠ "" →
           ∃ t path,
             run.2 = t ++ [lfs.GetwdCall (Err (OtherError "getwd: no such file or directory"))]
             ∧ path ∈ ["/mnt/lustre/b"; "a"] ∧ rooted path = false
             ∧ run.1.1 = Some (lfs.outside_filesystem path
                                 (lfs.RootDir_String lfs.lost_wd fsRoot))).
Proof.
  cbv zeta.
  assert (lfs.GetwdCall (Err (OtherError "getwd: no such file or directory"))
          ∈ (lfs.submitHsmRequest lfs.lost_wd "archive" None 1 ["/mnt/lustre/b"; "a"] tt).2)
    as Hin.
  { find_event. }
  exact (conj Hin
    (lost_working_directory_is_reported_as_wrong_filesystem lfs.lost_wd "archive" None 1
       ["/mnt/lustre/b"; "a"] tt _ Hin)).
Defined.

(** ** cmd/lhsm-plugin-noop: [noop] and [main] *)

Lemma invoke_all_answers (cs : list noop.Method) (m : noop.Mover) :
  noop.invoke_all cs m = (map (noop.expected (noop.fsName m) (noop.archiveID m)) cs, m).
Proof.
  induction cs as [|c cs IH]; [done|]. destruct c; simpl; by rewrite IH.
Qed.


(** ** The metadata keep the stat fields *)

Lemma digit_value (d : Z) : 0 ≤ d < 10 → Z.of_nat (nat_of_ascii (digit d)) - 48 = d.
Proof.
  intros Hd. unfold digit. rewrite nat_ascii_embedding by lia. lia.
Qed.

Lemma digits_read (base : Z) (fuel : nat) :
  2 ≤ base ≤ 10 →
  ∀ (u : Z) (buf : string),
    0 ≤ u < base ^ (Z.of_nat fuel + 1) →
    read_digits base (digits fuel base u buf) 0 = read_digits base buf u.
Proof.
  intros Hb. induction fuel as [|fuel IH]; intros u buf Hu.
  - simpl in *. rewrite digit_value by lia. by f_equal.
  - cbn [digits]. case_decide as Hle.
    + rewrite IH.
      * cbn [read_digits]. rewrite digit_value.
        -- f_equal. pose proof (Z.div_mod u base). lia.
        -- pose proof (Z.mod_pos_bound u base). lia.
      * split; [apply Z.div_pos; lia|].
        apply Z.div_lt_upper_bound; [lia|].
        replace (Z.of_nat (S fuel) + 1) with (Z.succ (Z.of_nat fuel + 1)) in Hu by lia.
        rewrite Z.pow_succ_r in Hu by lia. lia.
    + cbn [read_digits]. rewrite digit_value by lia. by f_equal.
Qed.

Lemma fmt_uint_read (base u : Z) :
  2 ≤ base ≤ 10 → 0 ≤ u → read_digits base (fmt_uint base u) 0 = u.
Proof.
  intros Hb Hu. unfold fmt_uint. rewrite digits_read; [done..|].
  split; [done|]. rewrite Z2Nat.id by apply Z.log2_nonneg.
  destruct (decide (u = 0)) as [->|Hne].
  - simpl. change (Z.pow_pos base 1) with (base ^ 1). lia.
  - pose proof (Z.log2_spec u ltac:(lia)) as [_ Hlt].
    eapply Z.lt_le_trans; [exact Hlt|].
    replace (Z.succ (Z.log2 u)) with (Z.log2 u + 1) by lia.
    apply Z.pow_le_mono_l. lia.
Qed.

Lemma fmt_uint_inj (base u v : Z) :
  2 ≤ base ≤ 10 → 0 ≤ u → 0 ≤ v → fmt_uint base u = fmt_uint base v → u = v.
Proof.
  intros Hb Hu Hv E. apply (f_equal (λ s, read_digits base s 0)) in E.
  by rewrite !fmt_uint_read in E.
Qed.

(** X18. The metadata keep the mode, the owner and the group of the file:
    the digits that [Archive] stores under [Permissions], [Owner] and
    [Group] spell the mode in base 8 and the user and group ids in base 10,
    so metadata that are equal come from stat fields that are equal. *)
Theorem metadata_keep_the_stat_fields (m : Metadata) (info info' : FileInfo) :
  four_keys m info → four_keys m info' →
  0 ≤ Mode info → 0 ≤ Uid info → 0 ≤ Gid info →
  0 ≤ Mode info' → 0 ≤ Uid info' → 0 ≤ Gid info' →
  (∃ p o g, m !! "Permissions" = Some p ∧ read_digits 8 p 0 = Mode info
            ∧ m !! "Owner" = Some o ∧ read_digits 10 o 0 = Uid info
            ∧ m !! "Group" = Some g ∧ read_digits 10 g 0 = Gid info)
  ∧ Mode info = Mode info' ∧ Uid info = Uid info' ∧ Gid info = Gid info'.
Proof.
  intros (_ & Hp & _ & Ho & Hg) (_ & Hp' & _ & Ho' & Hg') ? ? ? ? ? ?.
  split.
  - exists (Sprintf_o (Mode info)), (Sprintf_d (Uid info)), (Sprintf_d (Gid info)).
    unfold Sprintf_o, Sprintf_d. by rewrite !fmt_uint_read by (done || lia).
  - rewrite Hp in Hp'. rewrite Ho in Ho'. rewrite Hg in Hg'.
    injection Hp' as Hp'. injection Ho' as Ho'. injection Hg' as Hg'.
    split_and!; eapply fmt_uint_inj; try eassumption; lia.
Qed.

(** The file of the examples: mode 0644, owner 1000, group 100. *)
Lemma metadata_witness :
  four_keys (runs.file_metadata sim.file_info) sim.file_info
  ∧ (∃ p o g,
       runs.file_metadata sim.file_info !! "Permissions" = Some p ∧ read_digits 8 p 0 = 420
       ∧ runs.file_metadata sim.file_info !! "Owner" = Some o ∧ read_digits 10 o 0 = 1000
       ∧ runs.file_metadata sim.file_info !! "Group" = Some g ∧ read_digits 10 g 0 = 100)
  ∧ 420 = 420 ∧ 1000 = 1000 ∧ 100 = 100.
Proof.
  pose proof (file_metadata_keys sim.file_info) as Hk.
  exact (conj Hk
    (metadata_keep_the_stat_fields (runs.file_metadata sim.file_info) sim.file_info
       sim.file_info Hk Hk ltac:(done) ltac:(done) ltac:(done) ltac:(done) ltac:(done)
       ltac:(done))).
Defined.

(** ** The shape of the key of [Remove] *)

Lemma clean_buffer_dotdot rt out : clean_buffer rt (".." :: out) → Forall (λ e, e = "..") out.
Proof.
  induction out as [|t out IH]; [constructor|].
  intros (_ & _ & _ & Hd & Hb). destruct (Hd eq_refl) as [_ ->].
  constructor; [done|]. by apply IH.
Qed.

Lemma clean_buffer_segments rt out : clean_buffer rt out → clean_segments rt (rev out).
Proof.
  induction out as [|e out IH].
  { intros _. by exists [], []. }
  intros Hb. pose proof Hb as (H1 & H2 & H3 & H4 & Hb').
  destruct (decide (e = "..")) as [->|Hne].
  - exists (rev (".." :: out)), []. rewrite app_nil_r. split_and!; [done| | |constructor].
    + intros ->. by destruct (H4 eq_refl).
    + apply Forall_rev. constructor; [done|]. by eapply clean_buffer_dotdot.
  - destruct (IH Hb') as (ups & names & E & Hrt & Hups & Hnames).
    exists ups, (names ++ [e]). simpl. rewrite E, <- app_assoc.
    split_and!; [done..|]. apply Forall_app. split; [done|]. by repeat constructor.
Qed.

Lemma drop_empty_nil (elem : list string) : drop_empty elem = [] ↔ Forall (λ e, e = "") elem.
Proof.
  induction elem as [|e elem IH]; simpl; [split; [constructor|done]|].
  case_decide as He.
  - rewrite IH. split; [by constructor|by inversion 1].
  - split; [done|]. by inversion 1.
Qed.

Lemma drop_empty_head (elem : list string) (e : string) (es : list string) :
  drop_empty elem = e :: es → e ≠ "".
Proof.
  induction elem as [|a elem IH]; simpl; [done|]. case_decide; [done|]. by intros [= <- _].
Qed.

(** What [path.Join] gives: nothing for elements that are all empty, and a
    cleaned path otherwise. *)
Lemma Join_shape (elem : list string) :
  (path_Join elem = "" ↔ Forall (λ e, e = "") elem)
  ∧ (path_Join elem ≠ "" →
       path_Join elem = "."
       ∨ ∃ segs,
           clean_segments (rooted (path_Join elem)) segs
           ∧ path_Join elem
             = (if rooted (path_Join elem) then "/" else "") +:+ strings_Join segs
           ∧ (rooted (path_Join elem) = false → segs ≠ [])).
Proof.
  unfold path_Join. pose proof (drop_empty_nil elem) as Hnil.
  destruct (drop_empty elem) as [|e es] eqn:Ed.
  { split; [|done]. split; [intros _; by apply Hnil|done]. }
  apply drop_empty_head in Ed as He. split.
  - split; [by intros ?%Clean_nonempty|]. intros H. by apply Hnil in H.
  - intros _. rewrite path_Clean_elements. unfold Clean_elements.
    case_decide as Ej; [by apply Join_cons_nonempty in Ej|].
    pose proof (clean_stack_buffer (strings_Join (e :: es))) as Hb.
    rewrite rooted_render by done.
    apply clean_buffer_segments in Hb as Hs.
    unfold render. destruct (rooted (strings_Join (e :: es))).
    + right. exists (rev (clean_stack (strings_Join (e :: es)))). by split_and!.
    + destruct (clean_stack (strings_Join (e :: es))) as [|a l] eqn:Ec; [by left|].
      right. exists (rev (a :: l)). rewrite app_empty_l. split_and!; [done..|].
      intros _ E. apply (f_equal length) in E. rewrite length_rev in E. done.
Qed.

(** X19. The key that [Remove] deletes is normalised.  It is empty only
    when container, export prefix and object name are all empty.  Otherwise
    it is ["."], or it is made of segments joined by single slashes, behind
    a slash when the first element that is not empty starts with one: the
    segments are proper names, except that a key without a leading slash
    may start with [".."] segments, which lead out of the container. *)
Theorem Remove_key_is_normalised {Cred : Type} (o : remove.RemoveOptions Cred) :
  let key := remove.blobPath o in
  (key = "" ↔ remove.ContainerName o = "" ∧ remove.ExportPrefix o = ""
              ∧ remove.BlobName o = "")
  ∧ (key ≠ "" →
       key = "."
       ∨ ∃ segs,
           clean_segments (rooted key) segs
           ∧ key = (if rooted key then "/" else "") +:+ strings_Join segs
           ∧ (rooted key = false → segs ≠ [])).
Proof.
  cbv zeta. unfold remove.blobPath.
  destruct (Join_shape [remove.ContainerName o; remove.ExportPrefix o; remove.BlobName o])
    as [H1 H2].
  split; [|done]. rewrite H1. split.
  - intros H. inversion_clear H as [|? ? ? H']. inversion_clear H' as [|? ? ? H''].
    by inversion_clear H''.
  - intros (-> & -> & ->). by repeat constructor.
Qed.

(** ** The segments of the object name *)

(** X20. [strings.Split] and [strings.Join] undo each other, which is what
    the walk over the ancestors rests on: the object name is its ancestor
    segments and its last segment joined by slashes, there are as many
    ancestors as the name has slashes, and no segment holds a slash. *)
Theorem object_name_is_its_segments {Cred Pace : Type} (o : archive.ArchiveOptions Cred Pace) :
  (∃ name,
     strings_Split (archive.BlobName o) = runs.parents o ++ [name]
     ∧ archive.BlobName o = strings_Join (runs.parents o ++ [name])
     ∧ has_sep name = false)
  ∧ length (runs.parents o) = strings_Count (archive.BlobName o)
  ∧ Forall (λ e, has_sep e = false) (runs.parents o)
  ∧ ∀ segs, segs ≠ [] → Forall (λ e, has_sep e = false) segs →
      strings_Split (strings_Join segs) = segs.
Proof.
  unfold runs.parents.
  pose proof (Split_nonempty (archive.BlobName o)) as Hne.
  pose proof (Split_elements (archive.BlobName o)) as Hel.
  pose proof (Split_length (archive.BlobName o)) as Hlen.
  pose proof (Join_Split (archive.BlobName o)) as Hj.
  destruct (strings_Split (archive.BlobName o)) as [|a l] eqn:E using rev_ind; [done|].
  clear IHl. rewrite removelast_last. split_and!.
  - exists a. split_and!; [done..|]. apply Forall_app in Hel as [_ Ha]. by inversion Ha.
  - rewrite length_app in Hlen. simpl in Hlen. lia.
  - by apply Forall_app in Hel as [? _].
  - apply Split_Join.
Qed.

(** ** What [Remove] leaves behind, and the two services *)

Lemma Join_app_last (l : list string) (e : string) (name : string) :
  strings_Join (e :: l ++ [name]) = e +:+ "/" +:+ strings_Join (l ++ [name]).
Proof. by destruct l. Qed.

Lemma placeholders_are_prefixes (out : list string) (ps : list string) (name : string) :
  clean_buffer true out → out ≠ [] →
  Forall proper_name ps → Forall (λ e, has_sep e = false) ps →
  Forall (λ q, strict_prefix q (render true out +:+ "/" +:+ strings_Join (ps ++ [name])))
    (archive.parent_paths (render true out) ps).
Proof.
  revert out. induction ps as [|c ps IH]; intros out Hb Ho Hp Hs; [constructor|].
  inversion_clear Hp as [|? ? Hc Hp']. inversion_clear Hs as [|? ? Hc' Hs'].
  cbn [archive.parent_paths].
  rewrite Join_push, clean_stack_render by (done || by apply rooted_render).
  assert (render true out +:+ "/" +:+ strings_Join ((c :: ps) ++ [name])
          = render true (c :: out) +:+ "/" +:+ strings_Join (ps ++ [name])) as ->.
  { rewrite render_push by done. simpl app. rewrite Join_app_last.
    by rewrite !app_assoc_s. }
  constructor.
  - by eexists ("/" +:+ _).
  - apply IH; try done. destruct Hc as (?&?&?). simpl. by repeat split.
Qed.

(** X21. [Remove] leaves the placeholders behind.  Let account, container,
    object name and access token be plain, so that [url.Parse] takes the
    URL strings as they are.  For a container that is one proper name and
    an object name whose segments are all proper names, the path of every
    placeholder that [Archive] uploads is a proper prefix of the path that
    [Remove] deletes with an empty export prefix: the one delete of
    [Remove] is a delete of none of them. *)
Theorem Remove_leaves_the_placeholders {W Cred Pace : Type}
    (url_Parse : string → option Parsed) (B : Backend W)
    (a : archive.ArchiveOptions Cred Pace) (r : remove.RemoveOptions Cred) (w w' : W)
    u opt e :
  takes_plain url_Parse →
  remove.AccountName r = archive.AccountName a →
  remove.ContainerName r = archive.ContainerName a →
  remove.ResourceSAS r = archive.ResourceSAS a →
  remove.BlobName r = archive.BlobName a →
  remove.ExportPrefix r = "" →
  plain_host (archive.AccountName a) = true →
  plain_path (archive.ContainerName a) = true →
  plain_path (archive.BlobName a) = true →
  plain_query (archive.ResourceSAS a) = true →
  proper_name (archive.ContainerName a) → has_sep (archive.ContainerName a) = false →
  Forall proper_name (strings_Split (archive.BlobName a)) →
  Do TheBlob (DeleteCall u opt e) ∈ (remove.Remove url_Parse B r w').2 →
  Forall (λ p, strict_prefix p (Path u))
    (placeholder_paths (placeholder_uploads (archive.Archive B a w).2)).
Proof.
  intros Hplain Ha Hc Hs Hn Hp Hpa Hpc Hpn Hpq Hc1 Hc2 Hn1 Hin.
  assert (Path u = "/" +:+ archive.ContainerName a +:+ "/" +:+ archive.BlobName a) as ->.
  { revert Hin. unfold remove.Remove.
    rewrite Remove_key_proper by (by rewrite ?Hc, ?Hn).
    rewrite Ha, Hc, Hs, Hn, Hplain; try done; cycle 1.
    { unfold flat_host, plain_host in *. by rewrite all_bytes_app, Hpa. }
    { by apply plain_key. }
    unfold bind, call, util_Log, ret. simpl.
    destruct (Delete B _ DeleteSnapshotsOptionInclude w') as [e' w'']. simpl.
    intros Hin. members Hin.
    match goal with E : Do _ _ = Do _ _ |- _ => injection E as -> _ _ end.
    done. }
  pose proof (Archive_sound B a w) as H.
  destruct (archive.Archive B a w) as [[out w1] tr]. cbn [fst snd] in *.
  assert (∃ t t' res, tr = Log LogInfo ("Archiving " +:+ archive.BlobName a) :: t ++ t'
            ∧ runs.loop_run a (runs.parents a) (runs.cURL a) (archive.MountRoot a) res t
            ∧ placeholder_uploads t' = []) as (t & t' & res & -> & Hl & Ht').
  { inversion H as [total err t Hl|t out' t' Hl Hf]; subst.
    - exists t, [], (Return total err). by rewrite app_nil_r.
    - exists t, t', (Next tt). repeat split; try done. by eapply file_run_uploads. }
  apply loop_run_uploads in Hl as (infos & _ & _ & Hu).
  cbn [placeholder_uploads]. rewrite placeholder_uploads_app, Ht', app_nil_r, Hu.
  rewrite paths_of_uploads. apply Forall_take.
  change (Path (runs.cURL a)) with ("/" +:+ archive.ContainerName a).
  unfold runs.parents.
  pose proof (Split_nonempty (archive.BlobName a)) as Hne.
  pose proof (Split_elements (archive.BlobName a)) as Hel.
  pose proof (Join_Split (archive.BlobName a)) as Hj.
  destruct (strings_Split (archive.BlobName a)) as [|name ps _] using rev_ind; [done|].
  rewrite removelast_last. rewrite <- Hj.
  apply Forall_app in Hn1 as [Hps _]. apply Forall_app in Hel as [Hel _].
  destruct Hc1 as (? & ? & ?).
  by apply (placeholders_are_prefixes [archive.ContainerName a] ps name).
Qed.

Lemma last_byte_cons (c : ascii) (s : string) :
  last_byte (String c s) = if decide (s = "") then Some c else last_byte s.
Proof. destruct s; by try case_decide. Qed.

Lemma appended_path (c n : string) :
  "/" +:+ (c +:+ "/" +:+ n)
  = (if decide (last_byte ("/" +:+ c) = Some "/"%char) then "/" +:+ c
     else ("/" +:+ c) +:+ "/") +:+ n
  ↔ c ≠ "" ∧ last_byte c ≠ Some "/"%char.
Proof.
  rewrite (app_String _ "" c), app_empty_l, last_byte_cons.
  destruct (decide (c = "")) as [->|Hc].
  - rewrite decide_True by done. rewrite !app_String, !app_empty_l.
    split; [|by intros [? _]].
    intros [= E]. apply (f_equal String.length) in E. simpl in E. lia.
  - case_decide as Hl.
    + split; [|by intros [_ ?]]. rewrite !app_String, !app_empty_l. intros [= E].
      apply app_inv_l in E. rewrite ?app_String, ?app_empty_l in E.
      apply (f_equal String.length) in E. simpl in E. lia.
    + split; [done|]. intros _. by rewrite !app_String, !app_empty_l, !app_assoc_s.
Qed.

(** X22. Let account, container, object name and access token be plain,
    so that [url.Parse] takes the URL strings of both services as they are.
    The blob is then addressed on the two services with the same path
    exactly when the container name is not empty and does not end in a
    slash: the blob URL gets its slash only where one is missing, the URL
    of the namespace-aware service always. *)
Theorem both_services_address_one_path {Cred Pace : Type}
    (o : archive.ArchiveOptions Cred Pace) :
  plain_host (archive.AccountName o) = true →
  plain_path (archive.ContainerName o) = true →
  plain_path (archive.BlobName o) = true →
  plain_query (archive.ResourceSAS o) = true →
  Path (archive.dfsURL o) = Path (runs.blobURL o)
  ↔ archive.ContainerName o ≠ "" ∧ last_byte (archive.ContainerName o) ≠ Some "/"%char.
Proof.
  intros _ _ _ _. apply appended_path.
Qed.

(** The object [a/f] in the container [c], and in a container given with
    a slash behind its name. *)
Lemma both_services_witness :
  Path (archive.dfsURL scenario.hns) = Path (runs.blobURL scenario.hns)
  ∧ Path (archive.dfsURL cases.trailing_slash) ≠ Path (runs.blobURL cases.trailing_slash).
Proof.
  split.
  - apply (both_services_address_one_path scenario.hns); by vm_compute.
  - intros H.
    apply (both_services_address_one_path cases.trailing_slash) in H as [_ H];
      by vm_compute.
Defined.

(** The scenario of the specification with an empty export prefix. *)
Lemma Remove_leaves_witness :
  let fx := sim.backend scenario.plain in
  cases.deleted ∈ (remove.Remove sim.url_Parse fx cases.no_prefix_remove ∅).2
  ∧ proper_name "c" ∧ Forall proper_name ["a"; "b"; "file.txt"]
  ∧ Forall (λ p, strict_prefix p "/c/a/b/file.txt")
      (placeholder_paths (placeholder_uploads (archive.Archive fx cases.no_prefix ∅).2)).
Proof.
  cbv zeta.
  assert (cases.deleted
          ∈ (remove.Remove sim.url_Parse (sim.backend scenario.plain)
               cases.no_prefix_remove ∅).2) as Hin.
  { find_event. }
  assert (proper_name "c") as Hc by (by repeat split).
  assert (Forall proper_name ["a"; "b"; "file.txt"]) as Hn.
  { by repeat constructor. }
  exact (conj Hin (conj Hc (conj Hn
    (Remove_leaves_the_placeholders sim.url_Parse (sim.backend scenario.plain)
       cases.no_prefix cases.no_prefix_remove ∅ ∅ _ _ _ sim_takes_plain
       eq_refl eq_refl eq_refl eq_refl eq_refl eq_refl eq_refl eq_refl eq_refl
       Hc eq_refl Hn Hin)))).
Defined.

(** ** The modification time can be read back *)

Lemma app_inj_length (s1 s2 t1 t2 : string) :
  String.length s1 = String.length s2 → s1 +:+ t1 = s2 +:+ t2 → s1 = s2 ∧ t1 = t2.
Proof.
  revert s2. induction s1 as [|c s1 IH]; intros [|c' s2] Hl E; try discriminate Hl.
  - by rewrite !app_empty_l in E.
  - rewrite !app_String in E. injection E as -> E. injection Hl as Hl.
    by destruct (IH s2 Hl E) as [-> ->].
Qed.

Lemma digits_length (base : Z) (fuel : nat) :
  2 ≤ base →
  ∀ (u : Z) (buf : string) (w : nat),
    (1 ≤ w)%nat → 0 ≤ u < base ^ Z.of_nat w →
    (String.length (digits fuel base u buf) ≤ w + String.length buf)%nat.
Proof.
  intros Hb. induction fuel as [|fuel IH]; intros u buf w Hw Hu; [simpl; lia|].
  cbn [digits]. case_decide as Hle; [|simpl; lia].
  destruct w as [|[|w]]; [lia| |].
  { change (Z.of_nat 1) with 1 in Hu. rewrite Z.pow_1_r in Hu. lia. }
  specialize (IH (u / base) (String (digit (u mod base)) buf) (S w)).
  simpl String.length in IH. 
  assert (0 ≤ u / base < base ^ Z.of_nat (S w)) as Hq.
  { split; [apply Z.div_pos; lia|]. apply Z.div_lt_upper_bound; [lia|].
    replace (Z.of_nat (S (S w))) with (Z.succ (Z.of_nat (S w))) in Hu by lia.
    rewrite Z.pow_succ_r in Hu by lia. lia. }
  specialize (IH ltac:(lia) Hq). lia.
Qed.

Lemma zeros_length (n : nat) : String.length (zeros n) = n.
Proof. induction n; simpl; auto. Qed.

Lemma read_zeros (n : nat) (s : string) :
  read_digits 10 (zeros n +:+ s) 0 = read_digits 10 s 0.
Proof. induction n as [|n IH]; [done|]. simpl zeros. by rewrite app_String. Qed.

Lemma appendInt_field (x : Z) (w : nat) :
  (1 ≤ w)%nat → 0 ≤ x < 10 ^ Z.of_nat w →
  String.length (appendInt x w) = w ∧ read_digits 10 (appendInt x w) 0 = x.
Proof.
  intros Hw Hx. unfold appendInt. rewrite decide_False by lia. rewrite app_empty_l.
  rewrite Z.abs_eq by lia.
  pose proof (digits_length 10 (Z.to_nat (Z.log2 x)) ltac:(lia) x "" w Hw Hx) as Hl.
  fold (fmt_uint 10 x) in Hl. simpl in Hl. split.
  - rewrite string_length_app, zeros_length. lia.
  - rewrite read_zeros. apply fmt_uint_read; lia.
Qed.

Lemma appendInt_inj (x y : Z) (w : nat) :
  (1 ≤ w)%nat → 0 ≤ x < 10 ^ Z.of_nat w → 0 ≤ y < 10 ^ Z.of_nat w →
  appendInt x w = appendInt y w → x = y.
Proof.
  intros Hw Hx Hy E. apply (f_equal (λ s, read_digits 10 s 0)) in E.
  destruct (appendInt_field x w Hw Hx) as [_ Ex].
  destruct (appendInt_field y w Hw Hy) as [_ Ey]. congruence.
Qed.

(** Two fields of the same width at the start of two strings that are
    equal. *)
Lemma field_inj (x y : Z) (w : nat) (s t : string) :
  (1 ≤ w)%nat → 0 ≤ x < 10 ^ Z.of_nat w → 0 ≤ y < 10 ^ Z.of_nat w →
  appendInt x w +:+ s = appendInt y w +:+ t → x = y ∧ s = t.
Proof.
  intros Hw Hx Hy E.
  destruct (appendInt_field x w Hw Hx) as [Lx _].
  destruct (appendInt_field y w Hw Hy) as [Ly _].
  apply app_inj_length in E as [E ->]; [|congruence].
  split; [|done]. by eapply appendInt_inj.
Qed.

(** X23. The modification time that [Archive] stores can be read back.
    For a time with a year of four digits and an offset of whole minutes,
    the text under [ModTime] is 25 bytes long, and two such times with the
    same text are the same to the second, offset included. *)
Theorem ModTime_can_be_read_back (t t' : Time) :
  printable t → printable t' →
  String.length (Time_Format t) = 25%nat
  ∧ (Time_Format t = Time_Format t' → t = t').
Proof.
  intros (HY & HM & HD & Hh & Hm & Hs & Hr & Hz) (HY' & HM' & HD' & Hh' & Hm' & Hs' & Hr' & Hz').
  assert (∀ off, Z.rem off 60 = 0 → -360000 < off < 360000 →
            0 ≤ Z.quot (Z.abs (Z.quot off 60)) 60 < 100
            ∧ 0 ≤ Z.rem (Z.abs (Z.quot off 60)) 60 < 100) as Hzone.
  { intros off Hrem Ho.
    assert (0 ≤ Z.abs (Z.quot off 60) < 6000) as Ha.
    { pose proof (Z.quot_rem' off 60). lia. }
    rewrite Z.quot_div_nonneg, Z.rem_mod_nonneg by lia.
    pose proof (Z.div_mod (Z.abs (Z.quot off 60)) 60 ltac:(lia)).
    pose proof (Z.mod_pos_bound (Z.abs (Z.quot off 60)) 60 ltac:(lia)). lia. }
  destruct (Hzone _ Hr Hz) as [Hq Hq2]. destruct (Hzone _ Hr' Hz') as [Hq' Hq2'].
  split.
  - unfold Time_Format.
    rewrite !string_length_app.
    rewrite (proj1 (appendInt_field (Year t) 4 ltac:(lia) ltac:(lia))).
    rewrite (proj1 (appendInt_field (Month t) 2 ltac:(lia) ltac:(lia))).
    rewrite (proj1 (appendInt_field (Day t) 2 ltac:(lia) ltac:(lia))).
    rewrite (proj1 (appendInt_field (Hour t) 2 ltac:(lia) ltac:(lia))).
    rewrite (proj1 (appendInt_field (Minute t) 2 ltac:(lia) ltac:(lia))).
    rewrite (proj1 (appendInt_field (Second t) 2 ltac:(lia) ltac:(lia))).
    rewrite (proj1 (appendInt_field _ 2 ltac:(lia) Hq)).
    rewrite (proj1 (appendInt_field _ 2 ltac:(lia) Hq2)).
    by case_decide.
  - unfold Time_Format. intros E.
    apply field_inj in E as [EY E]; [|lia..]. apply app_inv_l in E.
    apply field_inj in E as [EM E]; [|lia..]. apply app_inv_l in E.
    apply field_inj in E as [ED E]; [|lia..]. apply app_inv_l in E.
    apply field_inj in E as [Eh E]; [|lia..]. apply app_inv_l in E.
    apply field_inj in E as [Em E]; [|lia..]. apply app_inv_l in E.
    apply field_inj in E as [Es E]; [|lia..]. apply app_inv_l in E.
    apply app_inj_length in E as [Esign E]; [|by repeat case_decide].
    apply field_inj in E as [Eq E]; [|lia|done..].
    apply (f_equal (λ s, read_digits 10 s 0)) in E.
    rewrite (proj2 (appendInt_field _ 2 ltac:(lia) Hq2)) in E.
    rewrite (proj2 (appendInt_field _ 2 ltac:(lia) Hq2')) in E.
    assert (Z.quot (ZoneOffset t) 60 = Z.quot (ZoneOffset t') 60) as Ezone.
    { pose proof (Z.quot_rem' (Z.abs (Z.quot (ZoneOffset t) 60)) 60).
      pose proof (Z.quot_rem' (Z.abs (Z.quot (ZoneOffset t') 60)) 60).
      assert (Z.abs (Z.quot (ZoneOffset t) 60) = Z.abs (Z.quot (ZoneOffset t') 60)) by lia.
      repeat case_decide; try discriminate Esign; lia. }
    assert (ZoneOffset t = ZoneOffset t') as Eoff.
    { pose proof (Z.quot_rem' (ZoneOffset t) 60).
      pose proof (Z.quot_rem' (ZoneOffset t') 60). lia. }
    destruct t, t'. simpl in *. by subst.
Qed.

(** The modification time of the examples: 2021-03-09 14:05:07 -0700. *)
Lemma ModTime_witness :
  printable sim.mtime
  ∧ String.length (Time_Format sim.mtime) = 25%nat
  ∧ (Time_Format sim.mtime = Time_Format sim.mtime → sim.mtime = sim.mtime).
Proof.
  assert (printable sim.mtime) as Hp.
  { unfold printable. simpl. split_and!; (reflexivity || lia). }
  exact (conj Hp (ModTime_can_be_read_back sim.mtime sim.mtime Hp Hp)).
Defined.

(** ** The content comes last *)

Lemma split_behind {A} (t1 t2 pre post : list A) (x : A) :
  t1 ++ t2 = pre ++ x :: post → x ∉ t1 → ∃ pre2, pre = t1 ++ pre2 ∧ t2 = pre2 ++ x :: post.
Proof.
  intros E Hx. apply app_eq_app in E as [l [[-> E]|[-> E]]].
  - destruct l as [|y l]; simpl in E.
    + exists []. rewrite !app_nil_r. by split.
    + injection E as <- ->. exfalso. apply Hx. apply elem_of_app. right. left.
  - by exists l.
Qed.

Section archive_order.
Context {W Cred Pace : Type} (B : Backend W).
Import archive runs.
Implicit Types (o : ArchiveOptions Cred Pace) (w : W).

Lemma loop_run_all_uploads o ps u d tr :
  loop_run o ps u d (Next tt) tr → length (placeholder_uploads tr) = length ps.
Proof.
  intros H. apply loop_run_uploads in H as (infos & _ & Hfull & ->).
  rewrite length_zip_with, parent_paths_length, (Hfull eq_refl). lia.
Qed.

(** X24. The content is uploaded once, after all the placeholders.  A
    content upload of [Archive] has before it one placeholder upload for
    each separator of the object name and no call that failed, and it is
    the only content upload of the run; no placeholder is uploaded after
    it. *)
Theorem content_follows_all_placeholders o w pre f u opts err post :
  (Archive B o w).2 = pre ++ Do TheFile (UploadFileCall f u opts err) :: post →
  length (placeholder_uploads pre) = strings_Count (BlobName o)
  ∧ Forall calm pre
  ∧ Forall (λ ev, is_content_upload ev = false) (pre ++ post)
  ∧ placeholder_uploads post = [].
Proof.
  pose proof (Archive_sound B o w) as H.
  destruct (Archive B o w) as [[out w'] tr]. cbn [fst snd] in *.
  assert (length (parents o) = strings_Count (BlobName o)) as Hk.
  { unfold parents. by rewrite removelast_length, Split_length. }
  inversion H as [total err' t Hl|t out' t' Hl Hf]; subst; intros E.
  { exfalso. apply loop_run_sites in Hl. rewrite Forall_forall in Hl.
    assert (Do TheFile (UploadFileCall f u opts err)
            ∈ Log LogInfo ("Archiving " +:+ BlobName o) :: t) as Hin.
    { rewrite E. apply elem_of_app. right. left. }
    apply elem_of_cons in Hin as [?|Hin]; [done|]. by apply Hl in Hin. }
  rewrite app_comm_cons in E. apply split_behind in E as (pre2 & -> & E).
  2: { intros Hin. apply elem_of_cons in Hin as [?|Hin]; [done|].
       apply loop_run_sites in Hl. rewrite Forall_forall in Hl. by apply Hl in Hin. }
  pose proof (loop_run_all_uploads _ _ _ _ _ Hl) as Hn.
  pose proof (loop_run_calm _ _ _ _ _ Hl) as Hc.
  pose proof (loop_run_no_content _ _ _ _ _ _ Hl) as Hnc.
  cbn [app placeholder_uploads]. rewrite placeholder_uploads_app, <- Hk, <- Hn.
  revert E. inversion Hf; subst; intros E; unfold file_calls in E;
    destruct (HNSEnabled o); simpl in E; positions pre2 E.
  all: subst; split_and!; [rewrite length_app; simpl; lia| | |done].
  all: try (constructor; [done|]; apply Forall_app; split; [done|by repeat constructor]).
  all: rewrite <- app_assoc; constructor; [done|]; apply Forall_app; split; [done|].
  all: by repeat constructor.
Qed.
End archive_order.

(** The content of [a/b/file.txt] follows the placeholders of [a] and
    [a/b]. *)
Lemma content_order_witness :
  let tr := (archive.Archive (sim.backend scenario.plain) cases.no_prefix ∅).2 in
  tr = take 9 tr ++ cases.content :: drop 10 tr
  ∧ length (placeholder_uploads (take 9 tr)) = 2%nat
  ∧ Forall calm (take 9 tr)
  ∧ Forall (λ ev, is_content_upload ev = false) (take 9 tr ++ drop 10 tr)
  ∧ placeholder_uploads (drop 10 tr) = [].
Proof.
  cbv zeta.
  assert ((archive.Archive (sim.backend scenario.plain) cases.no_prefix ∅).2
          = take 9 (archive.Archive (sim.backend scenario.plain) cases.no_prefix ∅).2
            ++ cases.content
               :: drop 10 (archive.Archive (sim.backend scenario.plain) cases.no_prefix ∅).2)
    as E.
  { by vm_compute. }
  exact (conj E
    (content_follows_all_placeholders (sim.backend scenario.plain) cases.no_prefix ∅
       _ _ _ _ _ _ E)).
Defined.

(** ** cmd/lfs: the check of the filesystem *)

Section submitHsmRequest_check.
Import lfs.
Context {W RootDir Fid : Type} (L : Lustre W RootDir Fid).
Implicit Types (w : W) (paths : list string) (fids : list Fid).

Lemma resolve_checked (fsRoot : RootDir) paths :
  ∀ fids w p r,
    LookupFidCall p r ∈ (resolve L fsRoot paths fids w).2 →
    p ∈ paths ∧ under_root L fsRoot (resolve L fsRoot paths fids w).2 p.
Proof.
  induction paths as [|path paths IH]; intros fids w p r.
  { by intros ?%elem_of_nil. }
  cbn [resolve]. unfold filepath_Abs, under_root.
  destruct (rooted path) eqn:Hr.
  - destruct (strings_HasPrefix _ _) eqn:Hp; cbn [negb].
    2: { by intros ?%elem_of_nil. }
    destruct (fs_LookupFid L path w) as [[fid|e'] w2].
    + specialize (IH (fids ++ [fid]) w2 p r). unfold under_root in IH.
      destruct (resolve L fsRoot paths (fids ++ [fid]) w2) as [[res w3] t3].
      cbn [fst snd app] in *. intros Hin. apply elem_of_cons in Hin as [[= -> _]|Hin].
      * split; [by left|]. by rewrite Hr.
      * destruct (IH Hin) as [? Hu]. split; [by right|].
        destruct (rooted p); [done|]. destruct Hu as [(wd & ? & ?)|?]; [left|by right].
        exists wd. split; [by right|done].
    + cbn [fst snd app]. intros Hin. apply list_elem_of_singleton in Hin as [= -> _].
      split; [by left|]. by rewrite Hr.
  - destruct (os_Getwd L w) as [[wd|e0] w1].
    + destruct (strings_HasPrefix _ _) eqn:Hp; cbn [negb].
      2: { cbn [snd]. intros Hin. members Hin. }
      destruct (fs_LookupFid L path w1) as [[fid|e'] w2].
      * specialize (IH (fids ++ [fid]) w2 p r). unfold under_root in IH.
        destruct (resolve L fsRoot paths (fids ++ [fid]) w2) as [[res w3] t3].
        cbn [fst snd app] in *. intros Hin.
        apply elem_of_cons in Hin as [?|Hin]; [done|].
        apply elem_of_cons in Hin as [[= -> _]|Hin].
        -- split; [by left|]. rewrite Hr. left. exists wd. split; [by left|done].
        -- destruct (IH Hin) as [? Hu]. split; [by right|].
           destruct (rooted p); [done|]. destruct Hu as [(wd' & ? & ?)|?]; [left|by right].
           exists wd'. split; [by do 2 right|done].
      * cbn [fst snd app]. intros Hin.
        apply elem_of_cons in Hin as [?|Hin]; [done|].
        apply list_elem_of_singleton in Hin as [= -> _].
        split; [by left|]. rewrite Hr. left. exists wd. split; [by left|done].
    + destruct (strings_HasPrefix _ _) eqn:Hp; cbn [negb].
      2: { cbn [snd]. intros Hin. members Hin. }
      assert (RootDir_Path L fsRoot = "") as Hroot.
      { destruct (RootDir_Path L fsRoot); [done|discriminate Hp]. }
      destruct (fs_LookupFid L path w1) as [[fid|e'] w2].
      * specialize (IH (fids ++ [fid]) w2 p r). unfold under_root in IH.
        destruct (resolve L fsRoot paths (fids ++ [fid]) w2) as [[res w3] t3].
        cbn [fst snd app] in *. intros Hin.
        apply elem_of_cons in Hin as [?|Hin]; [done|].
        apply elem_of_cons in Hin as [[= -> _]|Hin].
        -- split; [by left|]. rewrite Hr. by right.
        -- destruct (IH Hin) as [? Hu]. split; [by right|].
           destruct (rooted p); [done|]. by right.
      * cbn [fst snd app]. intros Hin.
        apply elem_of_cons in Hin as [?|Hin]; [done|].
        apply list_elem_of_singleton in Hin as [= -> _].
        split; [by left|]. rewrite Hr. by right.
Qed.

(** X25. Only paths that passed the check of the filesystem are looked
    up.  A path that [submitHsmRequest] looks up is one of its paths, and
    its absolute form, cleaned of [.] and [..] segments, starts with the
    path of the filesystem root that was found for the first path: the
    path itself when it starts with a slash, the working directory joined
    with it otherwise.  (A root with an empty path lets every path
    through.) *)
Theorem only_checked_paths_are_looked_up (actionName : string)
    (requestFn : option (hsmRequestFn W RootDir Fid)) (archiveID : Z) paths w
    (p : string) (r : result Fid) :
  let run := submitHsmRequest L actionName requestFn archiveID paths w in
  LookupFidCall p r ∈ run.2 →
  ∃ path0 fsRoot,
    head paths = Some path0 ∧ MountRootCall path0 (Ok fsRoot) ∈ run.2
    ∧ p ∈ paths ∧ under_root L fsRoot run.2 p.
Proof.
  cbv zeta. unfold submitHsmRequest. destruct paths as [|path0 rest].
  { by intros ?%elem_of_nil. }
  destruct (fs_MountRoot L path0 w) as [[fsRoot|e'] w1].
  2: { intros Hin. members Hin. }
  pose proof (resolve_checked fsRoot (path0 :: rest) [] w1 p r) as Hc.
  destruct (resolve L fsRoot (path0 :: rest) [] w1) as [[[fids|e'] w2] t2];
    cbn [fst snd] in Hc.
  - assert (∀ tr, Forall (λ c, is_request c = true) tr →
              LookupFidCall p r ∈ MountRootCall path0 (Ok fsRoot) :: t2 ++ tr →
              p ∈ path0 :: rest
              ∧ under_root L fsRoot (MountRootCall path0 (Ok fsRoot) :: t2 ++ tr) p) as Hall.
    { intros tr Htr Hin. apply elem_of_cons in Hin as [?|Hin]; [done|].
      apply elem_of_app in Hin as [Hin|Hin].
      2: { rewrite Forall_forall in Htr. by apply Htr in Hin. }
      destruct (Hc Hin) as [? Hu]. split; [done|]. unfold under_root in *.
      destruct (rooted p); [done|]. destruct Hu as [(wd & ? & ?)|?]; [left|by right].
      exists wd. split; [|done]. right. apply elem_of_app. by left. }
    destruct requestFn as [fn|]; [destruct (fn fsRoot archiveID fids w2) as [err w3]|];
      cbn [fst snd]; intros Hin; exists path0, fsRoot;
      (split; [done|]); (split; [by left|]).
    + apply Hall; [by repeat constructor|done].
    + rewrite <- (app_nil_r t2). apply Hall; [constructor|by rewrite app_nil_r].
  - cbn [fst snd]. intros Hin. exists path0, fsRoot.
    split; [done|]. split; [by left|].
    apply elem_of_cons in Hin as [?|Hin]; [done|].
    destruct (Hc Hin) as [? Hu]. split; [done|]. unfold under_root in *.
    destruct (rooted p); [done|]. destruct Hu as [(wd & ? & ?)|?]; [left|by right].
    exists wd. split; [by right|done].
Qed.
End submitHsmRequest_check.

(** Two paths of the filesystem mounted on [/mnt/lustre], the second one
    relative to the working directory [/mnt/lustre/d]. *)
Lemma checked_paths_witness :
  let run := lfs.submitHsmRequest lfs.mounted "archive" None 1 ["/mnt/lustre/a"; "b"] tt in
  lfs.LookupFidCall "b" (Ok 7) ∈ run.2
  ∧ ∃ path0 fsRoot,
      head ["/mnt/lustre/a"; "b"] = Some path0 ∧ lfs.MountRootCall path0 (Ok fsRoot) ∈ run.2
      ∧ "b" ∈ ["/mnt/lustre/a"; "b"] ∧ lfs.under_root lfs.mounted fsRoot run.2 "b".
Proof.
  cbv zeta.
  assert (lfs.LookupFidCall "b" (Ok 7)
          ∈ (lfs.submitHsmRequest lfs.mounted "archive" None 1 ["/mnt/lustre/a"; "b"] tt).2)
    as Hin.
  { find_event. }
  exact (conj Hin
    (only_checked_paths_are_looked_up lfs.mounted "archive" None 1
       ["/mnt/lustre/a"; "b"] tt _ _ Hin)).
Defined.
